(** * CrashWin: the crash-round engine, its in-memory store and its
      commitment hashes, embedded from [server/crashEngine.ts],
      [server/storage.ts] and [server/utils/hash.ts].

    Conventions of the embedding.

    - A JavaScript number is a [number]: [NaN], the two infinities, or a
      finite double, carried by the rational it stands for.  A sum, a
      product or a quotient is the exact result rounded to the nearest
      binary64 value, ties to even, with overflow to an infinity and gradual
      underflow ([round64]); the operators follow the IEEE rules for [NaN],
      infinities and division by zero.  Zero carries no sign.  The
      operations are checked against the binary64 numbers of the kernel on
      a table of samples ([binary64_agrees]).
    - Money and multipliers live in the store as decimal strings, as in the
      source; [parseFloat] and [toFixed2] convert.
    - A JavaScript [Map] is an association list in insertion order.
    - [randomUUID()], [Date.now()], [new Date()], [Math.random()] and
      [crypto.randomBytes] are inputs of the operation that reads them.
    - A request of a player (a bet, a cash-out) is handled to its end before
      anything else runs.  The flying tick starts two async methods it does
      not await; their stretches between awaits take turns as the microtask
      queue orders them.
    - [emit] appends to the list of events a step returns. *)

From Stdlib Require Import ZArith QArith Qround Qabs Qpower Lia Lqa.
From Stdlib Require Import Bool List String Ascii Floats.
From Stdlib.Strings Require Import Byte.
From Stdlib Require Import Sorted Permutation.
Import ListNotations.

Local Open Scope string_scope.
Local Open Scope Z_scope.

(* ================================================================== *)
(** ** JavaScript numbers *)

Module JsNumber.

Inductive number : Type :=
| NaN
| PosInf
| NegInf
| Fin (q : Q).

Definition num (z : Z) : number := Fin (inject_Z z).

Definition Qltb (a b : Q) : bool := negb (Qle_bool b a).

(** Sign of a finite value: [Lt], [Eq] or [Gt] against zero. *)
Definition Qsgn (q : Q) : comparison := Qcompare q 0%Q.

Definition nneg (a : number) : number :=
  match a with
  | NaN => NaN
  | PosInf => NegInf
  | NegInf => PosInf
  | Fin q => Fin (Qred (- q)%Q)
  end.

(** *** Rounding to a double

    The binary64 values are the multiples [n * 2^(e - 52)] with
    [|n| <= 2^53] and [-1022 <= e <= 1023].  [round64 q] is the one nearest
    to [q], the one with even [n] when two are equally near, and an
    infinity from [2^1024] on: the result IEEE 754 prescribes for an
    operation whose exact value is [q]. *)

(** The nearest integer, the even one on a tie. *)
Definition round_even (q : Q) : Z :=
  let f := Qfloor q in
  match Qcompare (q - inject_Z f) (1 # 2) with
  | Lt => f
  | Gt => f + 1
  | Eq => if Z.even f then f else f + 1
  end.

(** The [e] with [2^e <= q < 2^(e + 1)], for [q > 0]. *)
Definition binade (q : Q) : Z :=
  let e0 := Z.log2 (Qnum q) - Z.log2 (Z.pos (Qden q)) in
  if Qle_bool (2 ^ e0) q then e0 else e0 - 1.

(** The distance between neighbouring doubles around [q > 0]; below
    [2^-1022] it stays that of the smallest normal binade. *)
Definition quantum (q : Q) : Q := (2 ^ (Z.max (binade q) (-1022) - 52))%Q.

Definition nearest (q : Q) : Q :=
  (inject_Z (round_even (q / quantum q)) * quantum q)%Q.

Definition round64 (q : Q) : number :=
  match Qcompare q 0 with
  | Eq => Fin 0
  | Gt => let v := nearest q in
          if Qle_bool (2 ^ 1024) v then PosInf else Fin (Qred v)
  | Lt => let v := nearest (- q) in
          if Qle_bool (2 ^ 1024) v then NegInf else Fin (Qred (- v))
  end.

(** [a + b] *)
Definition nadd (a b : number) : number :=
  match a, b with
  | NaN, _ | _, NaN => NaN
  | PosInf, NegInf | NegInf, PosInf => NaN
  | PosInf, _ | _, PosInf => PosInf
  | NegInf, _ | _, NegInf => NegInf
  | Fin x, Fin y => round64 (x + y)
  end.

(** [a - b] *)
Definition nsub (a b : number) : number := nadd a (nneg b).

Definition inf_of_sign (c : comparison) : number :=
  match c with
  | Gt => PosInf
  | Lt => NegInf
  | Eq => NaN
  end.

(** [a * b] *)
Definition nmul (a b : number) : number :=
  match a, b with
  | NaN, _ | _, NaN => NaN
  | PosInf, PosInf | NegInf, NegInf => PosInf
  | PosInf, NegInf | NegInf, PosInf => NegInf
  | PosInf, Fin y | Fin y, PosInf => inf_of_sign (Qsgn y)
  | NegInf, Fin y | Fin y, NegInf => inf_of_sign (CompOpp (Qsgn y))
  | Fin x, Fin y => round64 (x * y)
  end.

(** [a / b]; a finite non-zero value over zero is an infinity. *)
Definition ndiv (a b : number) : number :=
  match a, b with
  | NaN, _ | _, NaN => NaN
  | (PosInf | NegInf), (PosInf | NegInf) => NaN
  | PosInf, Fin y => match Qsgn y with Lt => NegInf | _ => PosInf end
  | NegInf, Fin y => match Qsgn y with Lt => PosInf | _ => NegInf end
  | Fin _, (PosInf | NegInf) => Fin 0%Q
  | Fin x, Fin y =>
      match Qsgn y with
      | Eq => inf_of_sign (Qsgn x)
      | _ => round64 (x / y)
      end
  end.

(** [a <= b]; every comparison with [NaN] is false. *)
Definition nle (a b : number) : bool :=
  match a, b with
  | NaN, _ | _, NaN => false
  | NegInf, _ | _, PosInf => true
  | PosInf, _ | _, NegInf => false
  | Fin x, Fin y => Qle_bool x y
  end.

(** [a < b] *)
Definition nlt (a b : number) : bool :=
  match a, b with
  | NaN, _ | _, NaN => false
  | PosInf, _ | _, NegInf => false
  | NegInf, _ | _, PosInf => true
  | Fin x, Fin y => Qltb x y
  end.

(** [a > b] and [a >= b] *)
Definition ngt (a b : number) : bool := nlt b a.
Definition nge (a b : number) : bool := nle b a.

(** [Math.floor] *)
Definition Math_floor (a : number) : number :=
  match a with
  | Fin q => num (Qfloor q)
  | _ => a
  end.

(** [Math.round]: the nearest integer, a tie going up. *)
Definition Math_round (a : number) : number :=
  match a with
  | Fin q => num (Qfloor (q + (1 # 2))%Q)
  | _ => a
  end.

(** [Math.max] of two arguments. *)
Definition Math_max (a b : number) : number :=
  match a, b with
  | NaN, _ | _, NaN => NaN
  | _, _ => if nle a b then b else a
  end.

(** Equality of the values two numbers denote ([NaN] equals nothing). *)
Definition neqb (a b : number) : bool :=
  match a, b with
  | PosInf, PosInf | NegInf, NegInf => true
  | Fin x, Fin y => Qeq_bool x y
  | _, _ => false
  end.

Definition is_finite (a : number) : bool :=
  match a with Fin _ => true | _ => false end.

(** *** The doubles of the machine

    The kernel's binary64 numbers, read as [number]s: what [round64] and
    the operations above are checked against. *)

Definition of_float (f : float) : number :=
  match Prim2SF f with
  | S754_zero _ => Fin 0
  | S754_infinity false => PosInf
  | S754_infinity true => NegInf
  | S754_nan => NaN
  | S754_finite s m e =>
      let v := (inject_Z (Z.pos m) * 2 ^ e)%Q in
      Fin (Qred (if s then - v else v))
  end.

(** The same number, [NaN] included. *)
Definition same_number (a b : number) : bool :=
  match a, b with
  | NaN, NaN | PosInf, PosInf | NegInf, NegInf => true
  | Fin x, Fin y => Qeq_bool x y
  | _, _ => false
  end.

#[local] Set Warnings "-inexact-float".

Definition sample_doubles : list float :=
  [0; 1; 3; 99; 100; 1000; 0.1; 0.3; 0.9; 0.792; 0.045; 1.15; 2.01; 10.10; 12480.5; 1e22;
   1.7976931348623157e308; 1e-308; 5e-324; -0.1; -12480.5; infinity; neg_infinity; nan]%float.

Definition sample_pairs : list (float * float) :=
  List.flat_map (fun a => List.map (fun b => (a, b)) sample_doubles) sample_doubles.

(** [nop] computes what the machine operation [op] computes, on every pair
    of samples. *)
Definition agrees (op : float -> float -> float) (nop : number -> number -> number) : bool :=
  List.forallb
    (fun p => same_number (nop (of_float (fst p)) (of_float (snd p)))
                (of_float (op (fst p) (snd p))))
    sample_pairs.

(** Decimal literals and the doubles they denote. *)
Definition sample_literals : list (Q * float) :=
  [(1 # 10, 0.1); (2 # 10, 0.2); (1010 # 100, 10.10); (115 # 100, 1.15);
   (495 # 1000, 0.495); (9 # 10, 0.9); (792 # 1000, 0.792); (45 # 1000, 0.045);
   (124805 # 10, 12480.5); (198 # 100, 1.98); (1 # 3, 0.333333333333333333333);
   (123456789012345678901234567890 # 1, 123456789012345678901234567890);
   (1 # 1000000000000000000000000000000, 1e-30)]%float.

#[local] Set Warnings "inexact-float".

End JsNumber.
Export JsNumber.

(* ================================================================== *)
(** ** Decimal text: [parseFloat], [toFixed(2)], [Number.toString] *)

Module JsText.

Definition digit_of (c : ascii) : option Z :=
  let n := Z.of_N (N_of_ascii c) in
  if (48 <=? n) && (n <=? 57) then Some (n - 48) else None.

Definition ascii_of_digit (d : Z) : ascii :=
  ascii_of_N (Z.to_N (48 + d mod 10)).

(** White space that [parseFloat] strips from the front (ASCII range). *)
Definition is_ws (c : ascii) : bool :=
  let n := Z.of_N (N_of_ascii c) in
  ((9 <=? n) && (n <=? 13)) || (n =? 32).

Fixpoint skip_ws (s : string) : string :=
  match s with
  | String c s' => if is_ws c then skip_ws s' else s
  | EmptyString => s
  end.

(** Longest run of decimal digits at the front of [s]: its value on top of
    [acc], how many digits were read, and the rest of the text. *)
Fixpoint read_digits (s : string) (acc : Z) (cnt : Z) : Z * Z * string :=
  match s with
  | String c s' =>
      match digit_of c with
      | Some d => read_digits s' (10 * acc + d) (cnt + 1)
      | None => (acc, cnt, s)
      end
  | EmptyString => (acc, cnt, s)
  end.

Definition read_sign (s : string) : bool * string :=
  match s with
  | String "-" s' => (true, s')
  | String "+" s' => (false, s')
  | _ => (false, s)
  end.

(** Optional exponent part [e[+-]digits]; 0 when there is none. *)
Definition read_exponent (s : string) : Z :=
  match s with
  | String c s' =>
      if (Ascii.eqb c "e" || Ascii.eqb c "E")%bool then
        let (neg, s'') := read_sign s' in
        let '(e, cnt, _) := read_digits s'' 0 0 in
        if cnt =? 0 then 0 else if neg then - e else e
      else 0
  | EmptyString => 0
  end.

Definition pow10 (e : Z) : Q :=
  if 0 <=? e then inject_Z (10 ^ e) else (/ inject_Z (10 ^ (- e)))%Q.

(** Optional fraction part after [ni] integer digits: its digits as an
    integer, how many there are, and the rest of the text.  A lone point
    after no integer digit is not a fraction. *)
Definition parse_fraction (ni : Z) (s2 : string) : Z * Z * string :=
  match s2 with
  | String "." s2' =>
      let '(fp, nf, s3) := read_digits s2' 0 0 in
      if (ni =? 0) && (nf =? 0) then (0, 0, s2) else (fp, nf, s3)
  | _ => (0, 0, s2)
  end.

(** The value of [ip.fp] with [nf] fraction digits, times ten to the [e]. *)
Definition decimal_value (ip fp nf e : Z) : Q :=
  Qred ((inject_Z ip + inject_Z fp * pow10 (- nf)) * pow10 e)%Q.

(** An unsigned decimal literal at the front of [s1]: the double nearest
    to the value it writes. *)
Definition parse_decimal (s1 : string) : number :=
  let '(ip, ni, s2) := read_digits s1 0 0 in
  let '(fp, nf, s3) := parse_fraction ni s2 in
  if (ni =? 0) && (nf =? 0) then NaN
  else round64 (decimal_value ip fp nf (read_exponent s3)).

(** [parseFloat]: the longest prefix of the trimmed text that is a decimal
    literal; [NaN] when there is none.  The white space recognised is the
    ASCII one. *)
Definition parseFloat (s : string) : number :=
  let (neg, s1) := read_sign (skip_ws s) in
  let v := if String.prefix "Infinity" s1 then PosInf else parse_decimal s1 in
  if neg then nneg v else v.

(** Decimal digits of a non-negative integer, most significant first. *)
Fixpoint digits_fuel (fuel : nat) (n : Z) (acc : string) : string :=
  match fuel with
  | O => acc
  | S fuel' =>
      let acc' := String (ascii_of_digit n) acc in
      if n / 10 =? 0 then acc' else digits_fuel fuel' (n / 10) acc'
  end.

Definition digits (n : Z) : string :=
  digits_fuel (S (Z.to_nat (Z.log2 n))) n "".

(** Text of an integer, as a template literal prints it. *)
Definition string_of_Z (z : Z) : string :=
  if z <? 0 then "-" ++ digits (- z) else digits z.

Fixpoint zeros (n : nat) : string :=
  match n with
  | O => ""
  | S n' => String "0" (zeros n')
  end.

(** [n] with [10^(n - 1) <= q < 10^n], for [q > 0]: counted up from an
    estimate that is never too high. *)
Definition decade (q : Q) : Z :=
  let up g := if Qle_bool (pow10 (g + 1)) q then g + 1 else g in
  up (up (up (binade q * 1233 / 4096 - 1))) + 1.

(** [v] reads as the double [x]. *)
Definition reads_as (v x : Q) : bool :=
  match round64 v with
  | Fin y => Qeq_bool y x
  | _ => false
  end.

(** The integer [s] next to [x / 10^e] for which [s * 10^e] reads as [x]:
    the nearer one when both neighbours do, the even one when they are
    equally near. *)
Definition candidate (x : Q) (e : Z) : option Z :=
  let t := (x / pow10 e)%Q in
  let lo := Qfloor t in
  let hi := lo + 1 in
  match reads_as (inject_Z lo * pow10 e) x, reads_as (inject_Z hi * pow10 e) x with
  | true, true => Some (round_even t)
  | true, false => Some lo
  | false, true => Some hi
  | false, false => None
  end.

(** The shortest digits that read as [x]: [k] digits are tried before
    [k + 1]; seventeen always do. *)
Fixpoint shortest (fuel : nat) (x : Q) (n k : Z) : Z * Z :=
  match fuel with
  | O => (round_even (x / pow10 (n - k)), n - k)
  | S fuel' =>
      match candidate x (n - k) with
      | Some s => (s, n - k)
      | None => shortest fuel' x n (k + 1)
      end
  end.

Fixpoint strip_zeros (fuel : nat) (s e : Z) : Z * Z :=
  match fuel with
  | O => (s, e)
  | S fuel' =>
      if (s mod 10 =? 0) && negb (s =? 0) then strip_zeros fuel' (s / 10) (e + 1)
      else (s, e)
  end.

(** The text of [s * 10^e], where [s > 0] ends in no zero, as
    [Number::toString] lays the digits out: positional from 10^-6 up to
    10^21, with an exponent outside. *)
Definition layout (s e : Z) : string :=
  let ds := digits s in
  let k := Z.of_nat (String.length ds) in
  let n := e + k in
  if (k <=? n) && (n <=? 21) then ds ++ zeros (Z.to_nat (n - k))
  else if (0 <? n) && (n <=? 21)
  then substring 0 (Z.to_nat n) ds ++ "." ++ substring (Z.to_nat n) (Z.to_nat (k - n)) ds
  else if (-6 <? n) && (n <=? 0)
  then "0." ++ zeros (Z.to_nat (- n)) ++ ds
  else
    let ex := n - 1 in
    let mantissa :=
      if k =? 1 then ds
      else substring 0 1 ds ++ "." ++ substring 1 (Z.to_nat (k - 1)) ds in
    mantissa ++ "e" ++ (if ex <? 0 then "-" else "+") ++ digits (Z.abs ex).

(** [Number::toString] of a double [q > 0]. *)
Definition positive_text (q : Q) : string :=
  let '(s, e) := shortest 16 q (decade q) 1 in
  let '(s, e) := strip_zeros 20 s e in
  layout s e.

(** [x.toString()]: the shortest decimal that reads back as [x]. *)
Definition numToString (x : number) : string :=
  match x with
  | NaN => "NaN"
  | PosInf => "Infinity"
  | NegInf => "-Infinity"
  | Fin q =>
      match Qcompare q 0 with
      | Eq => "0"
      | Gt => positive_text q
      | Lt => "-" ++ positive_text (- q)
      end
  end.

(** [x.toFixed(2)]: the integer [n] nearest to [|x| * 100], the larger on a
    tie, printed with the point before its last two digits; from 10^21 on,
    the text of [x.toString()]. *)
Definition toFixed2 (x : number) : string :=
  match x with
  | NaN => "NaN"
  | PosInf => "Infinity"
  | NegInf => "-Infinity"
  | Fin q =>
      let s := if Qltb q 0%Q then "-" else "" in
      if Qle_bool (pow10 21) (Qabs q) then s ++ positive_text (Qabs q) else
      let n := Qfloor (Qabs q * 100 + (1 # 2))%Q in
      let m := digits n in
      let k := String.length m in
      let m := if (k <=? 2)%nat then zeros (3 - k) ++ m else m in
      let k := String.length m in
      s ++ substring 0 (k - 2) m ++ "." ++ substring (k - 2) 2 m
  end.

End JsText.
Export JsText.

(* ================================================================== *)
(** ** [server/utils/hash.ts] *)

Module Hash.

Definition hex_digit (n : N) : ascii :=
  ascii_of_N (if (n <? 10)%N then 48 + n else 87 + n)%N.

(** [buffer.toString('hex')] *)
Fixpoint hex_of_bytes (bs : list byte) : string :=
  match bs with
  | [] => ""
  | b :: bs' =>
      let n := Byte.to_N b in
      String (hex_digit (n / 16)%N) (String (hex_digit (n mod 16)%N) (hex_of_bytes bs'))
  end.

Section WithDigest.

(** [crypto.createHash('sha256').update(data).digest('hex')] of Node's
    [crypto] library, taken as given. *)
Variable sha256_hex : string -> string.

(** [process.env.SERVER_SEED] *)
Variable SERVER_SEED : option string.

(** [generateHash]; [randomBytes] is the draw of [crypto.randomBytes(32)]. *)
Definition generateHash (roundId : Z) (randomBytes : list byte) : string * string :=
  let salt := hex_of_bytes randomBytes in
  let data := (string_of_Z roundId ++ ":" ++ salt)%string in
  let hash := sha256_hex data in
  (hash, salt).

Definition verifyHash (roundId : Z) (salt : string) (expectedHash : string) : bool :=
  let data := (string_of_Z roundId ++ ":" ++ salt)%string in
  let computedHash := sha256_hex data in
  String.eqb computedHash expectedHash.

Definition generateGameSeed (roundId : Z) : string :=
  let serverSeed :=
    match SERVER_SEED with
    | Some (String c s) => String c s
    | _ => "default_server_seed_for_development"
    end in
  let data := (serverSeed ++ ":" ++ string_of_Z roundId)%string in
  sha256_hex data.

End WithDigest.

End Hash.

(* ================================================================== *)
(** ** [server/storage.ts]: the records and [MemStorage] *)

Module Storage.

Record User : Type := mkUser {
  user_id : string;
  username : option string;
  password : option string;
  balance : string;
  avatar : option string;
  user_createdAt : option Z
}.

Record Game : Type := mkGame {
  game_id : string;
  game_roundId : Z;
  game_multiplier : string;
  game_hash : string;
  game_salt : option string;
  startedAt : option Z;
  crashedAt : option Z
}.

Record Bet : Type := mkBet {
  bet_id : string;
  userId : string;
  gameId : string;
  amount : string;
  autoCashOut : option string;
  cashOutAt : option string;
  winAmount : option string;
  isActive : bool;
  placedAt : option Z;
  cashedOutAt : option Z
}.

(** The part of [InsertBet] a caller supplies. *)
Record InsertBet : Type := mkInsertBet {
  ins_amount : string;
  ins_autoCashOut : option string
}.

(** A [Map<string, V>]: keys in insertion order. *)
Definition jsmap (V : Type) : Type := list (string * V).

Fixpoint map_get {V : Type} (k : string) (m : jsmap V) : option V :=
  match m with
  | [] => None
  | (k', v) :: m' => if String.eqb k k' then Some v else map_get k m'
  end.

(** [Map.set]: an existing key keeps its place, a new one goes last. *)
Fixpoint map_set {V : Type} (k : string) (v : V) (m : jsmap V) : jsmap V :=
  match m with
  | [] => [(k, v)]
  | (k', v') :: m' =>
      if String.eqb k k' then (k, v) :: m' else (k', v') :: map_set k v m'
  end.

(** [Array.from(map.values())] *)
Definition map_values {V : Type} (m : jsmap V) : list V := List.map snd m.

Record MemStorage : Type := mkStore {
  users : jsmap User;
  games : jsmap Game;
  bets : jsmap Bet
}.

Definition set_users (us : jsmap User) (st : MemStorage) : MemStorage :=
  mkStore us (games st) (bets st).
Definition set_games (gs : jsmap Game) (st : MemStorage) : MemStorage :=
  mkStore (users st) gs (bets st).
Definition set_bets (bs : jsmap Bet) (st : MemStorage) : MemStorage :=
  mkStore (users st) (games st) bs.

(** The store the constructor builds, holding the demo user. *)
Definition defaultUser (now : Z) : User :=
  mkUser "default-user" (Some "Raj Kumar") (Some "password") "12580.50"
    (Some "https://images.unsplash.com/photo-1507003211169-0a1dd7228f2d?ixlib=rb-4.0.3&ixid=MnwxMjA3fDB8MHxwaG90by1wYWdlfHx8fGVufDB8fHx8&auto=format&fit=crop&w=100&h=100")
    (Some now).

Definition newMemStorage (now : Z) : MemStorage :=
  mkStore (map_set (user_id (defaultUser now)) (defaultUser now) []) [] [].

Definition getUser (id : string) (st : MemStorage) : option User :=
  map_get id (users st).

Definition updateUserBalance (uid : string) (newBalance : string)
    (st : MemStorage) : MemStorage :=
  match map_get uid (users st) with
  | Some user =>
      let user' := mkUser (user_id user) (username user) (password user)
                     newBalance (avatar user) (user_createdAt user) in
      set_users (map_set uid user' (users st)) st
  | None => st
  end.

(** [createGame]; [id] is the draw of [randomUUID()]. *)
Definition createGame (id : string) (now : Z) (roundId : Z) (hash : string)
    (st : MemStorage) : Game * MemStorage :=
  let game := mkGame id roundId "0.00" hash None (Some now) None in
  (game, set_games (map_set id game (games st)) st).

Definition getGameByRoundId (roundId : Z) (st : MemStorage) : option Game :=
  List.find (fun game => game_roundId game =? roundId) (map_values (games st)).

Definition updateGameCrash (gid : string) (multiplier : string) (salt : string)
    (now : Z) (st : MemStorage) : MemStorage :=
  match map_get gid (games st) with
  | Some game =>
      let game' := mkGame (game_id game) (game_roundId game) multiplier
                     (game_hash game) (Some salt) (startedAt game) (Some now) in
      set_games (map_set gid game' (games st)) st
  | None => st
  end.

(** A string in a boolean position: empty is false. *)
Definition truthy (s : option string) : option string :=
  match s with
  | Some (String c s') => Some (String c s')
  | _ => None
  end.

(** [createBet]; [id] is the draw of [randomUUID()]. *)
Definition createBet (id : string) (now : Z) (uid gid : string) (bet : InsertBet)
    (st : MemStorage) : Bet * MemStorage :=
  let newBet := mkBet id uid gid (ins_amount bet) (truthy (ins_autoCashOut bet))
                  None None true (Some now) None in
  (newBet, set_bets (map_set id newBet (bets st)) st).

Definition getBetsByUserId (uid : string) (st : MemStorage) : list Bet :=
  List.filter (fun bet => String.eqb (userId bet) uid) (map_values (bets st)).

Definition updateBetCashOut (bid : string) (cashOut : string) (win : string)
    (now : Z) (st : MemStorage) : MemStorage :=
  match map_get bid (bets st) with
  | Some bet =>
      let bet' := mkBet (bet_id bet) (userId bet) (gameId bet) (amount bet)
                    (autoCashOut bet) (Some cashOut) (Some win) false
                    (placedAt bet) (Some now) in
      set_bets (map_set bid bet' (bets st)) st
  | None => st
  end.

Definition getActiveBetsByGameId (gid : string) (st : MemStorage) : list Bet :=
  List.filter (fun bet => String.eqb (gameId bet) gid && isActive bet)
    (map_values (bets st)).

End Storage.
Export Storage.

(* ================================================================== *)
(** ** [server/crashEngine.ts] *)

Module Engine.

Inductive Phase : Type := waiting | starting | flying | crashed.

Definition Phase_eqb (a b : Phase) : bool :=
  match a, b with
  | waiting, waiting | starting, starting | flying, flying | crashed, crashed => true
  | _, _ => false
  end.

Record GameState : Type := mkGameState {
  roundId : Z;
  phase : Phase;
  multiplier : number;
  startTime : Z;
  duration : Z;
  hash : string;
  salt : option string;
  countdown : Z
}.

(** [Omit<GameState, 'salt'>] *)
Record PublicGameState : Type := mkPublic {
  pub_roundId : Z;
  pub_phase : Phase;
  pub_multiplier : number;
  pub_startTime : Z;
  pub_duration : Z;
  pub_hash : string;
  pub_countdown : Z
}.

Inductive Event : Type :=
| gameStateUpdate (s : PublicGameState)
| betCashedOut (betId uid : string) (mult win : number)
| gameCrashed (rid : Z) (crashPoint : number)
| betPlaced (uid : string) (amt : number) (auto : option number) (rid : Z).

(** The fields of the [CrashEngine] object.  [gameTimer] holds, while the
    flying interval is armed, the [gameEndTime] its callback closed over. *)
Record CrashEngine : Type := mkEngine {
  currentGame : option GameState;
  gameTimer : option number;
  countdownTimer : bool;
  restartTimer : bool;
  roundIdCounter : Z
}.

(** The engine together with the [storage] singleton it calls. *)
Record World : Type := mkWorld {
  storage : MemStorage;
  engine : CrashEngine
}.

Definition WAIT_TIME : Z := 10000.
Definition MIN_GAME_TIME : Z := 1000.
Definition MAX_GAME_TIME : Z := 30000.

(** *** Steps: a state transformer that also lists the events it emits *)

Record Out (A : Type) : Type := mkOut {
  value : A;
  world : World;
  events : list Event
}.
Arguments mkOut {A} _ _ _.
Arguments value {A} _.
Arguments world {A} _.
Arguments events {A} _.

Definition M (A : Type) : Type := World -> Out A.

Definition ret {A : Type} (a : A) : M A := fun w => mkOut a w [].

Definition bind {A B : Type} (m : M A) (f : A -> M B) : M B :=
  fun w =>
    match m w with
    | mkOut a w1 e1 =>
        match f a w1 with
        | mkOut b w2 e2 => mkOut b w2 (e1 ++ e2)
        end
    end.

Declare Scope step_scope.
Delimit Scope step_scope with step.
Notation "x <- m ;; k" := (bind m (fun x => k))
  (at level 61, m at next level, right associativity) : step_scope.
Notation "m ;; k" := (bind m (fun _ => k))
  (at level 61, right associativity) : step_scope.
Local Open Scope step_scope.

(** [this.emit(...)] *)
Definition emit (e : Event) : M unit := fun w => mkOut tt w [e].

(** A call of a [storage] method that only reads. *)
Definition query {A : Type} (f : MemStorage -> A) : M A :=
  fun w => mkOut (f (storage w)) w [].

(** A call of a [storage] method that writes. *)
Definition update (f : MemStorage -> MemStorage) : M unit :=
  fun w => mkOut tt (mkWorld (f (storage w)) (engine w)) [].

Definition call {A : Type} (f : MemStorage -> A * MemStorage) : M A :=
  fun w => mkOut (fst (f (storage w))) (mkWorld (snd (f (storage w))) (engine w)) [].

Definition this : M CrashEngine := fun w => mkOut (engine w) w [].

Definition set_this (f : CrashEngine -> CrashEngine) : M unit :=
  fun w => mkOut tt (mkWorld (storage w) (f (engine w))) [].

Definition with_game (g : option GameState) (e : CrashEngine) : CrashEngine :=
  mkEngine g (gameTimer e) (countdownTimer e) (restartTimer e) (roundIdCounter e).
Definition with_gameTimer (t : option number) (e : CrashEngine) : CrashEngine :=
  mkEngine (currentGame e) t (countdownTimer e) (restartTimer e) (roundIdCounter e).
Definition with_countdownTimer (t : bool) (e : CrashEngine) : CrashEngine :=
  mkEngine (currentGame e) (gameTimer e) t (restartTimer e) (roundIdCounter e).
Definition with_restartTimer (t : bool) (e : CrashEngine) : CrashEngine :=
  mkEngine (currentGame e) (gameTimer e) (countdownTimer e) t (roundIdCounter e).
Definition with_counter (c : Z) (e : CrashEngine) : CrashEngine :=
  mkEngine (currentGame e) (gameTimer e) (countdownTimer e) (restartTimer e) c.

Definition set_phase (p : Phase) (g : GameState) : GameState :=
  mkGameState (roundId g) p (multiplier g) (startTime g) (duration g)
    (hash g) (salt g) (countdown g).
Definition set_multiplier (m : number) (g : GameState) : GameState :=
  mkGameState (roundId g) (phase g) m (startTime g) (duration g)
    (hash g) (salt g) (countdown g).
Definition set_startTime (t : Z) (g : GameState) : GameState :=
  mkGameState (roundId g) (phase g) (multiplier g) t (duration g)
    (hash g) (salt g) (countdown g).
Definition set_countdown (c : Z) (g : GameState) : GameState :=
  mkGameState (roundId g) (phase g) (multiplier g) (startTime g) (duration g)
    (hash g) (salt g) c.
Definition set_salt (s : option string) (g : GameState) : GameState :=
  mkGameState (roundId g) (phase g) (multiplier g) (startTime g) (duration g)
    (hash g) s (countdown g).

(** [getPublicGameState], on the value of [this.currentGame]. *)
Definition publicOf (cg : option GameState) : PublicGameState :=
  match cg with
  | None => mkPublic 0 waiting (num 1) 0 0 "" 10
  | Some g =>
      mkPublic (roundId g) (phase g) (multiplier g) (startTime g) (duration g)
        (hash g) (countdown g)
  end.

Definition getPublicGameState : M PublicGameState :=
  e <- this ;; ret (publicOf (currentGame e)).

(** [generateCrashPoint]; the draw of [Math.random()] is the double
    nearest to [r]. *)
Definition generateCrashPoint (r : Q) : number :=
  Math_max (num 1)
    (ndiv (Math_floor (nmul (ndiv (num 99) (nmul (round64 r) (num 100))) (num 100)))
          (num 100)).

(** The multiplier a flying tick computes after [elapsed] milliseconds;
    [0.1] is the double nearest to one tenth. *)
Definition tickMultiplier (elapsed : number) : number :=
  let newMultiplier :=
    nadd (num 1) (nmul (ndiv elapsed (num 1000)) (round64 (1 # 10))) in
  ndiv (Math_round (nmul newMultiplier (num 100))) (num 100).

(** [cashOutBet], run to its end; [now] is the [new Date()] the store
    reads when it writes the bet. *)
Definition cashOutBet (betId uid : string) (mult : string) (now : Z) : M unit :=
  bet <- query (getBetsByUserId uid) ;;
  match List.find (fun b => String.eqb (bet_id b) betId && isActive b) bet with
  | Some targetBet =>
      let win := toFixed2 (nmul (parseFloat (amount targetBet)) (parseFloat mult)) in
      update (updateBetCashOut betId mult win now) ;;
      user <- query (getUser uid) ;;
      match user with
      | Some u =>
          let newBalance := toFixed2 (nadd (parseFloat (balance u)) (parseFloat win)) in
          update (updateUserBalance uid newBalance)
      | None => ret tt
      end ;;
      emit (betCashedOut betId uid (parseFloat mult) (parseFloat win))
  | None => ret tt
  end.

(** *** Async methods the tick does not await

    The flying tick calls [processAutoCashOuts] and [crashGame] without
    awaiting them.  Each runs at once up to its first [await]; what is left
    of it is resumed from the microtask queue, one stretch between two
    awaits at a time, so a pass and a crash started by one tick take turns.
    A suspended method is a value that says at which [await] it stands and
    what it holds there.  An object it holds (a bet, a user) is held by
    reference, that is by the key the object is stored under. *)

(** The references [getBetsByUserId] returns. *)
Definition betRefs (uid : string) (st : MemStorage) : list string :=
  List.map fst (List.filter (fun kb => String.eqb (userId (snd kb)) uid) (bets st)).

(** The objects behind a list of references, as they are now. *)
Definition derefBets (refs : list string) (st : MemStorage) : list Bet :=
  List.flat_map
    (fun k => match map_get k (bets st) with Some b => [b] | None => [] end) refs.

(** [processAutoCashOuts], suspended; the [co_] states are inside the
    [cashOutBet] it awaits. *)
Inductive AutoCashOuts : Type :=
| aco_done
| aco_game (gameFromDb : option Game)
    (* at [await storage.getGameByRoundId] *)
| aco_bets (rest : list Bet)
    (* at [await storage.getActiveBetsByGameId], or at [await this.cashOutBet]
       once that has returned: the loop goes on with [rest] *)
| co_bets (bid uid mult : string) (refs : list string) (rest : list Bet)
    (* at [await storage.getBetsByUserId] *)
| co_settled (bid uid mult win : string) (rest : list Bet)
    (* at [await storage.updateBetCashOut] *)
| co_user (bid uid mult win : string) (user : bool) (rest : list Bet)
    (* at [await storage.getUser]; [user] tells whether one was found *)
| co_credited (bid uid mult win : string) (rest : list Bet).
    (* at [await storage.updateUserBalance] *)

(** [processAutoCashOuts()]: the call, up to the first [await]. *)
Definition processAutoCashOuts : M AutoCashOuts :=
  e <- this ;;
  match currentGame e with
  | None => ret aco_done
  | Some g =>
      gameFromDb <- query (getGameByRoundId (roundId g)) ;;
      ret (aco_game gameFromDb)
  end.

(** The [for] loop, from the bets it has left to its next [await]. *)
Fixpoint autoCashOutLoop (l : list Bet) : M AutoCashOuts :=
  match l with
  | [] => ret aco_done
  | bet :: rest =>
      e <- this ;;
      match currentGame e, truthy (autoCashOut bet) with
      | Some g, Some auto =>
          if nle (parseFloat auto) (multiplier g)
          then
            refs <- query (betRefs (userId bet)) ;;
            ret (co_bets (bet_id bet) (userId bet) (numToString (multiplier g)) refs rest)
          else autoCashOutLoop rest
      | _, _ => autoCashOutLoop rest
      end
  end.

(** One stretch of [processAutoCashOuts], from the [await] it stands at to
    the next one; [now] is the [new Date()] a write of the stretch reads. *)
Definition resumeAutoCashOuts (now : Z) (p : AutoCashOuts) : M AutoCashOuts :=
  match p with
  | aco_done => ret aco_done
  | aco_game None => ret aco_done
  | aco_game (Some gdb) =>
      activeBets <- query (getActiveBetsByGameId (game_id gdb)) ;;
      ret (aco_bets activeBets)
  | aco_bets rest => autoCashOutLoop rest
  | co_bets bid uid mult refs rest =>
      bet <- query (derefBets refs) ;;
      match List.find (fun b => String.eqb (bet_id b) bid && isActive b) bet with
      | Some targetBet =>
          let win := toFixed2 (nmul (parseFloat (amount targetBet)) (parseFloat mult)) in
          update (updateBetCashOut bid mult win now) ;;
          ret (co_settled bid uid mult win rest)
      | None => ret (aco_bets rest)
      end
  | co_settled bid uid mult win rest =>
      user <- query (getUser uid) ;;
      ret (co_user bid uid mult win (match user with Some _ => true | None => false end) rest)
  | co_user bid uid mult win true rest =>
      user <- query (getUser uid) ;;
      match user with
      | Some u =>
          let newBalance := toFixed2 (nadd (parseFloat (balance u)) (parseFloat win)) in
          update (updateUserBalance uid newBalance)
      | None => ret tt
      end ;;
      ret (co_credited bid uid mult win rest)
  | co_user bid uid mult win false rest
  | co_credited bid uid mult win rest =>
      emit (betCashedOut bid uid (parseFloat mult) (parseFloat win)) ;;
      ret (aco_bets rest)
  end.

(** [crashGame], suspended; [cm] is its [crashMultiplier]. *)
Inductive Crash : Type :=
| crash_done
| crash_game (cm : number) (gameFromDb : option Game)
    (* at [await storage.getGameByRoundId] *)
| crash_recorded (cm : number) (gdb : Game)
    (* at [await storage.updateGameCrash] *)
| crash_sweep (cm : number) (rest : list Bet).
    (* at [await storage.getActiveBetsByGameId], or at
       [await storage.updateBetCashOut]: the loop goes on with [rest] *)

(** [crashGame()]: the call, up to the first [await]. *)
Definition crashGame : M Crash :=
  e <- this ;;
  match currentGame e with
  | None => ret crash_done
  | Some g =>
      if negb (Phase_eqb (phase g) flying) then ret crash_done else
      set_this (with_gameTimer None) ;;
      let crashMultiplier := multiplier g in
      set_this (with_game (Some (set_phase crashed g))) ;;
      gameFromDb <- query (getGameByRoundId (roundId g)) ;;
      ret (crash_game crashMultiplier gameFromDb)
  end.

(** The end of [crashGame], after the sweep. *)
Definition crashEnd (cm : number) : M Crash :=
  e <- this ;;
  match currentGame e with
  | Some g => emit (gameCrashed (roundId g) cm)
  | None => ret tt
  end ;;
  s <- getPublicGameState ;;
  emit (gameStateUpdate s) ;;
  set_this (with_restartTimer true) ;;
  ret crash_done.

(** [crashGame] from [if (gameFromDb)] to its next [await]. *)
Definition crashSweep (cm : number) (gameFromDb : option Game) : M Crash :=
  match gameFromDb with
  | Some gdb =>
      activeBets <- query (getActiveBetsByGameId (game_id gdb)) ;;
      ret (crash_sweep cm activeBets)
  | None => crashEnd cm
  end.

(** One stretch of [crashGame]; [now] is the [new Date()] a write of the
    stretch reads. *)
Definition resumeCrash (now : Z) (c : Crash) : M Crash :=
  match c with
  | crash_done => ret crash_done
  | crash_game cm gameFromDb =>
      e <- this ;;
      match gameFromDb,
            match currentGame e with Some g => truthy (salt g) | None => None end with
      | Some gdb, Some s =>
          update (updateGameCrash (game_id gdb) (numToString cm) s now) ;;
          ret (crash_recorded cm gdb)
      | _, _ => crashSweep cm gameFromDb
      end
  | crash_recorded cm gdb => crashSweep cm (Some gdb)
  | crash_sweep cm [] => crashEnd cm
  | crash_sweep cm (bet :: rest) =>
      update (updateBetCashOut (bet_id bet) "0.00" "0.00" now) ;;
      ret (crash_sweep cm rest)
  end.

(** The microtask queue after a tick: the pass was called first, so it is
    resumed first, and the two take turns until both are done.  A write to
    the store reads [new Date()] when it happens: [clock k] is the reading
    in the [k]-th stretch the queue runs. *)
Fixpoint drain (fuel : nat) (clock : nat -> Z) (k : nat) (passNext : bool)
    (p : AutoCashOuts) (c : Crash) : M unit :=
  match fuel with
  | O => ret tt
  | S fuel' =>
      match p, c with
      | aco_done, crash_done => ret tt
      | aco_done, _ =>
          c' <- resumeCrash (clock k) c ;; drain fuel' clock (S k) passNext aco_done c'
      | _, crash_done =>
          p' <- resumeAutoCashOuts (clock k) p ;;
          drain fuel' clock (S k) passNext p' crash_done
      | _, _ =>
          if passNext
          then p' <- resumeAutoCashOuts (clock k) p ;; drain fuel' clock (S k) false p' c
          else c' <- resumeCrash (clock k) c ;; drain fuel' clock (S k) true p c'
      end
  end.

(** Stretches the two methods can take on a store: enough to drain. *)
Definition drainFuel (st : MemStorage) : nat := 8 + 6 * List.length (bets st).

(** [startFlying]; [now] is [Date.now()], [r] the draw of [Math.random()]. *)
Definition startFlying (now : Z) (r : Q) : M unit :=
  e <- this ;;
  match currentGame e with
  | None => ret tt
  | Some g =>
      set_this (with_countdownTimer false) ;;
      let g1 := set_multiplier (num 1) (set_startTime now (set_phase flying g)) in
      set_this (with_game (Some g1)) ;;
      let crashPoint := generateCrashPoint r in
      let gameEndTime := nadd (num (startTime g1)) (nmul crashPoint (num 1000)) in
      s <- getPublicGameState ;;
      emit (gameStateUpdate s) ;;
      set_this (with_gameTimer (Some gameEndTime))
  end.

(** The callback of the flying interval, fired with the interval armed,
    and the microtasks it leaves behind; [now] and [now'] are its two
    readings of [Date.now()], [clock] gives the readings of the writes that
    follow. *)
Definition flyingTick (now now' : Z) (clock : nat -> Z) : M unit :=
  e <- this ;;
  match gameTimer e, currentGame e with
  | Some gameEndTime, Some g =>
      if negb (Phase_eqb (phase g) flying) then ret tt else
      let elapsed := nsub (num now) (num (startTime g)) in
      set_this (with_game (Some (set_multiplier (tickMultiplier elapsed) g))) ;;
      p <- processAutoCashOuts ;;
      s <- getPublicGameState ;;
      emit (gameStateUpdate s) ;;
      c <- (if nge (num now') gameEndTime then crashGame else ret crash_done) ;;
      fuel <- query drainFuel ;;
      drain fuel clock 0 true p c
  | _, _ => ret tt
  end.

(** The callback of the countdown interval. *)
Definition countdownTick (now : Z) (r : Q) : M unit :=
  e <- this ;;
  if negb (countdownTimer e) then ret tt else
  match currentGame e with
  | None => ret tt
  | Some g =>
      let g1 := set_countdown (countdown g - 1) g in
      set_this (with_game (Some g1)) ;;
      if countdown g1 <=? 0 then startFlying now r
      else s <- getPublicGameState ;; emit (gameStateUpdate s)
  end.

Section WithDigest.

Variable sha256_hex : string -> string.

(** [startNewRound]; [randomBytes] and [uuid] are the draws of
    [crypto.randomBytes(32)] and [randomUUID()]. *)
Definition startNewRound (randomBytes : list byte) (uuid : string) (now : Z) : M unit :=
  e <- this ;;
  let rid := roundIdCounter e + 1 in
  set_this (with_counter rid) ;;
  let hs := Hash.generateHash sha256_hex rid randomBytes in
  set_this (with_game (Some
    (mkGameState rid waiting (num 1) 0 0 (fst hs) (Some (snd hs)) (WAIT_TIME / 1000)))) ;;
  _ <- call (createGame uuid now rid (fst hs)) ;;
  s <- getPublicGameState ;;
  emit (gameStateUpdate s) ;;
  set_this (with_countdownTimer true).

(** [new CrashEngine()] next to a fresh [MemStorage]. *)
Definition newWorld (randomBytes : list byte) (uuid : string) (now : Z) : Out unit :=
  startNewRound randomBytes uuid now
    (mkWorld (newMemStorage now) (mkEngine None None false false 127534)).

End WithDigest.

Record BetResult : Type := mkBetResult {
  success : bool;
  message : string;
  betId : option string
}.

(** [placeBet]; [uuid] is the draw of [randomUUID()] for the new bet, [now]
    the [new Date()] it is stamped with. *)
Definition placeBet (uid : string) (amt : string) (auto : option string)
    (uuid : string) (now : Z) : M BetResult :=
  e <- this ;;
  match currentGame e with
  | None => ret (mkBetResult false "Betting is not available right now" None)
  | Some g =>
      if negb (Phase_eqb (phase g) waiting)
      then ret (mkBetResult false "Betting is not available right now" None) else
      user <- query (getUser uid) ;;
      match user with
      | None => ret (mkBetResult false "User not found" None)
      | Some u =>
          let betAmount := parseFloat amt in
          let userBalance := parseFloat (balance u) in
          if nle betAmount (num 0)
          then ret (mkBetResult false "Bet amount must be greater than 0" None) else
          if ngt betAmount userBalance
          then ret (mkBetResult false "Insufficient balance" None) else
          gameFromDb <- query (getGameByRoundId (roundId g)) ;;
          match gameFromDb with
          | None => ret (mkBetResult false "Game not found" None)
          | Some gdb =>
              existingBets <- query (getBetsByUserId uid) ;;
              let hasActiveBet :=
                List.existsb (fun bet => String.eqb (gameId bet) (game_id gdb) && isActive bet)
                  existingBets in
              if hasActiveBet
              then ret (mkBetResult false "You already have a bet placed for this round" None)
              else
                let newBalance := toFixed2 (nsub userBalance betAmount) in
                update (updateUserBalance uid newBalance) ;;
                bet <- call (createBet uuid now uid (game_id gdb) (mkInsertBet amt auto)) ;;
                emit (betPlaced uid betAmount
                        (match truthy auto with
                         | Some a => Some (parseFloat a)
                         | None => None
                         end)
                        (roundId g)) ;;
                ret (mkBetResult true "Bet placed successfully" (Some (bet_id bet)))
          end
      end
  end.

Record CashOutResult : Type := mkCashOutResult {
  co_success : bool;
  co_message : string;
  co_winAmount : option number
}.

(** [manualCashOut]; [now] is the [new Date()] of the store's write. *)
Definition manualCashOut (uid : string) (now : Z) : M CashOutResult :=
  e <- this ;;
  match currentGame e with
  | None => ret (mkCashOutResult false "Cannot cash out right now" None)
  | Some g =>
      if negb (Phase_eqb (phase g) flying)
      then ret (mkCashOutResult false "Cannot cash out right now" None) else
      gameFromDb <- query (getGameByRoundId (roundId g)) ;;
      match gameFromDb with
      | None => ret (mkCashOutResult false "Game not found" None)
      | Some gdb =>
          activeBets <- query (getActiveBetsByGameId (game_id gdb)) ;;
          match List.find (fun bet => String.eqb (userId bet) uid) activeBets with
          | None => ret (mkCashOutResult false "No active bet found" None)
          | Some userBet =>
              let mult := numToString (multiplier g) in
              let win :=
                parseFloat (toFixed2 (nmul (parseFloat (amount userBet)) (multiplier g))) in
              cashOutBet (bet_id userBet) uid mult now ;;
              ret (mkCashOutResult true "Cashed out successfully" (Some win))
          end
      end
  end.

End Engine.
Export Engine.

(* ================================================================== *)
(** ** Vocabulary of the properties *)

(** The shape every reachable bet table has: one entry per key, stored
    under the bet's own id. *)
Definition bets_ok (m : jsmap Bet) : Prop :=
  NoDup (List.map fst m) /\ forall k b, In (k, b) m -> bet_id b = k.

(** The record [updateBetCashOut] leaves in place of [b]. *)
Definition settled (b : Bet) (cashOut win : string) (now : Z) : Bet :=
  mkBet (bet_id b) (userId b) (gameId b) (amount b) (autoCashOut b)
    (Some cashOut) (Some win) false (placedAt b) (Some now).

(** The payout [cashOutBet] computes for a bet at a multiplier text. *)
Definition payout (b : Bet) (mult : string) : string :=
  toFixed2 (nmul (parseFloat (amount b)) (parseFloat mult)).

(** The test [processAutoCashOuts] applies to a bet at live multiplier [m]. *)
Definition reached (m : number) (b : Bet) : bool :=
  match truthy (autoCashOut b) with
  | Some a => nle (parseFloat a) m
  | None => false
  end.



(** What a flight keeps true: the round's multiplier is the curve's value at
    some clock reading no later than [t]. *)
Definition on_curve (t : Z) (w : World) : Prop :=
  exists g t',
    currentGame (engine w) = Some g
    /\ t' <= t
    /\ multiplier g = tickMultiplier (nsub (num t') (num (startTime g))).

(** The ten digit characters. *)
Definition digit_chars : list ascii :=
  ["0"; "1"; "2"; "3"; "4"; "5"; "6"; "7"; "8"; "9"]%char.

(** The multiplier of the current round, as the public snapshot shows it. *)
Definition liveMultiplier (w : World) : number :=
  pub_multiplier (value (getPublicGameState w)).

(** What can happen while a round flies: the interval fires, or a player
    acts. *)
Inductive FlightStep : Type :=
| Tick (now now' : Z) (clock : nat -> Z)
| PlayerBet (uid amt : string) (auto : option string) (uuid : string) (now : Z)
| PlayerCashOut (uid : string) (now : Z).

Definition flightStep (s : FlightStep) (w : World) : World :=
  match s with
  | Tick now now' clock => world (flyingTick now now' clock w)
  | PlayerBet uid amt auto uuid now => world (placeBet uid amt auto uuid now w)
  | PlayerCashOut uid now => world (manualCashOut uid now w)
  end.

(** The multipliers observed after each step of a flight. *)
Fixpoint flight (steps : list FlightStep) (w : World) : list number :=
  match steps with
  | [] => []
  | s :: rest => liveMultiplier (flightStep s w) :: flight rest (flightStep s w)
  end.

(** The readings [Date.now()] returns to successive ticks never go back;
    [t] is the latest reading so far. *)
Fixpoint clock_ok (t : Z) (steps : list FlightStep) : Prop :=
  match steps with
  | [] => True
  | Tick now _ _ :: rest => t <= now /\ clock_ok now rest
  | _ :: rest => clock_ok t rest
  end.

Fixpoint nondecreasing (l : list number) : Prop :=
  match l with
  | a :: (b :: _) as rest => nle a b = true /\ nondecreasing rest
  | _ => True
  end.

(** The rejection causes of [placeBet], each as a test on the state. *)
Definition phase_not_waiting (w : World) : bool :=
  match currentGame (engine w) with
  | Some g => negb (Phase_eqb (phase g) waiting)
  | None => true
  end.

Definition amount_not_positive (amt : string) : bool :=
  nle (parseFloat amt) (num 0).

Definition exceeds_balance (w : World) (uid amt : string) : bool :=
  match getUser uid (storage w) with
  | Some u => ngt (parseFloat amt) (parseFloat (balance u))
  | None => false
  end.

Definition currentGameRecord (w : World) : option Game :=
  match currentGame (engine w) with
  | Some g => getGameByRoundId (roundId g) (storage w)
  | None => None
  end.

Definition holds_active_bet (w : World) (uid : string) : bool :=
  match currentGameRecord w with
  | Some gdb =>
      List.existsb (fun bet => String.eqb (gameId bet) (game_id gdb) && isActive bet)
        (getBetsByUserId uid (storage w))
  | None => false
  end.

(** Everything that can happen to the engine: a step of a flight, the
    countdown interval firing, the restart timeout firing. *)
Inductive Action : Type :=
| InFlight (s : FlightStep)
| CountdownTick (now : Z) (r : Q)
| NewRound (randomBytes : list byte) (uuid : string) (now : Z).

Definition act (sha256_hex : string -> string) (a : Action) (w : World) : World :=
  match a with
  | InFlight s => flightStep s w
  | CountdownTick now r => world (countdownTick now r w)
  | NewRound randomBytes uuid now => world (startNewRound sha256_hex randomBytes uuid now w)
  end.

(** The states the server can be in: the one the constructor builds, and
    whatever actions lead to from there. *)
Inductive reachable (sha256_hex : string -> string) : World -> Prop :=
| reach_new (randomBytes : list byte) (uuid : string) (now : Z) :
    reachable sha256_hex (world (newWorld sha256_hex randomBytes uuid now))
| reach_act (w : World) (a : Action) :
    reachable sha256_hex w -> reachable sha256_hex (act sha256_hex a w).

(** *** Suspended methods

    What is said of a pass and a crash that take turns. *)

(** A pending sweep that leaves key [k] alone. *)
Definition crash_avoids (k : string) (c : Crash) : Prop :=
  match c with
  | crash_sweep _ rest => ~ In k (List.map bet_id rest)
  | _ => True
  end.

(** Stretches a pass that has its list can still take. *)
Definition passLeft (p : AutoCashOuts) : nat :=
  match p with
  | aco_done => 0
  | aco_game _ => 1
  | aco_bets rest => 1 + 5 * List.length rest
  | co_bets _ _ _ _ rest => 5 + 5 * List.length rest
  | co_settled _ _ _ _ rest => 4 + 5 * List.length rest
  | co_user _ _ _ _ _ rest => 3 + 5 * List.length rest
  | co_credited _ _ _ _ rest => 2 + 5 * List.length rest
  end%nat.

(** Stretches a crash that has its list can still take. *)
Definition crashLeft (c : Crash) : nat :=
  match c with
  | crash_done => 0
  | crash_game _ _ => 1
  | crash_recorded _ _ => 1
  | crash_sweep _ rest => 1 + List.length rest
  end%nat.


(** A pass that has its list of bets. *)
Definition pass_listed (p : AutoCashOuts) : Prop :=
  match p with
  | aco_game _ => False
  | _ => True
  end.

(** A crash that has its list of bets. *)
Definition crash_listed (c : Crash) : Prop :=
  match c with
  | crash_game _ _ | crash_recorded _ _ => False
  | _ => True
  end.

(** Bet [x] is still to be swept. *)
Definition crash_pending (x : Bet) (c : Crash) : Prop :=
  match c with
  | crash_sweep _ rest => In x rest
  | _ => False
  end.

(** The record the sweep writes over bet [x]. *)
Definition swept (x : Bet) (now : Z) : Bet := settled x "0.00" "0.00" now.

(** The same counts for a method that has yet to list the bets of store
    [st]. *)
Definition passLeftAt (st : MemStorage) (p : AutoCashOuts) : nat :=
  match p with
  | aco_game _ => 2 + 5 * List.length (bets st)
  | _ => passLeft p
  end%nat.

Definition crashLeftAt (st : MemStorage) (c : Crash) : nat :=
  match c with
  | crash_game _ _ => 3 + List.length (bets st)
  | crash_recorded _ _ => 2 + List.length (bets st)
  | _ => crashLeft c
  end%nat.

(** *** Worked states *)

Definition demoUser : User :=
  mkUser "default-user" (Some "Raj Kumar") (Some "password") "12480.50" None (Some 1000).

Definition demoGame : Game :=
  mkGame "game-1" 127535 "0.00" "c0ffee" None (Some 1000) None.

Definition demoBet : Bet :=
  mkBet "bet-1" "default-user" "game-1" "100" (Some "2.00") None None true (Some 1500) None.

Definition demoStore (b : Bet) : MemStorage :=
  mkStore [("default-user", demoUser)] [("game-1", demoGame)] [(bet_id b, b)].

Definition demoRound (p : Phase) (m : number) (start : Z) : GameState :=
  mkGameState 127535 p m start 0 "c0ffee" (Some "5a17") 0.

(** Betting is open; nobody has bet yet. *)
Definition waitingWorld : World :=
  mkWorld (mkStore [("default-user", demoUser)] [("game-1", demoGame)] [])
    (mkEngine (Some (mkGameState 127535 waiting (num 1) 0 0 "c0ffee" (Some "5a17") 10))
       None true false 127535).

(** The round took off at clock reading 20000 with the demo bet in place;
    [endTime] is the [gameEndTime] the interval closed over. *)
Definition flyingWorld (endTime : number) : World :=
  mkWorld (demoStore demoBet)
    (mkEngine (Some (demoRound flying (num 1) 20000)) (Some endTime) false false 127535).




(** The same round after the demo bet was cashed out at 1.5. *)
Definition settledWorld : World :=
  mkWorld (demoStore (settled demoBet "1.5" "150.00" 25000))
    (mkEngine (Some (demoRound flying (Fin (3 # 2)) 20000)) (Some (num 60000)) false false 127535).


(* ================================================================== *)
(** ** [server/storage.ts]: the reading side

    [getGame], [getBetsByGameId], [getRecentGames], [getUserStats] and
    [getTopWinners], with the two array methods they lean on. *)

Module Reports.

(** [Array.prototype.sort(comparefn)].  The sort is stable, and [a] goes
    before [b] when [comparefn(a, b)] is negative; a [NaN] counts as zero.
    For a comparator that orders its arguments consistently this fixes the
    result, which is what insertion from the right computes. *)
Section Sort.

Context {A : Type}.
Variable comparefn : A -> A -> number.

Definition sortsBefore (a b : A) : bool := nlt (comparefn a b) (num 0).

Fixpoint insertSorted (x : A) (l : list A) : list A :=
  match l with
  | [] => [x]
  | y :: l' => if sortsBefore y x then y :: insertSorted x l' else x :: y :: l'
  end.

Fixpoint sort (l : list A) : list A :=
  match l with
  | [] => []
  | x :: l' => insertSorted x (sort l')
  end.

End Sort.

(** [ToIntegerOrInfinity] on a finite value: the fraction is dropped. *)
Definition truncate (q : Q) : Z :=
  if Qltb q 0%Q then - Qfloor (- q)%Q else Qfloor q.

(** The index [slice(0, limit)] stops at, on an array of [len] elements. *)
Definition sliceEnd (len : Z) (limit : number) : Z :=
  match limit with
  | NaN => 0
  | PosInf => len
  | NegInf => 0
  | Fin q =>
      let relativeEnd := truncate q in
      if relativeEnd <? 0 then Z.max (len + relativeEnd) 0 else Z.min relativeEnd len
  end.

(** [array.slice(0, limit)] *)
Definition slice0 {A : Type} (limit : number) (l : list A) : list A :=
  List.firstn (Z.to_nat (sliceEnd (Z.of_nat (List.length l)) limit)) l.

Definition getGame (id : string) (st : MemStorage) : option Game :=
  map_get id (games st).

Definition getBetsByGameId (gid : string) (st : MemStorage) : list Bet :=
  List.filter (fun bet => String.eqb (gameId bet) gid) (map_values (bets st)).

(** [game.crashedAt?.getTime() || 0] *)
Definition crashTime (game : Game) : Z :=
  match crashedAt game with
  | Some t => t
  | None => 0
  end.

Definition hasCrashed (game : Game) : bool :=
  match crashedAt game with
  | Some _ => true
  | None => false
  end.

Definition getRecentGames (limit : number) (st : MemStorage) : list Game :=
  slice0 limit
    (sort (fun a b => nsub (num (crashTime b)) (num (crashTime a)))
       (List.filter hasCrashed (map_values (games st)))).

Record UserStats : Type := mkUserStats {
  totalWins : nat;
  totalLosses : nat;
  biggestWin : string;
  winRate : number
}.

(** [bet.winAmount && parseFloat(bet.winAmount) > 0] *)
Definition isWin (bet : Bet) : bool :=
  match truthy (winAmount bet) with
  | Some w => ngt (parseFloat w) (num 0)
  | None => false
  end.

(** [!bet.winAmount || parseFloat(bet.winAmount) === 0] *)
Definition isLoss (bet : Bet) : bool :=
  match truthy (winAmount bet) with
  | Some w => neqb (parseFloat w) (num 0)
  | None => true
  end.

(** The reducer of [biggestWin]. *)
Definition largerCashOut (max : string) (bet : Bet) : string :=
  match truthy (cashOutAt bet) with
  | Some c =>
      let multiplier := parseFloat c in
      if ngt multiplier (parseFloat max) then c else max
  | None => max
  end.

Definition getUserStats (uid : string) (st : MemStorage) : UserStats :=
  let userBets :=
    List.filter (fun bet => String.eqb (userId bet) uid && negb (isActive bet))
      (map_values (bets st)) in
  let totalWins := List.length (List.filter isWin userBets) in
  let totalLosses := List.length (List.filter isLoss userBets) in
  let biggestWin := List.fold_left largerCashOut userBets "0.00" in
  let winRate :=
    if (0 <? totalWins + totalLosses)%nat
    then Math_round
           (nmul (ndiv (num (Z.of_nat totalWins)) (num (Z.of_nat (totalWins + totalLosses))))
                 (num 100))
    else num 0 in
  mkUserStats totalWins totalLosses biggestWin winRate.

(** A value of the [userWinnings] map. *)
Record Winnings : Type := mkWinnings {
  wins_count : nat;
  wins_total : number
}.

(** [parseFloat(bet.winAmount!)] *)
Definition wonAmount (bet : Bet) : number :=
  match winAmount bet with
  | Some w => parseFloat w
  | None => NaN
  end.

(** [current.totalWins += 1; current.totalWinnings += ...] *)
Definition tallyStep (current : Winnings) (bet : Bet) : Winnings :=
  mkWinnings (wins_count current + 1) (nadd (wins_total current) (wonAmount bet)).

(** The body of the [forEach] that fills [userWinnings]. *)
Definition tally (userWinnings : jsmap Winnings) (bet : Bet) : jsmap Winnings :=
  let current :=
    match map_get (userId bet) userWinnings with
    | Some c => c
    | None => mkWinnings 0 (num 0)
    end in
  map_set (userId bet) (tallyStep current bet) userWinnings.

(** An entry of the leaderboard, before and after the filter on [user]. *)
Record TopWinner : Type := mkTopWinner {
  top_user : option User;
  top_totalWins : nat;
  top_totalWinnings : string
}.

Definition hasUser (entry : TopWinner) : bool :=
  match top_user entry with
  | Some _ => true
  | None => false
  end.

Definition getTopWinners (limit : number) (st : MemStorage) : list TopWinner :=
  let userWinnings :=
    List.fold_left tally (List.filter isWin (map_values (bets st))) [] in
  slice0 limit
    (sort (fun a b =>
             nsub (parseFloat (top_totalWinnings b)) (parseFloat (top_totalWinnings a)))
       (List.filter hasUser
          (List.map (fun kv =>
                       mkTopWinner (map_get (fst kv) (users st))
                         (wins_count (snd kv)) (toFixed2 (wins_total (snd kv))))
             userWinnings))).

End Reports.
Export Reports.
(* ================================================================== *)
(** ** [server/storage.ts]: the chat

    The chat messages live in a [Map] of their own, which no other method
    of the store reads or writes. *)

Module Chat.

Record ChatMessage : Type := mkChatMessage {
  chat_id : string;
  chat_userId : string;
  chat_message : string;
  chat_createdAt : option Z
}.

Record InsertChatMessage : Type := mkInsertChatMessage {
  ins_message : string
}.

(** [createChatMessage]; [id] is the draw of [randomUUID()], [now] the
    reading of [new Date()]. *)
Definition createChatMessage (id : string) (now : Z) (uid : string)
    (message : InsertChatMessage) (chatMessages : jsmap ChatMessage)
    : ChatMessage * jsmap ChatMessage :=
  let chatMessage := mkChatMessage id uid (ins_message message) (Some now) in
  (chatMessage, map_set id chatMessage chatMessages).

(** [createdAt?.getTime() || 0] *)
Definition chatTime (msg : ChatMessage) : Z :=
  match chat_createdAt msg with
  | Some t => t
  | None => 0
  end.

Definition getRecentChatMessages (limit : number) (chatMessages : jsmap ChatMessage)
    : list ChatMessage :=
  slice0 limit
    (sort (fun a b => nsub (num (chatTime b)) (num (chatTime a)))
       (map_values chatMessages)).

(** A chat of two messages. *)
Definition demoChat : jsmap ChatMessage :=
  [("m1", mkChatMessage "m1" "default-user" "hello" (Some 1000));
   ("m2", mkChatMessage "m2" "default-user" "good luck" (Some 4000))].

End Chat.
Export Chat.


(* ================================================================== *)
(** ** Vocabulary of the further properties *)

(** The winning bets of a player, in the order of the bet table. *)
Definition winningBetsOf (uid : string) (st : MemStorage) : list Bet :=
  List.filter (fun bet => String.eqb (userId bet) uid)
    (List.filter isWin (map_values (bets st))).

(** The sum [getTopWinners] accumulates over a list of bets. *)
Definition totalWon (l : list Bet) : number :=
  List.fold_left (fun acc bet => nadd acc (wonAmount bet)) l (num 0).

(** The doubles are whole multiples of the smallest one, [2^-1074]. *)
Definition on_grid (q : Q) : Prop :=
  exists n : Z, (q == inject_Z n * 2 ^ (-1074))%Q.

Definition double (x : number) : Prop :=
  match x with
  | Fin q => on_grid q
  | _ => True
  end.

(** Every user is stored under its own id. *)
Definition users_ok (m : jsmap User) : Prop :=
  forall k u, In (k, u) m -> user_id u = k.

(** A store with three rounds on record, two of them crashed. *)
Definition demoHistory : MemStorage :=
  mkStore [("default-user", mkUser "default-user" (Some "Raj Kumar") (Some "password") "12580.50" None (Some 1000))]
    [("g1", mkGame "g1" 127535 "1.2" "aa" (Some "s1") (Some 1000) (Some 22000));
     ("g2", mkGame "g2" 127536 "3.05" "bb" (Some "s2") (Some 26000) (Some 57000));
     ("g3", mkGame "g3" 127537 "0.00" "cc" None (Some 61000) None)]
    [("b1", mkBet "b1" "default-user" "g1" "100" None (Some "0.00") (Some "0.00") false (Some 1500) (Some 22000));
     ("b2", mkBet "b2" "default-user" "g2" "50" (Some "2.00") (Some "2") (Some "100.00") false (Some 27000) (Some 37000));
     ("b3", mkBet "b3" "default-user" "g3" "10" None None None true (Some 62000) None)].

(** The world a list of flight steps leads to. *)
Definition flightEnd (steps : list FlightStep) (w : World) : World :=
  List.fold_left (fun w0 s => flightStep s w0) steps w.
(* ================================================================== *)
(** ** The server at work

    What the event loop runs on the engine: the callbacks of its three
    timers and the two requests of a player.  A timer callback fires only
    while its timer is armed.  Each task runs to its end, with the
    microtasks it leaves, before the next: the stores answer at once, so a
    request never waits for a timer, and requests are taken one at a
    time. *)

Module Server.

Local Open Scope step_scope.

Section WithDigest.

Variable sha256_hex : string -> string.

(** The callback of [setTimeout(() => { this.startNewRound(); }, 3000)]:
    the timeout [crashGame] sets fires once. *)
Definition restartTimeout (randomBytes : list byte) (uuid : string) (now : Z) : M unit :=
  e <- this ;;
  if restartTimer e
  then set_this (with_restartTimer false) ;;
       startNewRound sha256_hex randomBytes uuid now
  else ret tt.

Inductive Task : Type :=
| FlyingInterval (now now' : Z) (clock : nat -> Z)
| CountdownInterval (now : Z) (r : Q)
| RestartTimeout (randomBytes : list byte) (uuid : string) (now : Z)
| BetRequest (uid amt : string) (auto : option string) (uuid : string) (now : Z)
| CashOutRequest (uid : string) (now : Z).

Definition runTask (t : Task) (w : World) : World :=
  match t with
  | FlyingInterval now now' clock => world (flyingTick now now' clock w)
  | CountdownInterval now r => world (countdownTick now r w)
  | RestartTimeout randomBytes uuid now => world (restartTimeout randomBytes uuid now w)
  | BetRequest uid amt auto uuid now => world (placeBet uid amt auto uuid now w)
  | CashOutRequest uid now => world (manualCashOut uid now w)
  end.

(** The states of a server that was started and has run some tasks. *)
Inductive running : World -> Prop :=
| run_new (randomBytes : list byte) (uuid : string) (now : Z) :
    running (world (newWorld sha256_hex randomBytes uuid now))
| run_task (w : World) (t : Task) :
    running w -> running (runTask t w).

End WithDigest.

End Server.
Export Server.

(** Every game is stored once, under its own id. *)
Definition games_ok (m : jsmap Game) : Prop :=
  NoDup (List.map fst m) /\ forall k g, In (k, g) m -> game_id g = k.

(** The timer that is armed is the one of the phase. *)
Definition timers_match (e : CrashEngine) (g : GameState) : Prop :=
  match phase g with
  | waiting => countdownTimer e = true /\ gameTimer e = None /\ restartTimer e = false
  | starting => False
  | flying =>
      countdownTimer e = false /\ (exists t, gameTimer e = Some t) /\ restartTimer e = false
  | crashed => countdownTimer e = false /\ gameTimer e = None /\ restartTimer e = true
  end.

(** The active bets player [uid] holds in game [gid]. *)
Definition activeBetsOf (uid gid : string) (m : jsmap Bet) : list Bet :=
  List.filter
    (fun bet => String.eqb (userId bet) uid && String.eqb (gameId bet) gid && isActive bet)
    (map_values m).

(** [m'] comes from [m] by settling bets it holds. *)
Inductive settling (m : jsmap Bet) : jsmap Bet -> Prop :=
| settling_none : settling m m
| settling_one (m1 : jsmap Bet) (k : string) (t : Bet) (c win : string) (now : Z) :
    settling m m1 ->
    map_get k m1 = Some t ->
    settling m (map_set k (settled t c win now) m1).

(** The record [updateGameCrash] leaves in place of [game]. *)
Definition crashRecord (game : Game) (mult s : string) (now : Z) : Game :=
  mkGame (game_id game) (game_roundId game) mult (game_hash game) (Some s)
    (startedAt game) (Some now).

(** What holds of the rounds and the bets of a running server. *)
Record sound (sha256_hex : string -> string) (w : World) (g : GameState) (gdb : Game)
    : Prop := mkSound {
  sound_game : currentGame (engine w) = Some g;
  sound_counter : roundId g = roundIdCounter (engine w);
  sound_timers : timers_match (engine w) g;
  sound_games : games_ok (games (storage w));
  sound_rounds : NoDup (List.map game_roundId (map_values (games (storage w))));
  sound_rounds_le :
    forall gr, In gr (map_values (games (storage w))) ->
               game_roundId gr <= roundIdCounter (engine w);
  sound_record : map_get (game_id gdb) (games (storage w)) = Some gdb;
  sound_record_round : game_roundId gdb = roundId g;
  sound_record_hash : game_hash gdb = hash g;
  sound_record_open :
    phase g <> crashed -> crashedAt gdb = None /\ game_salt gdb = None;
  sound_commit :
    forall s, salt g = Some s -> Hash.verifyHash sha256_hex (roundId g) s (hash g) = true;
  sound_revealed :
    forall gr s, In gr (map_values (games (storage w))) -> game_salt gr = Some s ->
                 Hash.verifyHash sha256_hex (game_roundId gr) s (game_hash gr) = true
                 /\ crashedAt gr <> None;
  sound_bets : bets_ok (bets (storage w));
  sound_one_bet :
    forall uid gid, (List.length (activeBetsOf uid gid (bets (storage w))) <= 1)%nat;
  sound_active :
    forall b, In b (map_values (bets (storage w))) -> isActive b = true ->
              gameId b = game_id gdb /\ phase g <> crashed
}.

(** *** A worked server

    A server started at time 0 with a digest that returns its input: a bet
    of 100 with threshold 1.20, the ten ticks of the countdown, a flight
    that takes off at 10000 and ends at 13960, a tick at 12000 and the tick
    at 14000 that ends the round. *)

Definition demoDigest (data : string) : string := data.

Definition runTasks (sha256_hex : string -> string) (ts : list Task) (w : World) : World :=
  List.fold_left (fun w' t => runTask sha256_hex t w') ts w.

Definition demoStarted : World :=
  world (newWorld demoDigest [Byte.xab; Byte.x01] "g1" 0).

Definition demoOpen : World :=
  runTasks demoDigest [BetRequest "default-user" "100" (Some "1.20") "b1" 500] demoStarted.

Definition demoInFlight : World :=
  runTasks demoDigest (List.repeat (CountdownInterval 10000 (1 # 4)) 10) demoOpen.

Definition demoCrashed : World :=
  runTasks demoDigest
    [FlyingInterval 12000 12000 (fun _ => 12000); FlyingInterval 14000 14000 (fun _ => 14000)]
    demoInFlight.
(* ================================================================== *)
(** ** Facts about steps *)

Lemma bind_world {A B : Type} (m : M A) (f : A -> M B) (w : World) :
  world (bind m f w) = world (f (value (m w)) (world (m w))).
Proof. unfold bind. destruct (m w) as [a w1 e1]. cbn. now destruct (f a w1). Qed.

Lemma bind_value {A B : Type} (m : M A) (f : A -> M B) (w : World) :
  value (bind m f w) = value (f (value (m w)) (world (m w))).
Proof. unfold bind. destruct (m w) as [a w1 e1]. cbn. now destruct (f a w1). Qed.

Lemma bind_events {A B : Type} (m : M A) (f : A -> M B) (w : World) :
  events (bind m f w) = (events (m w) ++ events (f (value (m w)) (world (m w))))%list.
Proof. unfold bind. destruct (m w) as [a w1 e1]. cbn. now destruct (f a w1). Qed.

Lemma getPublicGameState_eq (w : World) :
  getPublicGameState w = mkOut (publicOf (currentGame (engine w))) w [].
Proof. reflexivity. Qed.

(** Push a projection through the binds at the head of a step. *)
Ltac mstep :=
  repeat progress
    (rewrite ?bind_world, ?bind_value, ?bind_events, ?getPublicGameState_eq;
     cbn [this query update call emit ret set_this
          value world events storage engine]).

(* ================================================================== *)
(** ** Facts about doubles *)

Lemma round_even_floor (q : Q) : Qfloor q <= round_even q <= Qfloor q + 1.
Proof.
  unfold round_even. destruct (Qcompare _ _); [destruct (Z.even _)| |]; lia.
Qed.

Lemma round_even_mono (x y : Q) : (x <= y)%Q -> round_even x <= round_even y.
Proof.
  intros Hxy. pose proof (Qfloor_resp_le _ _ Hxy) as Hf.
  pose proof (round_even_floor x) as Hx. pose proof (round_even_floor y) as Hy.
  destruct (Z.eq_dec (Qfloor x) (Qfloor y)) as [E | E]; [|lia].
  unfold round_even in *. rewrite <- E in *.
  destruct (Qcompare (x - inject_Z (Qfloor x)) (1 # 2)) eqn:Cx;
    destruct (Qcompare (y - inject_Z (Qfloor x)) (1 # 2)) eqn:Cy;
    try (destruct (Z.even (Qfloor x))); try lia; exfalso;
    first [apply Qeq_alt in Cx | apply Qlt_alt in Cx | apply Qgt_alt in Cx];
    first [apply Qeq_alt in Cy | apply Qlt_alt in Cy | apply Qgt_alt in Cy]; lra.
Qed.

Lemma round_even_Z (k : Z) : round_even (inject_Z k) = k.
Proof.
  unfold round_even. rewrite Qfloor_Z.
  assert (H : (inject_Z k - inject_Z k < 1 # 2)%Q) by lra.
  rewrite Qlt_alt in H. now rewrite H.
Qed.

Lemma round_even_ge (k : Z) (q : Q) : (inject_Z k <= q)%Q -> k <= round_even q.
Proof. intros H. rewrite <- (round_even_Z k). now apply round_even_mono. Qed.

Lemma round_even_le (k : Z) (q : Q) : (q <= inject_Z k)%Q -> round_even q <= k.
Proof. intros H. rewrite <- (round_even_Z k). now apply round_even_mono. Qed.

Lemma two_ne_0 : ~ (2 == 0)%Q.
Proof. discriminate. Qed.

Lemma pow2_pos (e : Z) : (0 < 2 ^ e)%Q.
Proof. apply Qpower_0_lt. reflexivity. Qed.

Lemma pow2_le (a b : Z) : a <= b -> (2 ^ a <= 2 ^ b)%Q.
Proof. intros H. apply Qpower_le_compat_l; [exact H | discriminate]. Qed.

Lemma pow2_succ (e : Z) : (2 ^ (e + 1) == 2 * 2 ^ e)%Q.
Proof. rewrite Qpower_plus by exact two_ne_0. rewrite Qpower_1_r. ring. Qed.

Lemma pow2_Z (n : Z) : 0 <= n -> (inject_Z (2 ^ n) == 2 ^ n)%Q.
Proof. intros H. now rewrite Zpower_Qpower. Qed.

(** The binade of a positive value. *)
Lemma binade_spec (q : Q) :
  (0 < q)%Q -> (2 ^ binade q <= q)%Q /\ (q < 2 ^ (binade q + 1))%Q.
Proof.
  intros Hq. destruct q as [a b]. 
  assert (Ha : 0 < a) by (unfold Qlt in Hq; cbn in Hq; lia).
  unfold binade. cbn [Qnum Qden].
  set (la := Z.log2 a). set (lb := Z.log2 (Z.pos b)).
  destruct (Z.log2_spec a Ha) as [Ha1 Ha2]. fold la in Ha1, Ha2.
  destruct (Z.log2_spec (Z.pos b) (Pos2Z.is_pos b)) as [Hb1 Hb2]. fold lb in Hb1, Hb2.
  assert (Hla : 0 <= la) by apply Z.log2_nonneg.
  assert (Hlb : 0 <= lb) by apply Z.log2_nonneg.
  assert (Hq' : (a # b == inject_Z a / inject_Z (Z.pos b))%Q) by apply Qmake_Qdiv.
  assert (Hbpos : (0 < inject_Z (Z.pos b))%Q) by (change 0%Q with (inject_Z 0); now rewrite <- Zlt_Qlt).
  assert (Hlow : (2 ^ (la - lb - 1) < a # b)%Q).
  { rewrite Hq'. apply Qlt_shift_div_l; [exact Hbpos|].
    apply Qlt_le_trans with (2 ^ (la - lb - 1) * 2 ^ (lb + 1))%Q.
    - apply Qmult_lt_l; [apply pow2_pos|].
      rewrite <- pow2_Z by lia. rewrite <- Zlt_Qlt. change (Z.succ lb) with (lb + 1) in Hb2. lia.
    - rewrite <- Qpower_plus by exact two_ne_0.
      replace (la - lb - 1 + (lb + 1)) with la by lia.
      rewrite <- pow2_Z by lia. now rewrite <- Zle_Qle. }
  assert (Hhigh : (a # b < 2 ^ (la - lb + 1))%Q).
  { rewrite Hq'. apply Qlt_shift_div_r; [exact Hbpos|].
    apply Qlt_le_trans with (2 ^ (la - lb + 1) * 2 ^ lb)%Q.
    - rewrite <- Qpower_plus by exact two_ne_0.
      replace (la - lb + 1 + lb) with (la + 1) by lia.
      rewrite <- pow2_Z by lia. rewrite <- Zlt_Qlt. change (Z.succ la) with (la + 1) in Ha2. lia.
    - apply Qmult_le_l; [apply pow2_pos|].
      rewrite <- pow2_Z by lia. now rewrite <- Zle_Qle. }
  destruct (Qle_bool (2 ^ (la - lb)) (a # b)) eqn:E.
  - apply Qle_bool_iff in E. split; [exact E | exact Hhigh].
  - split; [now apply Qlt_le_weak|].
    replace (la - lb - 1 + 1) with (la - lb) by lia.
    apply Qnot_le_lt. intros H. apply Qle_bool_iff in H. congruence.
Qed.

Lemma binade_mono (x y : Q) : (0 < x)%Q -> (x <= y)%Q -> binade x <= binade y.
Proof.
  intros Hx Hxy.
  assert (Hy : (0 < y)%Q) by lra.
  destruct (binade_spec x Hx) as [Hx1 _]. destruct (binade_spec y Hy) as [_ Hy2].
  apply Z.lt_succ_r. change (Z.succ (binade y)) with (binade y + 1).
  apply (Qpower_lt_compat_l_inv 2); [|reflexivity]. lra.
Qed.

Lemma quantum_pos (q : Q) : (0 < quantum q)%Q.
Proof. apply pow2_pos. Qed.

Lemma nearest_nonneg (q : Q) : (0 <= q)%Q -> (0 <= nearest q)%Q.
Proof.
  intros Hq. unfold nearest. pose proof (quantum_pos q) as Hu.
  apply Qmult_le_0_compat; [|now apply Qlt_le_weak].
  change 0%Q with (inject_Z 0). rewrite <- Zle_Qle. apply round_even_ge.
  change (inject_Z 0) with 0%Q. apply Qle_shift_div_l; [exact Hu|]. lra.
Qed.

(** What rounds up to at most the top of its binade. *)
Lemma nearest_le_top (q : Q) :
  (0 < q)%Q -> (nearest q <= 2 ^ (Z.max (binade q) (-1022) + 1))%Q.
Proof.
  intros Hq. unfold nearest, quantum. set (e := Z.max (binade q) (-1022)).
  destruct (binade_spec q Hq) as [_ Hq2].
  assert (Hq3 : (q <= 2 ^ (e + 1))%Q).
  { apply Qle_trans with (2 ^ (binade q + 1))%Q; [now apply Qlt_le_weak|].
    apply pow2_le. unfold e. lia. }
  assert (Hn : round_even (q / 2 ^ (e - 52)) <= 2 ^ 53).
  { apply round_even_le. rewrite pow2_Z by lia.
    apply Qle_shift_div_r; [apply pow2_pos|].
    rewrite <- Qpower_plus by exact two_ne_0.
    now replace (53 + (e - 52)) with (e + 1) by lia. }
  apply Qle_trans with (inject_Z (2 ^ 53) * 2 ^ (e - 52))%Q.
  - apply Qmult_le_r; [apply pow2_pos|]. now rewrite <- Zle_Qle.
  - rewrite pow2_Z by lia. rewrite <- Qpower_plus by exact two_ne_0.
    replace (53 + (e - 52)) with (e + 1) by lia. apply Qle_refl.
Qed.

(** A normal value rounds to at least the bottom of its binade. *)
Lemma nearest_ge_bottom (q : Q) :
  (0 < q)%Q -> -1022 <= binade q -> (2 ^ binade q <= nearest q)%Q.
Proof.
  intros Hq He. unfold nearest, quantum. rewrite Z.max_l by lia.
  set (e := binade q). destruct (binade_spec q Hq) as [Hq1 _]. fold e in Hq1.
  assert (Hn : 2 ^ 52 <= round_even (q / 2 ^ (e - 52))).
  { apply round_even_ge. rewrite pow2_Z by lia.
    apply Qle_shift_div_l; [apply pow2_pos|].
    rewrite <- Qpower_plus by exact two_ne_0.
    now replace (52 + (e - 52)) with e by lia. }
  apply Qle_trans with (inject_Z (2 ^ 52) * 2 ^ (e - 52))%Q.
  - rewrite pow2_Z by lia. rewrite <- Qpower_plus by exact two_ne_0.
    replace (52 + (e - 52)) with e by lia. apply Qle_refl.
  - apply Qmult_le_r; [apply pow2_pos|]. now rewrite <- Zle_Qle.
Qed.

Lemma nearest_mono (x y : Q) : (0 < x)%Q -> (x <= y)%Q -> (nearest x <= nearest y)%Q.
Proof.
  intros Hx Hxy. assert (Hy : (0 < y)%Q) by lra.
  pose proof (binade_mono x y Hx Hxy) as Hb.
  destruct (Z.eq_dec (Z.max (binade x) (-1022)) (Z.max (binade y) (-1022))) as [E | E].
  - unfold nearest, quantum. rewrite <- E.
    set (u := (2 ^ (Z.max (binade x) (-1022) - 52))%Q).
    assert (Hu : (0 < u)%Q) by apply pow2_pos.
    apply Qmult_le_r; [exact Hu|]. rewrite <- Zle_Qle. apply round_even_mono.
    unfold Qdiv. apply Qmult_le_r; [now apply Qinv_lt_0_compat | exact Hxy].
  - assert (Hlt : Z.max (binade x) (-1022) < binade y) by lia.
    apply Qle_trans with (2 ^ (Z.max (binade x) (-1022) + 1))%Q;
      [now apply nearest_le_top|].
    apply Qle_trans with (2 ^ binade y)%Q; [apply pow2_le; lia|].
    apply nearest_ge_bottom; [exact Hy | lia].
Qed.

Lemma Qle_bool_false (a b : Q) : Qle_bool a b = false <-> (b < a)%Q.
Proof.
  split.
  - intros H. apply Qnot_le_lt. intros H'. apply Qle_bool_iff in H'. congruence.
  - intros H. destruct (Qle_bool a b) eqn:E; [|reflexivity].
    apply Qle_bool_iff in E. lra.
Qed.

(** Rounding to the nearest double keeps the order. *)
Lemma round64_mono (x y : Q) : (x <= y)%Q -> nle (round64 x) (round64 y) = true.
Proof.
  intros Hxy. unfold round64.
  destruct (Qcompare x 0) eqn:Cx; destruct (Qcompare y 0) eqn:Cy;
    first [apply Qeq_alt in Cx | apply Qlt_alt in Cx | apply Qgt_alt in Cx];
    first [apply Qeq_alt in Cy | apply Qlt_alt in Cy | apply Qgt_alt in Cy];
    try lra; cbn zeta.
  - reflexivity.
  - pose proof (nearest_nonneg y (Qlt_le_weak _ _ Cy)) as Hn.
    destruct (Qle_bool (2 ^ 1024) (nearest y)); [reflexivity|].
    cbn [nle]. apply Qle_bool_iff. now rewrite Qred_correct.
  - assert (Hx : (0 <= - x)%Q) by lra.
    pose proof (nearest_nonneg (- x) Hx) as Hn.
    destruct (Qle_bool (2 ^ 1024) (nearest (- x))); [reflexivity|].
    cbn [nle]. apply Qle_bool_iff. rewrite Qred_correct. lra.
  - assert (Hx : (0 < - y)%Q) by lra.
    assert (Hyx : (- y <= - x)%Q) by lra.
    pose proof (nearest_mono (- y) (- x) Hx Hyx) as Hn.
    destruct (Qle_bool (2 ^ 1024) (nearest (- x))) eqn:Ex;
      [now destruct (Qle_bool (2 ^ 1024) (nearest (- y)))|].
    apply Qle_bool_false in Ex.
    destruct (Qle_bool (2 ^ 1024) (nearest (- y))) eqn:Ey.
    + apply Qle_bool_iff in Ey. lra.
    + cbn [nle]. apply Qle_bool_iff. rewrite !Qred_correct. lra.
  - assert (Hx : (0 <= - x)%Q) by lra.
    pose proof (nearest_nonneg (- x) Hx) as Hnx.
    pose proof (nearest_nonneg y (Qlt_le_weak _ _ Cy)) as Hny.
    destruct (Qle_bool (2 ^ 1024) (nearest (- x))); destruct (Qle_bool (2 ^ 1024) (nearest y));
      try reflexivity.
    cbn [nle]. apply Qle_bool_iff. rewrite !Qred_correct. lra.
  - pose proof (nearest_mono x y Cx Hxy) as Hn.
    destruct (Qle_bool (2 ^ 1024) (nearest y)) eqn:Ey.
    + now destruct (Qle_bool (2 ^ 1024) (nearest x)).
    + apply Qle_bool_false in Ey.
      destruct (Qle_bool (2 ^ 1024) (nearest x)) eqn:Ex.
      * apply Qle_bool_iff in Ex. lra.
      * cbn [nle]. apply Qle_bool_iff. rewrite !Qred_correct. lra.
Qed.

(** On the samples, the operations are those of the machine. *)
Lemma binary64_agrees :
  agrees PrimFloat.add nadd && agrees PrimFloat.sub nsub
  && agrees PrimFloat.mul nmul && agrees PrimFloat.div ndiv
  && List.forallb (fun p => same_number (round64 (fst p)) (of_float (snd p))) sample_literals
  = true.
Proof. vm_compute. reflexivity. Qed.

Lemma round64_zero : round64 0 = Fin 0.
Proof. reflexivity. Qed.

(** Rounding never gives [NaN]. *)
Lemma round64_not_NaN (q : Q) : round64 q <> NaN.
Proof.
  unfold round64. destruct (Qcompare q 0); cbn zeta; try discriminate;
    destruct (Qle_bool _ _); discriminate.
Qed.

Lemma round64_nonneg (q : Q) : (0 <= q)%Q -> nle (num 0) (round64 q) = true.
Proof. intros H. change (num 0) with (round64 0). now apply round64_mono. Qed.

Lemma round64_nonpos (q : Q) : (q <= 0)%Q -> nle (round64 q) (num 0) = true.
Proof. intros H. change (num 0) with (round64 0). now apply round64_mono. Qed.

Arguments round64 : simpl never.

(* ================================================================== *)
(** ** Facts about the [Map] model *)

Arguments numToString : simpl never.
Arguments toFixed2 : simpl never.
Arguments parseFloat : simpl never.
Arguments tickMultiplier : simpl never.
Arguments generateCrashPoint : simpl never.
Arguments updateBetCashOut : simpl never.
Arguments updateUserBalance : simpl never.
Arguments updateGameCrash : simpl never.
Arguments getActiveBetsByGameId : simpl never.
Arguments getBetsByUserId : simpl never.
Arguments getGameByRoundId : simpl never.
Arguments getUser : simpl never.
Arguments createBet : simpl never.
Arguments cashOutBet : simpl never.
Arguments resumeAutoCashOuts : simpl never.
Arguments resumeCrash : simpl never.
Arguments drain : simpl never.

Section MapFacts.

Context {V : Type}.

Lemma map_get_set_same (k : string) (v : V) (m : jsmap V) :
  map_get k (map_set k v m) = Some v.
Proof.
  induction m as [|[k' v'] m IH]; cbn.
  - now rewrite String.eqb_refl.
  - destruct (String.eqb k k') eqn:E; cbn.
    + now rewrite String.eqb_refl.
    + now rewrite E.
Qed.

Lemma map_get_set_other (k k0 : string) (v : V) (m : jsmap V) :
  k0 <> k -> map_get k0 (map_set k v m) = map_get k0 m.
Proof.
  intros Hne. induction m as [|[k' v'] m IH]; cbn.
  - destruct (String.eqb k0 k) eqn:E; [apply String.eqb_eq in E; contradiction | reflexivity].
  - destruct (String.eqb k k') eqn:E; cbn.
    + apply String.eqb_eq in E. subst k'.
      destruct (String.eqb k0 k) eqn:E0; [apply String.eqb_eq in E0; contradiction | reflexivity].
    + now rewrite IH.
Qed.

Lemma map_get_In (k : string) (v : V) (m : jsmap V) :
  map_get k m = Some v -> In (k, v) m.
Proof.
  induction m as [|[k' v'] m IH]; cbn; [discriminate|].
  destruct (String.eqb k k') eqn:E.
  - apply String.eqb_eq in E. intros [= ->]. left. now subst.
  - intros H. right. now apply IH.
Qed.

Lemma In_map_get (k : string) (v : V) (m : jsmap V) :
  NoDup (List.map fst m) -> In (k, v) m -> map_get k m = Some v.
Proof.
  induction m as [|[k' v'] m IH]; cbn; [contradiction|].
  intros Hnd [Heq | Hin].
  - injection Heq as -> ->. now rewrite String.eqb_refl.
  - inversion Hnd as [|? ? Hnotin Hnd']; subst.
    destruct (String.eqb k k') eqn:E.
    + apply String.eqb_eq in E. subst k'.
      exfalso. apply Hnotin. change k with (fst (k, v)). now apply in_map.
    + now apply IH.
Qed.

Lemma map_set_keys (k : string) (v : V) (m : jsmap V) :
  forall k0, In k0 (List.map fst (map_set k v m)) <-> k0 = k \/ In k0 (List.map fst m).
Proof.
  induction m as [|[k' v'] m IH]; cbn; intros k0.
  - intuition.
  - destruct (String.eqb k k') eqn:E; cbn.
    + apply String.eqb_eq in E. subst k'. intuition.
    + rewrite IH. intuition.
Qed.

Lemma map_set_NoDup (k : string) (v : V) (m : jsmap V) :
  NoDup (List.map fst m) -> NoDup (List.map fst (map_set k v m)).
Proof.
  induction m as [|[k' v'] m IH]; cbn; intros Hnd.
  - constructor; [intros [] | constructor].
  - inversion Hnd as [|? ? Hnotin Hnd']; subst.
    destruct (String.eqb k k') eqn:E; cbn.
    + apply String.eqb_eq in E. subst k'. now constructor.
    + constructor; [|now apply IH].
      rewrite map_set_keys. intros [-> | Hin]; [|contradiction].
      now rewrite String.eqb_refl in E.
Qed.

Lemma map_set_In (k : string) (v : V) (m : jsmap V) (k0 : string) (v0 : V) :
  In (k0, v0) (map_set k v m) -> (k0 = k /\ v0 = v) \/ In (k0, v0) m.
Proof.
  induction m as [|[k' v'] m IH]; cbn.
  - intros [[= <- <-] | []]. now left.
  - destruct (String.eqb k k') eqn:E; cbn.
    + intros [[= <- <-] | Hin]; [now left | right; now right].
    + intros [Heq | Hin]; [right; now left|].
      destruct (IH Hin) as [? | ?]; [now left | right; now right].
Qed.

End MapFacts.

Lemma find_none_iff {A : Type} (f : A -> bool) (l : list A) :
  (forall x, In x l -> f x = false) -> List.find f l = None.
Proof.
  induction l as [|a l IH]; cbn; [reflexivity|].
  intros H. rewrite (H a (or_introl eq_refl)). apply IH. intros x Hx. apply H. now right.
Qed.

Lemma bets_ok_nil : bets_ok [].
Proof. split; [constructor | intros k b []]. Qed.

Lemma bets_ok_set (k : string) (b : Bet) (m : jsmap Bet) :
  bet_id b = k -> bets_ok m -> bets_ok (map_set k b m).
Proof.
  intros Hid [Hnd Hk]. split; [now apply map_set_NoDup|].
  intros k0 b0 Hin. destruct (map_set_In _ _ _ _ _ Hin) as [[-> ->] | Hin']; [assumption|].
  now apply Hk.
Qed.

Lemma bets_ok_value (m : jsmap Bet) (b : Bet) :
  bets_ok m -> In b (map_values m) -> map_get (bet_id b) m = Some b.
Proof.
  intros [Hnd Hk] Hin. unfold map_values in Hin.
  apply in_map_iff in Hin. destruct Hin as [[k b'] [Heq Hin]]. cbn in Heq. subst b'.
  rewrite (Hk _ _ Hin). now apply In_map_get.
Qed.

(* ================================================================== *)
(** ** Settlement happens once *)

(** On a bet that is no longer active, [cashOutBet] finds no target. *)
Lemma cashOutBet_inactive (w : World) (bid uid mult : string) (now : Z) (b : Bet) :
  bets_ok (bets (storage w)) ->
  map_get bid (bets (storage w)) = Some b ->
  isActive b = false ->
  cashOutBet bid uid mult now w = mkOut tt w [].
Proof.
  intros Hok Hget Hset.
  unfold cashOutBet, bind, query. cbn.
  rewrite find_none_iff; [reflexivity|].
  intros x Hx. unfold getBetsByUserId in Hx. apply filter_In in Hx. destruct Hx as [Hx _].
  destruct (String.eqb (bet_id x) bid) eqn:E; [|reflexivity]. cbn.
  apply String.eqb_eq in E.
  pose proof (bets_ok_value _ _ Hok Hx) as Hx'. rewrite E, Hget in Hx'.
  injection Hx' as <-. exact Hset.
Qed.

(* ================================================================== *)
(** ** What the settlement routine does to the store *)

Lemma map_set_same_value {V : Type} (k : string) (v : V) (m : jsmap V) :
  map_get k m = Some v -> map_set k v m = m.
Proof.
  induction m as [|[k' v'] m IH]; cbn; [discriminate|].
  destruct (String.eqb k k') eqn:E.
  - apply String.eqb_eq in E. now intros [= ->]; subst.
  - intros H. now rewrite IH.
Qed.

Lemma updateBetCashOut_bets (bid c win : string) (now : Z) (st : MemStorage) (b : Bet) :
  map_get bid (bets st) = Some b ->
  updateBetCashOut bid c win now st
  = set_bets (map_set bid (settled b c win now) (bets st)) st.
Proof. intros H. unfold updateBetCashOut. now rewrite H. Qed.

Lemma updateUserBalance_bets (uid nb : string) (st : MemStorage) :
  bets (updateUserBalance uid nb st) = bets st
  /\ games (updateUserBalance uid nb st) = games st.
Proof. unfold updateUserBalance. now destruct (map_get uid (users st)). Qed.

(** [cashOutBet] never touches the engine or the game table. *)
Lemma cashOutBet_engine (bid uid mult : string) (now : Z) (w : World) :
  engine (world (cashOutBet bid uid mult now w)) = engine w
  /\ games (storage (world (cashOutBet bid uid mult now w))) = games (storage w).
Proof.
  unfold cashOutBet, bind, query. cbn.
  destruct (find _ _) as [t|]; cbn; [|now split].
  destruct (getUser uid _) as [u|]; cbn.
  - split; [reflexivity|].
    rewrite (proj2 (updateUserBalance_bets _ _ _)).
    unfold updateBetCashOut. now destruct (map_get bid _).
  - split; [reflexivity|].
    unfold updateBetCashOut. now destruct (map_get bid _).
Qed.

(** On an active bet of the given player, [cashOutBet] stores the
    settled record under the bet's key. *)
Lemma cashOutBet_active (bid uid mult : string) (now : Z) (w : World) (b : Bet) :
  bets_ok (bets (storage w)) ->
  map_get bid (bets (storage w)) = Some b ->
  isActive b = true ->
  userId b = uid ->
  bets (storage (world (cashOutBet bid uid mult now w)))
  = map_set bid (settled b mult (payout b mult) now) (bets (storage w)).
Proof.
  intros Hok Hget Hact Huid.
  assert (Hid : bet_id b = bid) by (apply (proj2 Hok); now apply map_get_In).
  unfold cashOutBet, bind, query. cbn.
  destruct (find _ _) as [t|] eqn:Hfind.
  - apply find_some in Hfind. destruct Hfind as [Hin Hp].
    apply andb_prop in Hp. destruct Hp as [Ht _]. apply String.eqb_eq in Ht.
    unfold getBetsByUserId in Hin. apply filter_In in Hin. destruct Hin as [Hin _].
    pose proof (bets_ok_value _ _ Hok Hin) as Hv. rewrite Ht, Hget in Hv.
    injection Hv as <-. cbn.
    destruct (getUser uid _) as [u|]; cbn.
    + rewrite (proj1 (updateUserBalance_bets _ _ _)).
      now rewrite (updateBetCashOut_bets _ _ _ _ _ _ Hget).
    + now rewrite (updateBetCashOut_bets _ _ _ _ _ _ Hget).
  - exfalso.
    pose proof (find_none _ _ Hfind b) as Hn. cbn in Hn.
    rewrite Hid, String.eqb_refl, Hact in Hn.
    assert (In b (getBetsByUserId uid (storage w))) as Hin.
    { unfold getBetsByUserId. apply filter_In. split.
      - unfold map_values. apply in_map_iff. exists (bid, b). split; [reflexivity|].
        now apply map_get_In.
      - rewrite Huid. apply String.eqb_refl. }
    specialize (Hn Hin). discriminate.
Qed.

Lemma NoDup_map_filter {A B : Type} (f : A -> B) (p : A -> bool) (l : list A) :
  NoDup (List.map f l) -> NoDup (List.map f (List.filter p l)).
Proof.
  induction l as [|a l IH]; cbn; intros Hnd; [constructor|].
  inversion Hnd as [|? ? Hnotin Hnd']; subst.
  destruct (p a); cbn; [|now apply IH].
  constructor; [|now apply IH].
  intros Hin. apply Hnotin. apply in_map_iff in Hin. destruct Hin as [y [Hy Hin]].
  apply filter_In in Hin. rewrite <- Hy. apply in_map. tauto.
Qed.

Lemma bets_ok_ids (m : jsmap Bet) :
  bets_ok m -> List.map bet_id (map_values m) = List.map fst m.
Proof.
  intros [_ Hk]. unfold map_values. rewrite map_map.
  apply map_ext_in. intros [k b] Hin. cbn. now apply Hk.
Qed.

(** The active bets of a game, as [getActiveBetsByGameId] lists them, are
    stored under pairwise distinct ids. *)
Lemma activeBets_facts (gid : string) (st : MemStorage) :
  bets_ok (bets st) ->
  NoDup (List.map bet_id (getActiveBetsByGameId gid st))
  /\ forall x, In x (getActiveBetsByGameId gid st) <->
       map_get (bet_id x) (bets st) = Some x /\ gameId x = gid /\ isActive x = true.
Proof.
  intros Hok. split.
  - unfold getActiveBetsByGameId. apply NoDup_map_filter.
    rewrite bets_ok_ids by assumption. apply Hok.
  - intros x. unfold getActiveBetsByGameId. rewrite filter_In, andb_true_iff, String.eqb_eq.
    split.
    + intros [Hin [Hg Ha]]. repeat split; try assumption. now apply bets_ok_value.
    + intros [Hget [Hg Ha]]. repeat split; try assumption.
      unfold map_values. apply in_map_iff. exists (bet_id x, x). split; [reflexivity|].
      now apply map_get_In.
Qed.

(** *** The automatic pass of a tick *)

(* ================================================================== *)
(** ** Stretches between awaits *)

(** A reference is as good as the object while the keys are distinct. *)
Lemma derefBets_refs_aux (uid : string) (m0 : jsmap Bet) (st0 : MemStorage) :
  bets st0 = m0 ->
  forall m,
    (forall k b, In (k, b) m -> map_get k m0 = Some b) ->
    derefBets (List.map fst (List.filter (fun kb => String.eqb (userId (snd kb)) uid) m)) st0
    = List.filter (fun bet => String.eqb (userId bet) uid) (map_values m).
Proof.
  intros Hm0. unfold derefBets, map_values. rewrite Hm0.
  induction m as [|[k b] m IH]; intros Hin; [reflexivity|].
  cbn [List.filter List.map snd fst].
  assert (IH' := IH (fun k0 b0 H => Hin k0 b0 (or_intror H))).
  destruct (String.eqb (userId b) uid); [|exact IH'].
  cbn [List.map fst flat_map]. rewrite (Hin k b (or_introl eq_refl)).
  cbn [app]. f_equal. exact IH'.
Qed.

Lemma derefBets_refs (uid : string) (st : MemStorage) :
  NoDup (List.map fst (bets st)) ->
  derefBets (betRefs uid st) st = getBetsByUserId uid st.
Proof.
  intros Hnd. unfold betRefs, getBetsByUserId.
  apply (derefBets_refs_aux uid (bets st) st eq_refl).
  intros k b Hin. now apply In_map_get.
Qed.

Lemma derefBets_In (refs : list string) (st : MemStorage) (t : Bet) :
  In t (derefBets refs st) -> exists k, map_get k (bets st) = Some t.
Proof.
  unfold derefBets. rewrite in_flat_map. intros [k [_ Hin]].
  destruct (map_get k (bets st)) as [b|] eqn:E; cbn in Hin; [|contradiction].
  destruct Hin as [<- | []]. now exists k.
Qed.

Lemma autoCashOutLoop_storage (l : list Bet) (w : World) :
  world (autoCashOutLoop l w) = w.
Proof.
  induction l as [|x l IH]; [reflexivity|].
  cbn [autoCashOutLoop]. mstep.
  destruct (currentGame (engine w)) as [g|]; [|exact IH].
  destruct (truthy (autoCashOut x)) as [a|]; [|exact IH].
  destruct (nle _ _); [|exact IH]. mstep. reflexivity.
Qed.

(** What one stretch of the automatic pass can do: nothing to the engine
    and the games; to the bets, nothing or the settlement of one bet that
    was active. *)
Lemma resumeAutoCashOuts_effect (now : Z) (p : AutoCashOuts) (w : World) :
  bets_ok (bets (storage w)) ->
  let w' := world (resumeAutoCashOuts now p w) in
  engine w' = engine w
  /\ games (storage w') = games (storage w)
  /\ (bets (storage w') = bets (storage w)
      \/ exists bid t mult,
           map_get bid (bets (storage w)) = Some t
           /\ isActive t = true
           /\ bets (storage w')
              = map_set bid (settled t mult (payout t mult) now) (bets (storage w))).
Proof.
  intros Hok w'. subst w'. unfold resumeAutoCashOuts.
  destruct p as [ | [gdb|] | rest | bid uid mult refs rest | bid uid mult win rest
                | bid uid mult win [|] rest | bid uid mult win rest ]; mstep;
    try (split; [reflexivity | split; [reflexivity | now left]]).
  - rewrite autoCashOutLoop_storage. split; [reflexivity | split; [reflexivity | now left]].
  - destruct (find _ _) as [t|] eqn:Hfind; mstep;
      [|split; [reflexivity | split; [reflexivity | now left]]].
    apply find_some in Hfind. destruct Hfind as [Hin Hp].
    apply andb_prop in Hp. destruct Hp as [Hid Hact]. apply String.eqb_eq in Hid.
    apply derefBets_In in Hin. destruct Hin as [k Hk].
    assert (Hkid : bet_id t = k) by (apply (proj2 Hok); now apply map_get_In).
    rewrite Hid in Hkid. subst k.
    split; [reflexivity|]. split.
    + unfold updateBetCashOut. now rewrite Hk.
    + right. exists bid, t, mult. split; [exact Hk|]. split; [exact Hact|].
      now rewrite (updateBetCashOut_bets _ _ _ _ _ _ Hk).
  - destruct (getUser uid (storage w)) as [u|]; mstep.
    + rewrite (proj1 (updateUserBalance_bets _ _ _)), (proj2 (updateUserBalance_bets _ _ _)).
      split; [reflexivity | split; [reflexivity | now left]].
    + split; [reflexivity | split; [reflexivity | now left]].
Qed.

Lemma updateGameCrash_bets (gid m s : string) (now : Z) (st : MemStorage) :
  bets (updateGameCrash gid m s now st) = bets st.
Proof. unfold updateGameCrash. now destruct (map_get gid (games st)). Qed.

Lemma updateBetCashOut_bets_ok (bid c win : string) (now : Z) (st : MemStorage) :
  (forall b, map_get bid (bets st) = Some b -> bet_id b = bid) ->
  bets_ok (bets st) -> bets_ok (bets (updateBetCashOut bid c win now st)).
Proof.
  intros Hid Hok. unfold updateBetCashOut.
  destruct (map_get bid (bets st)) as [b|] eqn:Hget; [|exact Hok].
  cbn. apply bets_ok_set; [|exact Hok]. cbn. now apply Hid.
Qed.

Lemma crashEnd_effect (cm : number) (w : World) :
  world (crashEnd cm w) = mkWorld (storage w) (with_restartTimer true (engine w))
  /\ value (crashEnd cm w) = crash_done.
Proof.
  unfold crashEnd. mstep. destruct (currentGame (engine w)); mstep; now split.
Qed.

Lemma crashSweep_effect (cm : number) (gdb : option Game) (w : World) :
  storage (world (crashSweep cm gdb w)) = storage w
  /\ currentGame (engine (world (crashSweep cm gdb w))) = currentGame (engine w)
  /\ gameTimer (engine (world (crashSweep cm gdb w))) = gameTimer (engine w)
  /\ value (crashSweep cm gdb w)
     = match gdb with
       | Some g => crash_sweep cm (getActiveBetsByGameId (game_id g) (storage w))
       | None => crash_done
       end.
Proof.
  unfold crashSweep. destruct gdb as [g|]; mstep; [now repeat split|].
  destruct (crashEnd_effect cm w) as [-> ->]. now repeat split.
Qed.

(** What one stretch of the crash can do. *)
Lemma resumeCrash_effect (now : Z) (c : Crash) (w : World) :
  bets_ok (bets (storage w)) ->
  let w' := world (resumeCrash now c w) in
  currentGame (engine w') = currentGame (engine w)
  /\ gameTimer (engine w') = gameTimer (engine w)
  /\ bets_ok (bets (storage w'))
  /\ forall k b,
       map_get k (bets (storage w)) = Some b ->
       isActive b = false ->
       crash_avoids k c ->
       map_get k (bets (storage w')) = Some b
       /\ crash_avoids k (value (resumeCrash now c w)).
Proof.
  intros Hok w'. subst w'. unfold resumeCrash.
  assert (Hlist : forall gid k b,
            map_get k (bets (storage w)) = Some b -> isActive b = false ->
            ~ In k (List.map bet_id (getActiveBetsByGameId gid (storage w)))).
  { intros gid k b Hk Hb Hin. apply in_map_iff in Hin. destruct Hin as [x [Hx Hin]].
    apply (proj2 (activeBets_facts gid (storage w) Hok)) in Hin.
    destruct Hin as [Hgx [_ Hax]]. rewrite Hx, Hk in Hgx. congruence. }
  assert (Hsw : forall cm gdb,
            currentGame (engine (world (crashSweep cm gdb w))) = currentGame (engine w)
            /\ gameTimer (engine (world (crashSweep cm gdb w))) = gameTimer (engine w)
            /\ bets_ok (bets (storage (world (crashSweep cm gdb w))))
            /\ forall k b,
                 map_get k (bets (storage w)) = Some b -> isActive b = false ->
                 map_get k (bets (storage (world (crashSweep cm gdb w)))) = Some b
                 /\ crash_avoids k (value (crashSweep cm gdb w))).
  { intros cm gdb. destruct (crashSweep_effect cm gdb w) as [Hs [Hg [Ht Hv]]].
    rewrite Hs, Hg, Ht, Hv.
    split; [reflexivity|]. split; [reflexivity|]. split; [exact Hok|].
    intros k b Hk Hb. split; [exact Hk|].
    destruct gdb as [g0|]; cbn; [now apply (Hlist _ k b) | exact Logic.I]. }
  destruct c as [ | cm gdb | cm gdb | cm [|x rest] ]; mstep.
  - split; [reflexivity|]. split; [reflexivity|]. split; [exact Hok|].
    intros k b Hk Hb _. split; [exact Hk | exact Logic.I].
  - destruct gdb as [g0|].
    + destruct (match currentGame (engine w) with Some g => truthy (salt g) | None => None end)
        as [s|]; mstep.
      * rewrite updateGameCrash_bets.
        split; [reflexivity|]. split; [reflexivity|]. split; [exact Hok|].
        intros k b Hk Hb _. split; [exact Hk | exact Logic.I].
      * destruct (Hsw cm (Some g0)) as [H1 [H2 [H3 H4]]].
        split; [exact H1|]. split; [exact H2|]. split; [exact H3|].
        intros k b Hk Hb _. now apply H4.
    + destruct (Hsw cm None) as [H1 [H2 [H3 H4]]].
      destruct (match currentGame (engine w) with Some g => truthy (salt g) | None => None end);
        (split; [exact H1|]; split; [exact H2|]; split; [exact H3|];
         intros k b Hk Hb _; now apply H4).
  - destruct (Hsw cm (Some gdb)) as [H1 [H2 [H3 H4]]].
    split; [exact H1|]. split; [exact H2|]. split; [exact H3|].
    intros k b Hk Hb _. now apply H4.
  - destruct (crashEnd_effect cm w) as [-> ->]. cbn.
    split; [reflexivity|]. split; [reflexivity|]. split; [exact Hok|].
    intros k b Hk Hb _. split; [exact Hk | exact Logic.I].
  - split; [reflexivity|]. split; [reflexivity|]. split.
    + apply updateBetCashOut_bets_ok; [|exact Hok].
      intros b Hb. apply (proj2 Hok). now apply map_get_In.
    + intros k b Hk Hb Hav. cbn in Hav. split.
      * unfold updateBetCashOut.
        destruct (map_get (bet_id x) (bets (storage w))) as [t|]; cbn; [|exact Hk].
        rewrite map_get_set_other; [exact Hk|].
        intros E. apply Hav. left. now rewrite E.
      * cbn. intros H. apply Hav. now right.
Qed.

(* ================================================================== *)
(** ** The microtasks of a tick *)

Lemma drain_O (clock : nat -> Z) (k : nat) (t : bool) (p : AutoCashOuts) (c : Crash)
    (w : World) :
  world (drain 0 clock k t p c w) = w.
Proof. reflexivity. Qed.

(** One turn of the queue. *)
Lemma drain_step (fuel : nat) (clock : nat -> Z) (k : nat) (t : bool)
    (p : AutoCashOuts) (c : Crash) (w : World) :
  world (drain (S fuel) clock k t p c w)
  = match p, c with
    | aco_done, crash_done => w
    | aco_done, _ =>
        world (drain fuel clock (S k) t aco_done
                 (value (resumeCrash (clock k) c w)) (world (resumeCrash (clock k) c w)))
    | _, crash_done =>
        world (drain fuel clock (S k) t
                 (value (resumeAutoCashOuts (clock k) p w)) crash_done
                 (world (resumeAutoCashOuts (clock k) p w)))
    | _, _ =>
        if t
        then world (drain fuel clock (S k) false
                      (value (resumeAutoCashOuts (clock k) p w)) c
                      (world (resumeAutoCashOuts (clock k) p w)))
        else world (drain fuel clock (S k) true p
                      (value (resumeCrash (clock k) c w))
                      (world (resumeCrash (clock k) c w)))
    end.
Proof.
  destruct p, c; try destruct t;
    unfold drain; fold drain; rewrite ?bind_world; reflexivity.
Qed.

Section DrainInvariant.

Variable clock : nat -> Z.
Variable I : AutoCashOuts -> Crash -> World -> Prop.

Hypothesis pass_keeps : forall now p c w,
  I p c w ->
  I (value (resumeAutoCashOuts now p w)) c (world (resumeAutoCashOuts now p w)).

Hypothesis crash_keeps : forall now p c w,
  I p c w ->
  I p (value (resumeCrash now c w)) (world (resumeCrash now c w)).

(** What every stretch keeps, the queue keeps. *)
Lemma drain_inv (fuel : nat) :
  forall k t p c w,
    I p c w -> exists p' c', I p' c' (world (drain fuel clock k t p c w)).
Proof.
  induction fuel as [|fuel IH]; intros k t p c w HI.
  - exists p, c. now rewrite drain_O.
  - rewrite drain_step.
    destruct p, c; try destruct t;
      first [ now (eexists; eexists; exact HI)
            | apply IH; apply pass_keeps; exact HI
            | apply IH; apply crash_keeps; exact HI ].
Qed.

End DrainInvariant.

Section DrainRun.

Variable clock : nat -> Z.
Variable I : AutoCashOuts -> Crash -> World -> Prop.

Hypothesis pass_runs : forall now p c w,
  I p c w -> p <> aco_done ->
  I (value (resumeAutoCashOuts now p w)) c (world (resumeAutoCashOuts now p w))
  /\ (passLeft (value (resumeAutoCashOuts now p w)) < passLeft p)%nat.

Hypothesis crash_runs : forall now p c w,
  I p c w -> c <> crash_done ->
  I p (value (resumeCrash now c w)) (world (resumeCrash now c w))
  /\ (crashLeft (value (resumeCrash now c w)) < crashLeft c)%nat.

(** With a turn for every stretch that is left, the queue runs dry. *)
Lemma drain_run (fuel : nat) :
  forall k t p c w,
    I p c w -> (passLeft p + crashLeft c <= fuel)%nat ->
    I aco_done crash_done (world (drain fuel clock k t p c w)).
Proof.
  induction fuel as [|fuel IH]; intros k t p c w HI Hfuel.
  - rewrite drain_O.
    destruct p; cbn in Hfuel; try lia; destruct c; cbn in Hfuel; try lia. exact HI.
  - rewrite drain_step.
    assert (Hp : p <> aco_done ->
                 forall t', I aco_done crash_done
                   (world (drain fuel clock (S k) t'
                             (value (resumeAutoCashOuts (clock k) p w)) c
                             (world (resumeAutoCashOuts (clock k) p w))))).
    { intros Hne t'. destruct (pass_runs (clock k) p c w HI Hne) as [HI' Hlt].
      apply IH; [exact HI' | lia]. }
    assert (Hc : c <> crash_done ->
                 forall t', I aco_done crash_done
                   (world (drain fuel clock (S k) t' p (value (resumeCrash (clock k) c w))
                             (world (resumeCrash (clock k) c w))))).
    { intros Hne t'. destruct (crash_runs (clock k) p c w HI Hne) as [HI' Hlt].
      apply IH; [exact HI' | lia]. }
    destruct p, c; try destruct t;
      first [ exact HI | apply Hp; discriminate | apply Hc; discriminate ].
Qed.

End DrainRun.

Local Open Scope step_scope.

(** *** A pass with no crash beside it *)

Lemma drain_pass (fuel : nat) (clock : nat -> Z) (k : nat) (t : bool) (p : AutoCashOuts)
    (w : World) :
  p <> aco_done ->
  world (drain (S fuel) clock k t p crash_done w)
  = world (drain fuel clock (S k) t (value (resumeAutoCashOuts (clock k) p w)) crash_done
             (world (resumeAutoCashOuts (clock k) p w))).
Proof. intros Hne. rewrite drain_step. destruct p; (reflexivity || congruence). Qed.

Lemma drain_done (fuel : nat) (clock : nat -> Z) (k : nat) (t : bool) (w : World) :
  world (drain fuel clock k t aco_done crash_done w) = w.
Proof. destruct fuel; [reflexivity | now rewrite drain_step]. Qed.

Lemma cashOutBet_bets_ok (bid uid mult : string) (now : Z) (w : World) :
  bets_ok (bets (storage w)) ->
  bets_ok (bets (storage (world (cashOutBet bid uid mult now w)))).
Proof.
  intros Hok. unfold cashOutBet. mstep.
  destruct (find _ _) as [t|] eqn:Hfind; [|exact Hok].
  apply find_some in Hfind. destruct Hfind as [Hin Hp].
  apply andb_prop in Hp. destruct Hp as [Ht _]. apply String.eqb_eq in Ht.
  unfold getBetsByUserId in Hin. apply filter_In in Hin. destruct Hin as [Hin _].
  pose proof (bets_ok_value _ _ Hok Hin) as Hget. rewrite Ht in Hget.
  mstep. rewrite (updateBetCashOut_bets _ _ _ _ _ _ Hget).
  destruct (getUser uid _) as [u|]; mstep;
    rewrite ?(proj1 (updateUserBalance_bets _ _ _)); cbn;
    now apply bets_ok_set.
Qed.

Lemma getActiveBetsByGameId_length (gid : string) (st : MemStorage) :
  (List.length (getActiveBetsByGameId gid st) <= List.length (bets st))%nat.
Proof.
  unfold getActiveBetsByGameId, map_values.
  etransitivity; [apply filter_length_le|]. now rewrite length_map.
Qed.

(** *** The flying tick *)

Lemma flyingTick_idle (now now' : Z) (clock : nat -> Z) (w : World) :
  gameTimer (engine w) = None
  \/ currentGame (engine w) = None
  \/ (exists g, currentGame (engine w) = Some g /\ phase g <> flying) ->
  flyingTick now now' clock w = mkOut tt w [].
Proof.
  intros H. unfold flyingTick, bind, this. cbn.
  destruct (gameTimer (engine w)) as [endT|]; [|reflexivity].
  destruct (currentGame (engine w)) as [g|]; [|reflexivity].
  destruct H as [H | [H | [g' [[= <-] H]]]]; try discriminate.
  destruct (phase g); cbn; try reflexivity. now contradiction H.
Qed.

Lemma resumeAutoCashOuts_bets_ok (now : Z) (p : AutoCashOuts) (w : World) :
  bets_ok (bets (storage w)) ->
  bets_ok (bets (storage (world (resumeAutoCashOuts now p w)))).
Proof.
  intros Hok. destruct (resumeAutoCashOuts_effect now p w Hok) as [_ [_ Hb]].
  destruct Hb as [-> | [bid [t [mult [Hget [_ ->]]]]]]; [exact Hok|].
  apply bets_ok_set; [|exact Hok]. cbn. apply (proj2 Hok). now apply map_get_In.
Qed.

Lemma resumeAutoCashOuts_keeps (now : Z) (p : AutoCashOuts) (w : World) (k : string) (b : Bet) :
  bets_ok (bets (storage w)) ->
  map_get k (bets (storage w)) = Some b ->
  isActive b = false ->
  map_get k (bets (storage (world (resumeAutoCashOuts now p w)))) = Some b.
Proof.
  intros Hok Hget Hset. destruct (resumeAutoCashOuts_effect now p w Hok) as [_ [_ Hb]].
  destruct Hb as [-> | [bid [t [mult [Hbid [Hact ->]]]]]]; [exact Hget|].
  rewrite map_get_set_other; [exact Hget|]. intros ->. congruence.
Qed.

(** The queue leaves the bet table well formed. *)
Lemma drain_bets_ok (fuel : nat) (clock : nat -> Z) (k : nat) (t : bool)
    (p : AutoCashOuts) (c : Crash) (w : World) :
  bets_ok (bets (storage w)) ->
  bets_ok (bets (storage (world (drain fuel clock k t p c w)))).
Proof.
  intros Hok.
  destruct (drain_inv clock (fun _ _ w' => bets_ok (bets (storage w')))) with
    (fuel := fuel) (k := k) (t := t) (p := p) (c := c) (w := w) as [_ [_ H]].
  - intros t0 p0 c0 w0 H1. now apply resumeAutoCashOuts_bets_ok.
  - intros t0 p0 c0 w0 H1. now destruct (resumeCrash_effect t0 c0 w0 H1) as [_ [_ [Hok' _]]].
  - exact Hok.
  - exact H.
Qed.

(** The queue leaves a settled bet alone, unless the sweep has it listed. *)
Lemma drain_keeps (fuel : nat) (clock : nat -> Z) (i : nat) (t : bool)
    (p : AutoCashOuts) (c : Crash) (w : World) (k : string) (b : Bet) :
  bets_ok (bets (storage w)) ->
  map_get k (bets (storage w)) = Some b ->
  isActive b = false ->
  crash_avoids k c ->
  map_get k (bets (storage (world (drain fuel clock i t p c w)))) = Some b.
Proof.
  intros Hok Hget Hset Hav.
  destruct (drain_inv clock
    (fun _ c' w' => bets_ok (bets (storage w'))
                    /\ map_get k (bets (storage w')) = Some b
                    /\ crash_avoids k c')) with
    (fuel := fuel) (k := i) (t := t) (p := p) (c := c) (w := w) as [_ [_ [_ [H _]]]].
  - intros t0 p0 c0 w0 [H1 [H2 H3]].
    split; [now apply resumeAutoCashOuts_bets_ok|].
    split; [now apply resumeAutoCashOuts_keeps | exact H3].
  - intros t0 p0 c0 w0 [H1 [H2 H3]].
    destruct (resumeCrash_effect t0 c0 w0 H1) as [_ [_ [Hok' Hk]]].
    split; [exact Hok'|]. now apply Hk.
  - split; [exact Hok | split; [exact Hget | exact Hav]].
  - exact H.
Qed.

Lemma resumeAutoCashOuts_engine (now : Z) (p : AutoCashOuts) (w : World) :
  engine (world (resumeAutoCashOuts now p w)) = engine w.
Proof.
  unfold resumeAutoCashOuts.
  destruct p as [ | [gdb|] | rest | bid uid mult refs rest | bid uid mult win rest
                | bid uid mult win [|] rest | bid uid mult win rest ]; mstep;
    try reflexivity.
  - now rewrite autoCashOutLoop_storage.
  - destruct (find _ _); mstep; reflexivity.
  - destruct (getUser uid (storage w)); mstep; reflexivity.
Qed.

Lemma resumeCrash_engine (now : Z) (c : Crash) (w : World) :
  currentGame (engine (world (resumeCrash now c w))) = currentGame (engine w)
  /\ gameTimer (engine (world (resumeCrash now c w))) = gameTimer (engine w).
Proof.
  assert (Hsw : forall cm gdb,
            currentGame (engine (world (crashSweep cm gdb w))) = currentGame (engine w)
            /\ gameTimer (engine (world (crashSweep cm gdb w))) = gameTimer (engine w)).
  { intros cm gdb. destruct (crashSweep_effect cm gdb w) as [_ [Hg [Ht _]]]. now split. }
  unfold resumeCrash.
  destruct c as [ | cm gdb | cm gdb | cm [|x rest] ]; mstep; try (now split); try apply Hsw.
  - destruct gdb as [g0|]; [|apply Hsw].
    destruct (match currentGame (engine w) with Some g => truthy (salt g) | None => None end);
      mstep; [now split | apply Hsw].
  - destruct (crashEnd_effect cm w) as [-> _]. now split.
Qed.

(** The queue leaves the round and the flying interval as it finds them. *)
Lemma drain_game (fuel : nat) (clock : nat -> Z) (k : nat) (t : bool)
    (p : AutoCashOuts) (c : Crash) (w : World) :
  currentGame (engine (world (drain fuel clock k t p c w))) = currentGame (engine w)
  /\ gameTimer (engine (world (drain fuel clock k t p c w))) = gameTimer (engine w).
Proof.
  destruct (drain_inv clock
    (fun _ _ w' => currentGame (engine w') = currentGame (engine w)
                   /\ gameTimer (engine w') = gameTimer (engine w))) with
    (fuel := fuel) (k := k) (t := t) (p := p) (c := c) (w := w) as [_ [_ H]].
  - intros t0 p0 c0 w0 [H2 H3]. now rewrite resumeAutoCashOuts_engine.
  - intros t0 p0 c0 w0 [H2 H3].
    destruct (resumeCrash_engine t0 c0 w0) as [Hg Ht]. now rewrite Hg, Ht.
  - now split.
  - exact H.
Qed.

Lemma crashGame_call (w : World) (g : GameState) :
  currentGame (engine w) = Some g ->
  phase g = flying ->
  crashGame w
  = mkOut (crash_game (multiplier g) (getGameByRoundId (roundId g) (storage w)))
      (mkWorld (storage w)
         (with_game (Some (set_phase crashed g)) (with_gameTimer None (engine w))))
      [].
Proof.
  intros Hg Hp. unfold crashGame, bind, this, set_this, query, ret. cbn.
  rewrite Hg, Hp. reflexivity.
Qed.

(** The world a running tick hands to the microtask queue. *)
Lemma flyingTick_world (now now' : Z) (clock : nat -> Z) (w : World) (endT : number) (g : GameState) :
  gameTimer (engine w) = Some endT ->
  currentGame (engine w) = Some g ->
  phase g = flying ->
  let m := tickMultiplier (nsub (num now) (num (startTime g))) in
  let g1 := set_multiplier m g in
  let w1 := mkWorld (storage w) (with_game (Some g1) (engine w)) in
  let p := aco_game (getGameByRoundId (roundId g1) (storage w)) in
  let fuel := drainFuel (storage w) in
  world (flyingTick now now' clock w)
  = if nge (num now') endT
    then world (drain fuel clock 0 true p
                  (crash_game m (getGameByRoundId (roundId g1) (storage w)))
                  (mkWorld (storage w)
                     (with_game (Some (set_phase crashed g1))
                        (with_gameTimer None (engine w1)))))
    else world (drain fuel clock 0 true p crash_done w1).
Proof.
  intros Ht Hg Hp m g1 w1 p fuel. unfold flyingTick. mstep. rewrite Ht, Hg, Hp.
  cbn [Phase_eqb negb]. mstep. fold m. fold g1. fold w1.
  unfold processAutoCashOuts. mstep. cbn [w1 engine with_game currentGame]. mstep.
  destruct (nge (num now') endT); mstep; [|reflexivity].
  rewrite (crashGame_call _ g1) by (reflexivity || exact Hp). reflexivity.
Qed.

(** After a tick that runs, the round carries the multiplier computed from
    the tick's first clock reading, whether or not the tick also crashes it. *)
Lemma flyingTick_game (now now' : Z) (clock : nat -> Z) (w : World) (endT : number) (g : GameState) :
  gameTimer (engine w) = Some endT ->
  currentGame (engine w) = Some g ->
  phase g = flying ->
  let m := tickMultiplier (nsub (num now) (num (startTime g))) in
  currentGame (engine (world (flyingTick now now' clock w)))
  = Some (set_phase (if nge (num now') endT then crashed else flying) (set_multiplier m g)).
Proof.
  intros Ht Hg Hp m. rewrite (flyingTick_world now now' clock w endT g Ht Hg Hp). fold m.
  destruct (nge (num now') endT); rewrite (proj1 (drain_game _ _ _ _ _ _ _)).
  - reflexivity.
  - cbn. unfold set_phase, set_multiplier. cbn. now rewrite <- Hp.
Qed.

Lemma flyingTick_bets_ok (now now' : Z) (clock : nat -> Z) (w : World) :
  bets_ok (bets (storage w)) ->
  bets_ok (bets (storage (world (flyingTick now now' clock w)))).
Proof.
  intros Hok.
  destruct (gameTimer (engine w)) as [endT|] eqn:Ht;
    [|now rewrite flyingTick_idle by now left].
  destruct (currentGame (engine w)) as [g|] eqn:Hg;
    [|now rewrite flyingTick_idle by (right; now left)].
  assert (Hp : phase g = flying \/ phase g <> flying)
    by (destruct (phase g); (now left) || (right; discriminate)).
  destruct Hp as [Hp | Hp];
    [|rewrite flyingTick_idle; [exact Hok | right; right; now exists g]].
  rewrite (flyingTick_world now now' clock w endT g Ht Hg Hp).
  destruct (nge (num now') endT);
    match goal with
    | |- context [drain ?f ?a ?b ?t ?p ?c ?W] =>
        exact (drain_bets_ok f a b t p c W Hok)
    end.
Qed.

(** A tick leaves a settled bet as it is. *)
Lemma flyingTick_keeps (now now' : Z) (clock : nat -> Z) (w : World) (k : string) (b0 : Bet) :
  bets_ok (bets (storage w)) ->
  map_get k (bets (storage w)) = Some b0 ->
  isActive b0 = false ->
  map_get k (bets (storage (world (flyingTick now now' clock w)))) = Some b0.
Proof.
  intros Hok Hget Hset.
  destruct (gameTimer (engine w)) as [endT|] eqn:Ht;
    [|now rewrite flyingTick_idle by now left].
  destruct (currentGame (engine w)) as [g|] eqn:Hg;
    [|now rewrite flyingTick_idle by (right; now left)].
  assert (Hp : phase g = flying \/ phase g <> flying)
    by (destruct (phase g); (now left) || (right; discriminate)).
  destruct Hp as [Hp | Hp];
    [|rewrite flyingTick_idle; [exact Hget | right; right; now exists g]].
  rewrite (flyingTick_world now now' clock w endT g Ht Hg Hp).
  destruct (nge (num now') endT);
    match goal with
    | |- context [drain ?f ?a ?b ?t ?p ?c ?W] =>
        exact (drain_keeps f a b t p c W k b0 Hok Hget Hset Logic.I)
    end.
Qed.

(** *** The sweep of a crashing tick *)

Lemma autoCashOutLoop_left (l : list Bet) (w : World) :
  pass_listed (value (autoCashOutLoop l w))
  /\ (passLeft (value (autoCashOutLoop l w)) <= 5 * List.length l)%nat.
Proof.
  induction l as [|x l IH]; [cbn; split; [exact Logic.I | lia]|].
  assert (Hskip : pass_listed (value (autoCashOutLoop l w))
                  /\ (passLeft (value (autoCashOutLoop l w)) <= 5 * List.length (x :: l))%nat).
  { split; [apply IH|]. cbn [List.length]. destruct IH as [_ IH]. lia. }
  cbn [autoCashOutLoop]. mstep.
  destruct (currentGame (engine w)) as [g|]; [|exact Hskip].
  destruct (truthy (autoCashOut x)) as [a|]; [|exact Hskip].
  destruct (nle (parseFloat a) (multiplier g)); [|exact Hskip].
  mstep. cbn [passLeft pass_listed List.length]. split; [exact Logic.I | lia].
Qed.

(** Every stretch of a pass that has its list brings it nearer its end. *)
Lemma resumeAutoCashOuts_left (now : Z) (p : AutoCashOuts) (w : World) :
  pass_listed p -> p <> aco_done ->
  pass_listed (value (resumeAutoCashOuts now p w))
  /\ (passLeft (value (resumeAutoCashOuts now p w)) < passLeft p)%nat.
Proof.
  intros Hp Hne. unfold resumeAutoCashOuts.
  destruct p as [ | gdb | rest | bid uid mult refs rest | bid uid mult win rest
                | bid uid mult win [|] rest | bid uid mult win rest ];
    try contradiction; try congruence; mstep;
    try (cbn [passLeft pass_listed]; split; [exact Logic.I | lia]).
  - destruct (autoCashOutLoop_left rest w) as [H1 H2]. split; [exact H1|].
    cbn [passLeft]. lia.
  - destruct (find _ _); mstep; cbn [passLeft pass_listed]; split; (exact Logic.I || lia).
Qed.

(** Once the crash has listed the active bets, whatever the pass beside it
    does, each of them ends as the sweep writes it. *)
Lemma drain_sweeps (clock : nat -> Z) (L : list Bet) (cm : number) :
  forall fuel k t p w,
    (passLeft p + (1 + List.length L) <= fuel)%nat ->
    pass_listed p ->
    bets_ok (bets (storage w)) ->
    (forall x, In x L -> map_get (bet_id x) (bets (storage w)) = Some x) ->
    forall x, In x L ->
      exists s,
        map_get (bet_id x) (bets (storage (world (drain fuel clock k t p (crash_sweep cm L) w))))
        = Some (swept x s).
Proof.
  intros fuel k t p w Hfuel Hp Hok HL.
  pose (I := fun (p0 : AutoCashOuts) (c0 : Crash) (w0 : World) =>
    pass_listed p0 /\ crash_listed c0 /\ bets_ok (bets (storage w0))
    /\ forall x, In x L ->
         exists r, map_get (bet_id x) (bets (storage w0)) = Some r
                   /\ (forall s, swept r s = swept x s)
                   /\ ((exists s, r = swept x s) \/ crash_pending x c0)).
  assert (Hrun : I aco_done crash_done
                   (world (drain fuel clock k t p (crash_sweep cm L) w))).
  { apply (drain_run clock I).
    - (* a stretch of the pass *)
      intros now p0 c0 w0 [Hp0 [Hc0 [Hok0 Hx0]]] Hne.
      destruct (resumeAutoCashOuts_left now p0 w0 Hp0 Hne) as [Hp1 Hlt].
      split; [|exact Hlt].
      split; [exact Hp1|]. split; [exact Hc0|].
      split; [now apply resumeAutoCashOuts_bets_ok|].
      intros x Hx. destruct (Hx0 x Hx) as [r [Hr [Hq Hd]]].
      destruct (resumeAutoCashOuts_effect now p0 w0 Hok0) as [_ [_ Hb]].
      destruct Hb as [-> | [bid [t0 [mult [Hbid [Hact ->]]]]]];
        [now exists r|].
      destruct (String.eqb (bet_id x) bid) eqn:E.
      + apply String.eqb_eq in E. rewrite E in *. rewrite Hbid in Hr. injection Hr as <-.
        exists (settled t0 mult (payout t0 mult) now). rewrite map_get_set_same.
        split; [reflexivity|]. split; [exact Hq|].
        right. destruct Hd as [[s Hd] | Hd]; [|exact Hd].
        rewrite Hd in Hact. discriminate.
      + apply String.eqb_neq in E. exists r. rewrite map_get_set_other by exact E.
        now repeat split.
    - (* a stretch of the crash *)
      intros now p0 c0 w0 [Hp0 [Hc0 [Hok0 Hx0]]] Hne.
      unfold resumeCrash.
      destruct c0 as [ | cm0 gdb0 | cm0 gdb0 | cm0 [|y rest] ];
        try contradiction; try congruence.
      + destruct (crashEnd_effect cm0 w0) as [-> ->]. cbn [crashLeft List.length storage].
        split; [|lia].
        split; [exact Hp0|]. split; [exact Logic.I|]. split; [exact Hok0|].
        intros x Hx. destruct (Hx0 x Hx) as [r [Hr [Hq Hd]]]. exists r.
        split; [exact Hr|]. split; [exact Hq|]. left.
        destruct Hd as [Hd | []]. exact Hd.
      + mstep. cbn [crashLeft List.length]. split; [|lia].
        split; [exact Hp0|]. split; [exact Logic.I|].
        split.
        { apply updateBetCashOut_bets_ok; [|exact Hok0].
          intros b Hb. apply (proj2 Hok0). now apply map_get_In. }
        intros x Hx. destruct (Hx0 x Hx) as [r [Hr [Hq Hd]]].
        destruct (String.eqb (bet_id x) (bet_id y)) eqn:E.
        * apply String.eqb_eq in E. rewrite <- E.
          rewrite (updateBetCashOut_bets _ _ _ _ _ _ Hr). cbn [storage bets set_bets].
          exists (swept x now). rewrite map_get_set_same. fold (swept r now).
          rewrite Hq. split; [reflexivity|]. split; [reflexivity | left; now exists now].
        * apply String.eqb_neq in E. exists r.
          split.
          { unfold updateBetCashOut.
            destruct (map_get (bet_id y) (bets (storage w0))); cbn [storage bets set_bets];
              [now rewrite map_get_set_other | exact Hr]. }
          split; [exact Hq|].
          destruct Hd as [Hd | Hd]; [now left | right].
          cbn in Hd |- *. destruct Hd as [-> | Hd]; [congruence | exact Hd].
    - (* at the start *)
      split; [exact Hp|]. split; [exact Logic.I|]. split; [exact Hok|].
      intros x Hx. exists x. split; [now apply HL|]. split; [reflexivity|]. now right.
    - cbn [crashLeft]. lia. }
  intros x Hx. destruct Hrun as [_ [_ [_ Hfin]]].
  destruct (Hfin x Hx) as [r [Hr [_ [[s ->] | []]]]]. now exists s.
Qed.

Lemma getActiveBetsByGameId_ext (gid : string) (st1 st2 : MemStorage) :
  bets st1 = bets st2 -> getActiveBetsByGameId gid st1 = getActiveBetsByGameId gid st2.
Proof. unfold getActiveBetsByGameId. now intros ->. Qed.

(** When it is not the pass's turn, a crash that is not done runs. *)
Lemma drain_crash_turn (fuel : nat) (clock : nat -> Z) (k : nat) (p : AutoCashOuts)
    (c : Crash) (w : World) :
  c <> crash_done ->
  exists t,
    world (drain (S fuel) clock k false p c w)
    = world (drain fuel clock (S k) t p (value (resumeCrash (clock k) c w))
               (world (resumeCrash (clock k) c w))).
Proof.
  intros Hne. rewrite drain_step.
  destruct p; destruct c; try congruence;
    first [ now exists false | now exists true ].
Qed.

(** The tick that ends a round: every bet of the round that is active
    when the tick fires ends as the sweep writes it. *)
Lemma flyingTick_sweeps (now now' : Z) (clock : nat -> Z) (w : World) (endT : number)
    (g : GameState) (gdb : Game) :
  gameTimer (engine w) = Some endT ->
  currentGame (engine w) = Some g ->
  phase g = flying ->
  nge (num now') endT = true ->
  getGameByRoundId (roundId g) (storage w) = Some gdb ->
  bets_ok (bets (storage w)) ->
  forall x,
    map_get (bet_id x) (bets (storage w)) = Some x ->
    gameId x = game_id gdb ->
    isActive x = true ->
    exists s,
      map_get (bet_id x) (bets (storage (world (flyingTick now now' clock w))))
      = Some (swept x s).
Proof.
  intros Ht Hg Hp Hend Hdb Hok x Hget Hgid Hact.
  rewrite (flyingTick_world now now' clock w endT g Ht Hg Hp). rewrite Hend.
  cbn [roundId set_multiplier]. rewrite Hdb.
  set (m := tickMultiplier (nsub (num now) (num (startTime g)))).
  set (L := getActiveBetsByGameId (game_id gdb) (storage w)).
  destruct (activeBets_facts (game_id gdb) (storage w) Hok) as [_ HL].
  assert (HxL : In x L) by (apply HL; tauto).
  assert (HLget : forall y, In y L -> map_get (bet_id y) (bets (storage w)) = Some y)
    by (intros y Hy; now apply HL).
  pose proof (getActiveBetsByGameId_length (game_id gdb) (storage w)) as Hlen. fold L in Hlen.
  unfold drainFuel. cbn [Nat.add].
  (* the pass lists the bets *)
  rewrite drain_step. cbv iota.
  unfold resumeAutoCashOuts at 1 2. mstep. fold L.
  (* the crash records the round, or lists the bets *)
  rewrite drain_step. cbv iota.
  unfold resumeCrash at 1 2. mstep. cbn [with_game with_gameTimer currentGame].
  cbn [salt set_phase set_multiplier].
  destruct (truthy (salt g)) as [s|]; mstep.
  - (* recorded: the pass moves on, then the crash lists the bets *)
    rewrite drain_step. cbv iota.
    match goal with
    | |- context [resumeAutoCashOuts ?t (aco_bets L) ?W] =>
        pose proof (resumeAutoCashOuts_left t (aco_bets L) W Logic.I ltac:(discriminate))
          as [Hp3 Hlt3];
        rewrite (autoCashOutLoop_storage L W : world (resumeAutoCashOuts t (aco_bets L) W) = W);
        revert Hp3 Hlt3;
        generalize (value (resumeAutoCashOuts t (aco_bets L) W))
    end.
    intros p3 Hp3 Hlt3. cbn [passLeft] in Hlt3.
    match goal with
    | |- context [drain (S ?f) clock ?i false p3 ?c ?W] =>
        destruct (drain_crash_turn f clock i p3 c W ltac:(discriminate)) as [t' ->]
    end.
    unfold resumeCrash, crashSweep. mstep.
    rewrite (getActiveBetsByGameId_ext (game_id gdb) _ (storage w))
      by apply updateGameCrash_bets.
    fold L. apply drain_sweeps; try assumption.
    + lia.
    + cbn [storage]. now rewrite updateGameCrash_bets.
    + intros y Hy. cbn [storage]. rewrite updateGameCrash_bets. now apply HLget.
  - (* not recorded: the crash has listed the bets *)
    unfold crashSweep. mstep. fold L. apply drain_sweeps; try assumption.
    + cbn [passLeft]. lia.
    + exact Logic.I.
Qed.

(** *** The fuel of the queue *)

Lemma bind_ext_at {A B : Type} (m : M A) (f g : A -> M B) (w : World) :
  f (value (m w)) (world (m w)) = g (value (m w)) (world (m w)) ->
  bind m f w = bind m g w.
Proof. unfold bind. destruct (m w) as [a w1 e1]. cbn. now intros ->. Qed.

Lemma map_set_length {V : Type} (k : string) (v v0 : V) (m : jsmap V) :
  map_get k m = Some v0 -> List.length (map_set k v m) = List.length m.
Proof.
  induction m as [|[k' v'] m IH]; cbn; [discriminate|].
  destruct (String.eqb k k'); cbn; [reflexivity|]. intros H. now rewrite IH.
Qed.

Lemma updateBetCashOut_length (bid c win : string) (now : Z) (st : MemStorage) :
  List.length (bets (updateBetCashOut bid c win now st)) = List.length (bets st).
Proof.
  unfold updateBetCashOut. destruct (map_get bid (bets st)) as [b|] eqn:E; [|reflexivity].
  cbn. now apply (map_set_length _ _ b).
Qed.

Lemma resumeAutoCashOuts_length (now : Z) (p : AutoCashOuts) (w : World) :
  List.length (bets (storage (world (resumeAutoCashOuts now p w))))
  = List.length (bets (storage w)).
Proof.
  unfold resumeAutoCashOuts.
  destruct p as [ | [gdb|] | rest | bid uid mult refs rest | bid uid mult win rest
                | bid uid mult win [|] rest | bid uid mult win rest ]; mstep;
    try reflexivity.
  - now rewrite autoCashOutLoop_storage.
  - destruct (find _ _); mstep; [apply updateBetCashOut_length | reflexivity].
  - destruct (getUser uid (storage w)); mstep; [|reflexivity].
    now rewrite (proj1 (updateUserBalance_bets _ _ _)).
Qed.

Lemma resumeCrash_length (now : Z) (c : Crash) (w : World) :
  List.length (bets (storage (world (resumeCrash now c w))))
  = List.length (bets (storage w)).
Proof.
  assert (Hsw : forall cm gdb,
            List.length (bets (storage (world (crashSweep cm gdb w))))
            = List.length (bets (storage w))).
  { intros cm gdb. now rewrite (proj1 (crashSweep_effect cm gdb w)). }
  unfold resumeCrash.
  destruct c as [ | cm gdb | cm gdb | cm [|x rest] ]; mstep; try reflexivity; try apply Hsw.
  - destruct gdb as [g0|]; [|apply Hsw].
    destruct (match currentGame (engine w) with Some g => truthy (salt g) | None => None end);
      mstep; [now rewrite updateGameCrash_bets | apply Hsw].
  - now destruct (crashEnd_effect cm w) as [-> _].
  - apply updateBetCashOut_length.
Qed.

Lemma passLeftAt_listed (st : MemStorage) (p : AutoCashOuts) :
  pass_listed p -> passLeftAt st p = passLeft p.
Proof. now destruct p. Qed.

Lemma resumeAutoCashOuts_leftAt (now : Z) (p : AutoCashOuts) (w : World) :
  p <> aco_done ->
  (passLeftAt (storage (world (resumeAutoCashOuts now p w))) (value (resumeAutoCashOuts now p w))
   < passLeftAt (storage w) p)%nat.
Proof.
  intros Hne.
  destruct p as [ | gdb | rest | bid uid mult refs rest | bid uid mult win rest
                | bid uid mult win u rest | bid uid mult win rest ];
    try congruence;
    try (match goal with
         | |- context [resumeAutoCashOuts now ?p w] =>
             destruct (resumeAutoCashOuts_left now p w Logic.I Hne) as [Hl Hlt];
             rewrite (passLeftAt_listed _ _ Hl); exact Hlt
         end).
  unfold resumeAutoCashOuts. destruct gdb as [gdb|]; mstep; cbn [passLeftAt passLeft].
  - pose proof (getActiveBetsByGameId_length (game_id gdb) (storage w)). lia.
  - lia.
Qed.

Lemma crashSweep_left (cm : number) (gdb : option Game) (w : World) :
  (crashLeftAt (storage (world (crashSweep cm gdb w))) (value (crashSweep cm gdb w))
   <= 1 + List.length (bets (storage w)))%nat.
Proof.
  destruct (crashSweep_effect cm gdb w) as [_ [_ [_ ->]]].
  destruct gdb as [g0|]; cbn [crashLeftAt crashLeft]; [|lia].
  pose proof (getActiveBetsByGameId_length (game_id g0) (storage w)). lia.
Qed.

Lemma resumeCrash_leftAt (now : Z) (c : Crash) (w : World) :
  c <> crash_done ->
  (crashLeftAt (storage (world (resumeCrash now c w))) (value (resumeCrash now c w))
   < crashLeftAt (storage w) c)%nat.
Proof.
  intros Hne. unfold resumeCrash.
  destruct c as [ | cm gdb | cm gdb | cm [|x rest] ]; try congruence; mstep;
    cbn [crashLeftAt crashLeft List.length].
  - destruct gdb as [g0|].
    + destruct (match currentGame (engine w) with Some g => truthy (salt g) | None => None end);
        mstep.
      * cbn [crashLeftAt]. rewrite updateGameCrash_bets. lia.
      * pose proof (crashSweep_left cm (Some g0) w). lia.
    + pose proof (crashSweep_left cm None w).
      destruct (match currentGame (engine w) with Some g => truthy (salt g) | None => None end);
        lia.
  - pose proof (crashSweep_left cm (Some gdb) w). lia.
  - destruct (crashEnd_effect cm w) as [_ ->]. cbn. lia.
  - lia.
Qed.

Lemma passLeftAt_length (st st' : MemStorage) (p : AutoCashOuts) :
  List.length (bets st') = List.length (bets st) -> passLeftAt st' p = passLeftAt st p.
Proof. intros H. destruct p; cbn; now rewrite ?H. Qed.

Lemma crashLeftAt_length (st st' : MemStorage) (c : Crash) :
  List.length (bets st') = List.length (bets st) -> crashLeftAt st' c = crashLeftAt st c.
Proof. intros H. destruct c; cbn; now rewrite ?H. Qed.

(** With a turn for every stretch that is left the queue runs dry: more
    fuel changes nothing, neither in the world nor in the events. *)
Lemma drain_enough (clock : nat -> Z) (extra : nat) (fuel : nat) :
  forall k t p c w,
    (passLeftAt (storage w) p + crashLeftAt (storage w) c <= fuel)%nat ->
    drain (fuel + extra) clock k t p c w = drain fuel clock k t p c w.
Proof.
  induction fuel as [|fuel IH]; intros k t p c w Hfuel.
  - destruct p; cbn in Hfuel; try lia; destruct c; cbn in Hfuel; try lia.
    now destruct extra.
  - assert (Hp : p <> aco_done -> forall t',
              drain (fuel + extra) clock (S k) t' (value (resumeAutoCashOuts (clock k) p w)) c
                (world (resumeAutoCashOuts (clock k) p w))
              = drain fuel clock (S k) t' (value (resumeAutoCashOuts (clock k) p w)) c
                  (world (resumeAutoCashOuts (clock k) p w))).
    { intros Hne t'. apply IH.
      pose proof (resumeAutoCashOuts_leftAt (clock k) p w Hne).
      rewrite (crashLeftAt_length (storage w)) by apply resumeAutoCashOuts_length. lia. }
    assert (Hc : c <> crash_done -> forall t',
              drain (fuel + extra) clock (S k) t' p (value (resumeCrash (clock k) c w))
                (world (resumeCrash (clock k) c w))
              = drain fuel clock (S k) t' p (value (resumeCrash (clock k) c w))
                  (world (resumeCrash (clock k) c w))).
    { intros Hne t'. apply IH.
      pose proof (resumeCrash_leftAt (clock k) c w Hne).
      rewrite (passLeftAt_length (storage w)) by apply resumeCrash_length. lia. }
    cbn [Nat.add]. unfold drain; fold drain.
    destruct p, c; try destruct t;
      first [ reflexivity
            | apply bind_ext_at; apply Hp; discriminate
            | apply bind_ext_at; apply Hc; discriminate ].
Qed.

(** The tick hands the queue a pass and a crash that stand at their first
    [await]; the fuel it gives them is enough. *)
Lemma drainFuel_enough (clock : nat -> Z) (k : nat) (t : bool) (p : AutoCashOuts) (c : Crash)
    (w : World) (extra : nat) :
  (p = aco_done \/ exists gdb, p = aco_game gdb) ->
  (c = crash_done \/ exists cm gdb, c = crash_game cm gdb) ->
  drain (drainFuel (storage w) + extra) clock k t p c w
  = drain (drainFuel (storage w)) clock k t p c w.
Proof.
  intros Hp Hc. apply drain_enough. unfold drainFuel.
  destruct Hp as [-> | [gdb ->]]; destruct Hc as [-> | [cm [gdb' ->]]];
    cbn [passLeftAt crashLeftAt passLeft crashLeft]; lia.
Qed.

(** *** The multiplier curve *)

(** Rounding depends on the value only, not on the fraction that carries
    it. *)
Lemma binade_Qeq (x y : Q) : (0 < x)%Q -> (x == y)%Q -> binade x = binade y.
Proof.
  intros Hx Hxy.
  assert (H1 : binade x <= binade y) by (apply binade_mono; lra).
  assert (H2 : binade y <= binade x) by (apply binade_mono; lra).
  lia.
Qed.

Lemma round_even_Qeq (x y : Q) : (x == y)%Q -> round_even x = round_even y.
Proof.
  intros Hxy.
  assert (H1 : round_even x <= round_even y) by (apply round_even_mono; lra).
  assert (H2 : round_even y <= round_even x) by (apply round_even_mono; lra).
  lia.
Qed.

Lemma nearest_Qeq (x y : Q) : (0 < x)%Q -> (x == y)%Q -> nearest x = nearest y.
Proof.
  intros Hx Hxy. unfold nearest, quantum. rewrite (binade_Qeq x y Hx Hxy).
  f_equal. f_equal. apply round_even_Qeq. now rewrite Hxy.
Qed.

Lemma round64_Qeq (x y : Q) : (x == y)%Q -> round64 x = round64 y.
Proof.
  intros Hxy. unfold round64.
  assert (Hc : Qcompare x 0 = Qcompare y 0) by now rewrite Hxy.
  rewrite <- Hc. cbv zeta. destruct (Qcompare x 0) eqn:C; [reflexivity | |].
  - apply Qlt_alt in C. rewrite (nearest_Qeq (- x) (- y)) by (lra || now rewrite Hxy).
    reflexivity.
  - apply Qgt_alt in C. now rewrite (nearest_Qeq x y) by (lra || assumption).
Qed.

(** The order of [<=] on numbers that are not [NaN]. *)
Lemma nle_refl (a : number) : a <> NaN -> nle a a = true.
Proof. destruct a; try easy. intros _. cbn. apply Qle_bool_iff. lra. Qed.

Lemma nle_not_NaN (a b : number) : nle a b = true -> a <> NaN /\ b <> NaN.
Proof. destruct a, b; cbn; intros H; split; congruence. Qed.

Lemma inf_of_sign_pos (c : Q) : (0 < c)%Q -> Qsgn c = Gt.
Proof. intros H. unfold Qsgn. now apply Qgt_alt. Qed.

(** Each operation of the curve keeps the order: dividing and multiplying
    by a positive constant, adding a constant, [Math.round]. *)
Lemma ndiv_mono (a b : number) (c : Q) :
  (0 < c)%Q -> nle a b = true -> nle (ndiv a (Fin c)) (ndiv b (Fin c)) = true.
Proof.
  intros Hc Hab. pose proof (inf_of_sign_pos c Hc) as Hs.
  destruct a as [ | | | x], b as [ | | | y]; cbn in Hab |- *; try easy; rewrite ?Hs; try easy.
  - pose proof (round64_not_NaN (y / c)). now destruct (round64 (y / c)).
  - pose proof (round64_not_NaN (x / c)). now destruct (round64 (x / c)).
  - apply round64_mono. apply Qle_bool_iff in Hab.
    unfold Qdiv. apply Qmult_le_compat_r; [exact Hab|].
    apply Qlt_le_weak. now apply Qinv_lt_0_compat.
Qed.

Lemma nmul_mono (a b : number) (c : Q) :
  (0 < c)%Q -> nle a b = true -> nle (nmul a (Fin c)) (nmul b (Fin c)) = true.
Proof.
  intros Hc Hab. pose proof (inf_of_sign_pos c Hc) as Hs.
  destruct a as [ | | | x], b as [ | | | y]; cbn in Hab |- *; try easy; rewrite ?Hs;
    cbn [CompOpp inf_of_sign nle]; try easy.
  - pose proof (round64_not_NaN (y * c)). now destruct (round64 (y * c)).
  - pose proof (round64_not_NaN (x * c)). now destruct (round64 (x * c)).
  - apply round64_mono. apply Qle_bool_iff in Hab.
    apply Qmult_le_compat_r; [exact Hab | lra].
Qed.

Lemma nadd_mono (a b : number) (c : Q) :
  nle a b = true -> nle (nadd (Fin c) a) (nadd (Fin c) b) = true.
Proof.
  intros Hab.
  destruct a as [ | | | x], b as [ | | | y]; cbn in Hab |- *; try easy.
  - pose proof (round64_not_NaN (c + y)). now destruct (round64 (c + y)).
  - pose proof (round64_not_NaN (c + x)). now destruct (round64 (c + x)).
  - apply round64_mono. apply Qle_bool_iff in Hab. lra.
Qed.

Lemma Math_round_mono (a b : number) :
  nle a b = true -> nle (Math_round a) (Math_round b) = true.
Proof.
  destruct a as [ | | | x], b as [ | | | y]; cbn [nle Math_round num]; try easy.
  rewrite !Qle_bool_iff. intros Hxy. rewrite <- Zle_Qle. apply Qfloor_resp_le. lra.
Qed.

Lemma tenth_double : round64 (1 # 10) = Fin (3602879701896397 # 36028797018963968).
Proof. vm_compute. reflexivity. Qed.

(** The multiplier is a monotone function of the elapsed time. *)
Lemma tickMultiplier_nle (a b : number) :
  nle a b = true -> nle (tickMultiplier a) (tickMultiplier b) = true.
Proof.
  intros Hab. unfold tickMultiplier. rewrite tenth_double.
  apply ndiv_mono; [reflexivity|]. apply Math_round_mono.
  apply nmul_mono; [reflexivity|]. apply nadd_mono.
  apply nmul_mono; [reflexivity|]. apply ndiv_mono; [reflexivity | exact Hab].
Qed.

Lemma elapsed_Fin (a b : Z) :
  nsub (num a) (num b) = round64 (inject_Z a + Qred (- inject_Z b)).
Proof. reflexivity. Qed.

Lemma elapsed_mono (start a b : Z) :
  a <= b -> nle (nsub (num a) (num start)) (nsub (num b) (num start)) = true.
Proof.
  intros Hab. rewrite !elapsed_Fin. apply round64_mono.
  apply Qplus_le_l. now rewrite <- Zle_Qle.
Qed.

(** The multiplier is a monotone function of the clock reading. *)
Lemma tickMultiplier_mono (start a b : Z) :
  a <= b ->
  nle (tickMultiplier (nsub (num a) (num start)))
      (tickMultiplier (nsub (num b) (num start))) = true.
Proof. intros Hab. apply tickMultiplier_nle. now apply elapsed_mono. Qed.

Lemma tickMultiplier_start (start : Z) :
  tickMultiplier (nsub (num start) (num start)) = num 1.
Proof.
  rewrite elapsed_Fin.
  rewrite (round64_Qeq _ 0) by (rewrite Qred_correct; ring).
  vm_compute. reflexivity.
Qed.

(** *** Player actions leave the engine alone *)

Lemma placeBet_engine (uid amt : string) (auto : option string) (uuid : string)
    (now : Z) (w : World) :
  engine (world (placeBet uid amt auto uuid now w)) = engine w.
Proof.
  unfold placeBet. mstep.
  destruct (currentGame (engine w)) as [g|]; [|reflexivity].
  destruct (negb (Phase_eqb (phase g) waiting)); [reflexivity|]. mstep.
  destruct (getUser uid (storage w)) as [u|]; [|reflexivity].
  destruct (nle (parseFloat amt) (num 0)); [reflexivity|].
  destruct (ngt (parseFloat amt) (parseFloat (balance u))); [reflexivity|]. mstep.
  destruct (getGameByRoundId (roundId g) (storage w)) as [gdb|]; [|reflexivity]. mstep.
  destruct (existsb _ _); [reflexivity|]. mstep. reflexivity.
Qed.

Lemma manualCashOut_engine (uid : string) (now : Z) (w : World) :
  engine (world (manualCashOut uid now w)) = engine w.
Proof.
  unfold manualCashOut. mstep.
  destruct (currentGame (engine w)) as [g|]; [|reflexivity].
  destruct (negb (Phase_eqb (phase g) flying)); [reflexivity|]. mstep.
  destruct (getGameByRoundId (roundId g) (storage w)) as [gdb|]; [|reflexivity]. mstep.
  destruct (find _ _) as [userBet|]; [|reflexivity]. mstep.
  apply cashOutBet_engine.
Qed.

Lemma startFlying_engine (now : Z) (r : Q) (w : World) (g : GameState) :
  currentGame (engine w) = Some g ->
  engine (world (startFlying now r w))
  = mkEngine (Some (set_multiplier (num 1) (set_startTime now (set_phase flying g))))
      (Some (nadd (num now) (nmul (generateCrashPoint r) (num 1000))))
      false (restartTimer (engine w)) (roundIdCounter (engine w)).
Proof.
  intros Hg. unfold startFlying. mstep. rewrite Hg. mstep. reflexivity.
Qed.

(* ================================================================== *)
(** ** The multiplier of a flight *)

Lemma liveMultiplier_game (w : World) (g : GameState) :
  currentGame (engine w) = Some g -> liveMultiplier w = multiplier g.
Proof. intros H. unfold liveMultiplier. rewrite getPublicGameState_eq. cbn. now rewrite H. Qed.

Lemma liveMultiplier_engine (w w' : World) :
  engine w' = engine w -> liveMultiplier w' = liveMultiplier w.
Proof. intros H. unfold liveMultiplier. rewrite !getPublicGameState_eq. cbn. now rewrite H. Qed.

Lemma on_curve_step (s : FlightStep) (t : Z) (w : World) :
  on_curve t w ->
  clock_ok t [s] ->
  let t1 := match s with Tick now _ _ => now | _ => t end in
  on_curve t1 (flightStep s w)
  /\ nle (liveMultiplier w) (liveMultiplier (flightStep s w)) = true.
Proof.
  intros [g [t' [Hg [Ht' Hm]]]] Hclock.
  assert (Hrefl : nle (multiplier g) (multiplier g) = true).
  { rewrite Hm. apply tickMultiplier_mono. lia. }
  destruct s as [now now' clock | uid amt auto uuid now | uid now]; cbn [flightStep].
  - cbn in Hclock. destruct Hclock as [Hle _].
    destruct (gameTimer (engine w)) as [endT|] eqn:HT.
    + destruct (phase g) eqn:Hp.
      1,2,4: rewrite flyingTick_idle
        by (right; right; exists g; split; [assumption | rewrite Hp; discriminate]);
        cbn [world]; split;
        [ exists g, t'; repeat split; [assumption | lia | assumption]
        | now rewrite (liveMultiplier_game _ _ Hg) ].
      pose proof (flyingTick_game now now' clock w endT g HT Hg Hp) as Hg'. cbn zeta in Hg'.
      split.
      * eexists. exists now. split; [exact Hg'|]. split; [lia|].
        now destruct (nge (num now') endT).
      * rewrite (liveMultiplier_game _ _ Hg), (liveMultiplier_game _ _ Hg').
        rewrite Hm. destruct (nge (num now') endT); cbn; apply tickMultiplier_mono; lia.
    + rewrite flyingTick_idle by now left. cbn [world]. split.
      * exists g, t'. repeat split; [assumption | lia | assumption].
      * now rewrite (liveMultiplier_game _ _ Hg).
  - pose proof (placeBet_engine uid amt auto uuid now w) as He. split.
    + exists g, t'. rewrite He. repeat split; [assumption | lia | assumption].
    + rewrite (liveMultiplier_engine _ _ He). now rewrite (liveMultiplier_game _ _ Hg).
  - pose proof (manualCashOut_engine uid now w) as He. split.
    + exists g, t'. rewrite He. repeat split; [assumption | lia | assumption].
    + rewrite (liveMultiplier_engine _ _ He). now rewrite (liveMultiplier_game _ _ Hg).
Qed.

Lemma flight_nondecreasing (steps : list FlightStep) :
  forall (t : Z) (w : World),
    on_curve t w ->
    clock_ok t steps ->
    nondecreasing (liveMultiplier w :: flight steps w).
Proof.
  induction steps as [|s steps IH]; intros t w Hc Hclock; [exact Logic.I|].
  cbn [flight nondecreasing].
  assert (Hs : clock_ok t [s]).
  { destruct s; cbn in *; tauto. }
  destruct (on_curve_step s t w Hc Hs) as [Hc' Hle]. split; [exact Hle|].
  apply (IH _ _ Hc').
  destruct s; cbn in *; tauto.
Qed.

(** C7 (amended). At take-off the multiplier is exactly 1.00, and over any
    run of ticks and player actions that follows, with readings of
    [Date.now()] that never go back, the observed multipliers never
    decrease; the multiplier a tick computes is a monotone function of the
    elapsed time. *)
Theorem flight_multiplier_monotone :
  forall (w : World) (g : GameState) (now : Z) (r : Q) (steps : list FlightStep),
    currentGame (engine w) = Some g ->
    clock_ok now steps ->
    let w1 := world (startFlying now r w) in
    liveMultiplier w1 = num 1
    /\ nondecreasing (liveMultiplier w1 :: flight steps w1)
    /\ (forall e1 e2 : Z,
          e1 <= e2 -> nle (tickMultiplier (num e1)) (tickMultiplier (num e2)) = true).
Proof.
  intros w g now r steps Hg Hclock w1.
  pose proof (startFlying_engine now r w g Hg) as He.
  assert (Hg1 : currentGame (engine w1)
                = Some (set_multiplier (num 1) (set_startTime now (set_phase flying g)))).
  { subst w1. now rewrite He. }
  split; [|split].
  - now rewrite (liveMultiplier_game _ _ Hg1).
  - apply (flight_nondecreasing steps now); [|assumption].
    eexists. exists now. split; [exact Hg1|]. split; [lia|].
    cbn. symmetry. apply tickMultiplier_start.
  - intros e1 e2 He12. apply tickMultiplier_nle. cbn [num nle].
    apply Qle_bool_iff. now rewrite <- Zle_Qle.
Qed.

Lemma flight_multiplier_monotone_witness :
  let steps := [Tick 20100 20100 (fun _ => 20101); PlayerCashOut "default-user" 20150;
                Tick 20200 20205 (fun _ => 20206)] in
  let w1 := world (startFlying 20000 (1 # 2) waitingWorld) in
  liveMultiplier w1 = num 1
  /\ nondecreasing (liveMultiplier w1 :: flight steps w1)
  /\ (forall e1 e2 : Z,
        e1 <= e2 -> nle (tickMultiplier (num e1)) (tickMultiplier (num e2)) = true).
Proof.
  apply (flight_multiplier_monotone waitingWorld
           (mkGameState 127535 waiting (num 1) 0 0 "c0ffee" (Some "5a17") 10)
           20000 (1 # 2)).
  - reflexivity.
  - cbn. lia.
Defined.

(** C7, as first stated, fails: the multiplier follows [Date.now()], and a
    clock that is set back between two ticks takes the multiplier down.
    After take-off at 20000 the tick that reads 20500 shows 1.05 and the
    next tick, which reads 19900, shows 0.99. *)
Lemma flight_multiplier_counterexample :
  let steps := [Tick 20500 20500 (fun _ => 20500); Tick 19900 19900 (fun _ => 19900)] in
  let w1 := world (startFlying 20000 (1 # 2) waitingWorld) in
  option_map phase (currentGame (engine (flightEnd steps w1))) = Some flying
  /\ List.map numToString (liveMultiplier w1 :: flight steps w1) = ["1"; "1.05"; "0.99"]
  /\ ~ nondecreasing (liveMultiplier w1 :: flight steps w1).
Proof.
  vm_compute. split; [reflexivity|]. split; [reflexivity|].
  intros [_ [H _]]. discriminate.
Qed.

(* ================================================================== *)
(** ** Placing a bet *)

(** C5 (amended). A call of [placeBet] made while the phase is not WAITING,
    or with an amount that is not positive, or with an amount above the
    player's balance, or by a player who already holds an active bet of the
    current round, fails with a reason and changes nothing and emits
    nothing.  When none of these holds, the player and the round's game
    record exist and the amount is a finite number, the call succeeds: in
    one step the balance becomes balance - amount printed to two decimals
    and an ACTIVE bet is stored under the new id. *)
Theorem placeBet_rejects_or_debits :
  forall (w : World) (uid amt : string) (auto : option string) (uuid : string) (now : Z),
    let r := placeBet uid amt auto uuid now w in
    (phase_not_waiting w || amount_not_positive amt
       || exceeds_balance w uid amt || holds_active_bet w uid = true ->
     success (value r) = false /\ message (value r) <> ""
     /\ world r = w /\ events r = [])
    /\
    (phase_not_waiting w || amount_not_positive amt
       || exceeds_balance w uid amt || holds_active_bet w uid = false ->
     forall (u : User) (gdb : Game),
       getUser uid (storage w) = Some u ->
       currentGameRecord w = Some gdb ->
       is_finite (parseFloat amt) = true ->
       let newBalance := toFixed2 (nsub (parseFloat (balance u)) (parseFloat amt)) in
       success (value r) = true
       /\ betId (value r) = Some uuid
       /\ engine (world r) = engine w
       /\ games (storage (world r)) = games (storage w)
       /\ getUser uid (storage (world r))
          = Some (mkUser (user_id u) (username u) (password u) newBalance
                    (avatar u) (user_createdAt u))
       /\ map_get uuid (bets (storage (world r)))
          = Some (mkBet uuid uid (game_id gdb) amt (truthy auto) None None true
                    (Some now) None)).
Proof.
  intros w uid amt auto uuid now r. subst r.
  unfold phase_not_waiting, amount_not_positive, exceeds_balance, holds_active_bet,
    currentGameRecord.
  unfold placeBet, bind, this, query, update, call, emit, ret. cbn.
  destruct (currentGame (engine w)) as [g|]; cbn.
  2:{ split; [intros _; repeat split; discriminate | discriminate]. }
  destruct (Phase_eqb (phase g) waiting); cbn.
  2:{ split; [intros _; repeat split; discriminate | discriminate]. }
  destruct (getUser uid (storage w)) as [u|] eqn:Hu; cbn.
  2:{ split; [intros _; repeat split; discriminate | intros _ u gdb; discriminate]. }
  destruct (nle (parseFloat amt) (num 0)); cbn.
  1:{ split; [intros _; repeat split; discriminate | discriminate]. }
  destruct (ngt (parseFloat amt) (parseFloat (balance u))); cbn.
  1:{ split; [intros _; repeat split; discriminate | discriminate]. }
  destruct (getGameByRoundId (roundId g) (storage w)) as [gdb|]; cbn.
  2:{ split; [intros _; repeat split; discriminate | intros _ u' gdb' _; discriminate]. }
  destruct (existsb _ _); cbn.
  1:{ split; [intros _; repeat split; discriminate | discriminate]. }
  split; [discriminate|].
  intros _ u' gdb' [= <-] [= <-] _.
  unfold createBet, updateUserBalance, getUser in *. rewrite Hu. cbn.
  rewrite !map_get_set_same. repeat split.
Qed.

Lemma placeBet_rejects_or_debits_witness :
  (let r := placeBet "default-user" "100" (Some "2.00") "bet-2" 25000 (flyingWorld (num 60000)) in
   success (value r) = false /\ message (value r) <> ""
   /\ world r = flyingWorld (num 60000) /\ events r = [])
  /\
  (let r := placeBet "default-user" "100" (Some "2.00") "bet-1" 1500 waitingWorld in
   success (value r) = true
   /\ getUser "default-user" (storage (world r))
      = Some (mkUser "default-user" (Some "Raj Kumar") (Some "password") "12380.50"
                None (Some 1000))
   /\ map_get "bet-1" (bets (storage (world r))) = Some demoBet)
  /\
  (let r := placeBet "default-user" "1e-400" None "bet-2" 1500 waitingWorld in
   amount_not_positive "1e-400" = true
   /\ success (value r) = false /\ message (value r) <> ""
   /\ world r = waitingWorld /\ events r = [])
  /\
  (let r := placeBet "default-user" "0.045" None "bet-2" 1500 waitingWorld in
   success (value r) = true
   /\ getUser "default-user" (storage (world r))
      = Some (mkUser "default-user" (Some "Raj Kumar") (Some "password") "12480.45"
                None (Some 1000)))
  /\
  (let r := placeBet "default-user" "12480.500000000000000001" None "bet-2" 1500
              waitingWorld in
   exceeds_balance waitingWorld "default-user" "12480.500000000000000001" = false
   /\ success (value r) = true
   /\ getUser "default-user" (storage (world r))
      = Some (mkUser "default-user" (Some "Raj Kumar") (Some "password") "0.00"
                None (Some 1000))).
Proof.
  split; [|split; [|split; [|split]]].
  - apply (proj1 (placeBet_rejects_or_debits (flyingWorld (num 60000))
                    "default-user" "100" (Some "2.00") "bet-2" 25000)).
    reflexivity.
  - destruct (proj2 (placeBet_rejects_or_debits waitingWorld
                       "default-user" "100" (Some "2.00") "bet-1" 1500)
                eq_refl demoUser demoGame eq_refl eq_refl eq_refl)
      as [Hs [_ [_ [_ [Hu Hb]]]]].
    split; [exact Hs|]. split; [exact Hu | exact Hb].
  - split; [vm_compute; reflexivity|].
    apply (proj1 (placeBet_rejects_or_debits waitingWorld
                    "default-user" "1e-400" None "bet-2" 1500)).
    vm_compute. reflexivity.
  - destruct (proj2 (placeBet_rejects_or_debits waitingWorld
                       "default-user" "0.045" None "bet-2" 1500)
                ltac:(vm_compute; reflexivity) demoUser demoGame eq_refl eq_refl
                ltac:(vm_compute; reflexivity))
      as [Hs [_ [_ [_ [Hu _]]]]].
    split; [exact Hs|]. etransitivity; [exact Hu|]. vm_compute. reflexivity.
  - split; [vm_compute; reflexivity|].
    destruct (proj2 (placeBet_rejects_or_debits waitingWorld
                       "default-user" "12480.500000000000000001" None "bet-2" 1500)
                ltac:(vm_compute; reflexivity) demoUser demoGame eq_refl eq_refl
                ltac:(vm_compute; reflexivity))
      as [Hs [_ [_ [_ [Hu _]]]]].
    split; [exact Hs|]. etransitivity; [exact Hu|]. vm_compute. reflexivity.
Defined.

(** C5, as first stated, fails: with betting open, a positive amount, no
    balance exceeded and no bet held, a call by an unknown player is still
    refused; an amount below one cent is accepted without any debit; and an
    amount that is no number is accepted and ruins the balance. *)
Lemma placeBet_listed_causes_counterexample :
  (let r := placeBet "ghost" "10" None "bet-9" 1500 waitingWorld in
   phase_not_waiting waitingWorld || amount_not_positive "10"
     || exceeds_balance waitingWorld "ghost" "10" || holds_active_bet waitingWorld "ghost" = false
   /\ success (value r) = false
   /\ world r = waitingWorld)
  /\
  (let r := placeBet "default-user" "0.001" None "bet-9" 1500 waitingWorld in
   phase_not_waiting waitingWorld || amount_not_positive "0.001"
     || exceeds_balance waitingWorld "default-user" "0.001"
     || holds_active_bet waitingWorld "default-user" = false
   /\ success (value r) = true
   /\ option_map balance (getUser "default-user" (storage waitingWorld)) = Some "12480.50"
   /\ option_map balance (getUser "default-user" (storage (world r))) = Some "12480.50")
  /\
  (let r := placeBet "default-user" "abc" None "bet-9" 1500 waitingWorld in
   phase_not_waiting waitingWorld || amount_not_positive "abc"
     || exceeds_balance waitingWorld "default-user" "abc"
     || holds_active_bet waitingWorld "default-user" = false
   /\ success (value r) = true
   /\ option_map balance (getUser "default-user" (storage (world r))) = Some "NaN").
Proof. vm_compute. repeat split. Qed.

(** C10 (amended). A call of [placeBet] for a player without a user record
    fails, changes nothing and emits nothing; its reason is "User not found"
    when betting is open and the phase rejection otherwise. *)
Theorem placeBet_unknown_player_fails :
  forall (w : World) (uid amt : string) (auto : option string) (uuid : string) (now : Z),
    getUser uid (storage w) = None ->
    let r := placeBet uid amt auto uuid now w in
    success (value r) = false
    /\ world r = w
    /\ events r = []
    /\ message (value r)
       = if phase_not_waiting w then "Betting is not available right now"
         else "User not found".
Proof.
  intros w uid amt auto uuid now Hu r. subst r.
  unfold phase_not_waiting, placeBet, bind, this, query, ret. cbn.
  destruct (currentGame (engine w)) as [g|]; cbn; [|repeat split].
  destruct (Phase_eqb (phase g) waiting); cbn; [|repeat split].
  rewrite Hu. cbn. repeat split.
Qed.

Lemma placeBet_unknown_player_fails_witness :
  let r := placeBet "ghost" "10" None "bet-9" 1500 waitingWorld in
  success (value r) = false
  /\ world r = waitingWorld
  /\ events r = []
  /\ message (value r) = "User not found".
Proof.
  apply (placeBet_unknown_player_fails waitingWorld "ghost" "10" None "bet-9" 1500).
  reflexivity.
Defined.

(** C10, as first stated, fails once the round has left WAITING: the
    unknown player is turned away by the phase test, with its reason. *)
Lemma placeBet_unknown_player_counterexample :
  let w := flyingWorld (num 60000) in
  let r := placeBet "ghost" "10" None "bet-9" 25000 w in
  getUser "ghost" (storage w) = None
  /\ success (value r) = false
  /\ message (value r) = "Betting is not available right now"
  /\ message (value r) <> "User not found".
Proof. vm_compute. repeat split. discriminate. Qed.

(* ================================================================== *)
(** ** The commitment *)

(** C8. The pair [generateHash] produces for a round id passes
    [verifyHash] for that round id; so does the pair a new round starts
    with. *)
Theorem verifyHash_accepts_generateHash :
  forall (sha256_hex : string -> string) (rid : Z) (randomBytes : list byte),
    Hash.verifyHash sha256_hex rid
      (snd (Hash.generateHash sha256_hex rid randomBytes))
      (fst (Hash.generateHash sha256_hex rid randomBytes)) = true
    /\ forall (uuid : string) (now : Z) (w : World),
         exists g s,
           currentGame (engine (world (startNewRound sha256_hex randomBytes uuid now w)))
           = Some g
           /\ salt g = Some s
           /\ Hash.verifyHash sha256_hex (roundId g) s (hash g) = true.
Proof.
  intros sha rid rb. split.
  - unfold Hash.verifyHash, Hash.generateHash. cbn [fst snd]. apply String.eqb_refl.
  - intros uuid now w. unfold startNewRound. mstep. cbn.
    eexists. eexists. split; [reflexivity|]. split; [reflexivity|].
    cbn. unfold Hash.verifyHash. apply String.eqb_refl.
Qed.

(* ================================================================== *)
(** ** The public snapshot *)

(** C9. The snapshot [getPublicGameState] returns has no salt field: two
    engine states that differ only in the salt of the current round give the
    same snapshot, and taking it changes nothing and emits nothing. *)
Theorem public_state_hides_salt :
  forall (st : MemStorage) (e : CrashEngine) (g : GameState) (s s' : option string),
    let w := mkWorld st (with_game (Some (set_salt s g)) e) in
    let w' := mkWorld st (with_game (Some (set_salt s' g)) e) in
    value (getPublicGameState w) = value (getPublicGameState w')
    /\ world (getPublicGameState w) = w
    /\ events (getPublicGameState w) = [].
Proof. intros st e g s s'. cbn. repeat split. Qed.

(* ================================================================== *)
(** ** Settlement *)

(** Discharges [bets_ok] on a one-entry table. *)
Ltac one_bet_ok :=
  split;
  [ cbn; constructor; [intros [] | constructor]
  | intros ? ? [[= <- <-] | []]; reflexivity ].


(** The loop of the pass, at a bet whose threshold the round's multiplier
    has reached, stops no later than at that bet. *)
Lemma autoCashOutLoop_reaches (b : Bet) (g1 : GameState) (w : World) :
  currentGame (engine w) = Some g1 ->
  reached (multiplier g1) b = true ->
  forall l,
    match value (autoCashOutLoop l w) with
    | aco_done => ~ In b l
    | co_bets bid uid mult refs rest =>
        mult = numToString (multiplier g1)
        /\ (In b l ->
            In b rest
            \/ (bid = bet_id b /\ refs = betRefs (userId b) (storage w)))
    | _ => False
    end.
Proof.
  intros Hg Hreach. induction l as [|x l IH]; [cbn; tauto|].
  cbn [autoCashOutLoop]. mstep. rewrite Hg.
  assert (Hskip : reached (multiplier g1) x = false ->
            match value (autoCashOutLoop l w) with
            | aco_done => ~ In b (x :: l)
            | co_bets bid uid mult refs rest =>
                mult = numToString (multiplier g1)
                /\ (In b (x :: l) ->
                    In b rest
                    \/ (bid = bet_id b /\ refs = betRefs (userId b) (storage w)))
            | _ => False
            end).
  { intros Hx.
    assert (Hne : x <> b) by (intros ->; congruence).
    destruct (value (autoCashOutLoop l w)); try exact IH.
    - intros [H | H]; [contradiction | now apply IH].
    - destruct IH as [IH1 IH2]. split; [exact IH1|].
      intros [H | H]; [contradiction | now apply IH2]. }
  unfold reached in Hskip.
  destruct (truthy (autoCashOut x)) as [a|]; [|now apply Hskip].
  destruct (nle (parseFloat a) (multiplier g1)); [|now apply Hskip].
  mstep. split; [reflexivity|].
  intros [-> | H]; [right; now split | now left].
Qed.

(** A reference to a stored bet finds it. *)
Lemma betRefs_In (b : Bet) (st : MemStorage) :
  map_get (bet_id b) (bets st) = Some b -> In (bet_id b) (betRefs (userId b) st).
Proof.
  intros Hget. unfold betRefs. apply in_map_iff. exists (bet_id b, b).
  split; [reflexivity|]. apply filter_In. split; [now apply map_get_In|].
  cbn. apply String.eqb_refl.
Qed.

Lemma derefBets_finds (b : Bet) (refs : list string) (st : MemStorage) :
  bets_ok (bets st) ->
  map_get (bet_id b) (bets st) = Some b ->
  isActive b = true ->
  In (bet_id b) refs ->
  List.find (fun t => String.eqb (bet_id t) (bet_id b) && isActive t) (derefBets refs st)
  = Some b.
Proof.
  intros Hok Hget Hact Hin.
  destruct (find _ _) as [t|] eqn:Hfind.
  - apply find_some in Hfind. destruct Hfind as [Ht Hp].
    apply andb_prop in Hp. destruct Hp as [Hid _]. apply String.eqb_eq in Hid.
    apply derefBets_In in Ht. destruct Ht as [k Hk].
    assert (Hkid : bet_id t = k) by (apply (proj2 Hok); now apply map_get_In).
    rewrite Hid in Hkid. subst k. congruence.
  - assert (Hb : In b (derefBets refs st)).
    { unfold derefBets. apply in_flat_map. exists (bet_id b). split; [exact Hin|].
      rewrite Hget. now left. }
    pose proof (find_none _ _ Hfind b Hb) as Hn. cbn beta in Hn.
    rewrite String.eqb_refl, Hact in Hn. discriminate.
Qed.

(** The bet table after a tick that runs and does not end the round, for
    a bet whose threshold the tick's multiplier has reached. *)
Lemma flyingTick_settles (now now' : Z) (clock : nat -> Z) (w : World) (endT : number)
    (g : GameState) (gdb : Game) (b : Bet) :
  gameTimer (engine w) = Some endT ->
  currentGame (engine w) = Some g ->
  phase g = flying ->
  nge (num now') endT = false ->
  bets_ok (bets (storage w)) ->
  getGameByRoundId (roundId g) (storage w) = Some gdb ->
  map_get (bet_id b) (bets (storage w)) = Some b ->
  gameId b = game_id gdb ->
  isActive b = true ->
  let m := tickMultiplier (nsub (num now) (num (startTime g))) in
  reached m b = true ->
  exists s,
    map_get (bet_id b) (bets (storage (world (flyingTick now now' clock w))))
    = Some (settled b (numToString m) (payout b (numToString m)) s).
Proof.
  intros Ht Hg Hp Hend Hok Hdb Hget Hgid Hact m Hreach.
  rewrite (flyingTick_world now now' clock w endT g Ht Hg Hp). rewrite Hend. fold m.
  cbn [roundId set_multiplier]. rewrite Hdb.
  set (g1 := set_multiplier m g).
  set (w1 := mkWorld (storage w) (with_game (Some g1) (engine w))).
  set (L := getActiveBetsByGameId (game_id gdb) (storage w)).
  destruct (activeBets_facts (game_id gdb) (storage w) Hok) as [_ HL].
  assert (HbL : In b L) by (apply HL; tauto).
  pose proof (getActiveBetsByGameId_length (game_id gdb) (storage w)) as Hlen. fold L in Hlen.
  unfold drainFuel. cbn [Nat.add].
  (* the pass lists the bets *)
  rewrite drain_pass by discriminate.
  unfold resumeAutoCashOuts at 1 2. mstep. fold L.
  pose (done_b := fun w0 : World =>
    exists s, map_get (bet_id b) (bets (storage w0))
              = Some (settled b (numToString m) (payout b (numToString m)) s)).
  pose (pend := fun (rest : list Bet) (w0 : World) =>
    done_b w0 \/ (In b rest /\ map_get (bet_id b) (bets (storage w0)) = Some b)).
  pose (I := fun (p0 : AutoCashOuts) (c0 : Crash) (w0 : World) =>
    c0 = crash_done /\ pass_listed p0 /\ bets_ok (bets (storage w0))
    /\ currentGame (engine w0) = Some g1
    /\ match p0 with
       | aco_done => done_b w0
       | aco_game _ => False
       | aco_bets rest => pend rest w0
       | co_bets bid uid mult refs rest =>
           mult = numToString m
           /\ (pend rest w0
               \/ (bid = bet_id b /\ In (bet_id b) refs
                   /\ map_get (bet_id b) (bets (storage w0)) = Some b))
       | co_settled _ _ _ _ rest | co_user _ _ _ _ _ rest | co_credited _ _ _ _ rest =>
           pend rest w0
       end).
  assert (Hrun : I aco_done crash_done
            (world (drain (7 + 6 * List.length (bets (storage w))) clock 1 true
                      (aco_bets L) crash_done w1))).
  { apply (drain_run clock I).
    - (* a stretch of the pass *)
      intros t p0 c0 w0 [Hc0 [Hl0 [Hok0 [Hg0 Hb0]]]] Hne.
      destruct (resumeAutoCashOuts_left t p0 w0 Hl0 Hne) as [Hl1 Hlt].
      split; [|exact Hlt].
      split; [exact Hc0|]. split; [exact Hl1|].
      split; [now apply resumeAutoCashOuts_bets_ok|].
      split; [now rewrite resumeAutoCashOuts_engine|].
      clear Hl1 Hlt. unfold resumeAutoCashOuts.
      destruct p0 as [ | gdb0 | rest | bid uid mult refs rest | bid uid mult win rest
                    | bid uid mult win [|] rest | bid uid mult win rest ];
        try congruence; try contradiction; mstep; try exact Hb0.
      + (* the loop goes on *)
        rewrite autoCashOutLoop_storage.
        pose proof (autoCashOutLoop_reaches b g1 w0 Hg0 Hreach rest) as Hloop.
        destruct (value (autoCashOutLoop rest w0)); try contradiction.
        * destruct Hb0 as [Hd | [Hin _]]; [exact Hd | contradiction].
        * destruct Hloop as [-> Hloop]. split; [reflexivity|].
          destruct Hb0 as [Hd | [Hin Hpend]]; [left; now left|].
          destruct (Hloop Hin) as [Hin' | [-> ->]].
          -- left. right. now split.
          -- right. split; [reflexivity|]. split; [now apply betRefs_In | exact Hpend].
      + (* [cashOutBet] looks the bet up and settles it *)
        destruct Hb0 as [-> Hb0].
        assert (Hkeep : forall t0,
                  map_get bid (bets (storage w0)) = Some t0 -> isActive t0 = true ->
                  pend rest w0 ->
                  pend rest (mkWorld (updateBetCashOut bid (numToString m)
                                        (payout t0 (numToString m)) t (storage w0))
                               (engine w0))).
        { intros t0 Ht0 Hact0 [[s Hd] | [Hin Hpend]].
          - left. exists s. cbn [storage]. rewrite (updateBetCashOut_bets _ _ _ _ _ _ Ht0).
            cbn [bets set_bets]. rewrite map_get_set_other; [exact Hd|].
            intros E. rewrite E, Ht0 in Hd. injection Hd as Hd. rewrite Hd in Hact0.
            discriminate.
          - cbn [storage]. rewrite (updateBetCashOut_bets _ _ _ _ _ _ Ht0).
            destruct (String.eqb (bet_id b) bid) eqn:E.
            + apply String.eqb_eq in E. rewrite E in Hpend.
              assert (t0 = b) by congruence. subst t0.
              left. exists t. cbn [storage bets set_bets]. rewrite E.
              now rewrite map_get_set_same.
            + apply String.eqb_neq in E. right. split; [exact Hin|].
              cbn [storage bets set_bets]. now rewrite map_get_set_other. }
        destruct Hb0 as [Hb0 | [-> [Hin Hpend]]].
        * destruct (find _ _) as [t0|] eqn:Hfind; mstep; [|exact Hb0].
          apply find_some in Hfind. destruct Hfind as [Hin0 Hp0].
          apply andb_prop in Hp0. destruct Hp0 as [Hid Hact0]. apply String.eqb_eq in Hid.
          apply derefBets_In in Hin0. destruct Hin0 as [k Hk].
          assert (Hkid : bet_id t0 = k) by (apply (proj2 Hok0); now apply map_get_In).
          rewrite Hid in Hkid. subst k.
          now apply Hkeep.
        * rewrite (derefBets_finds b refs (storage w0) Hok0 Hpend Hact Hin). mstep.
          left. exists t. cbn [storage]. rewrite (updateBetCashOut_bets _ _ _ _ _ _ Hpend).
          cbn [bets set_bets]. now rewrite map_get_set_same.
      + (* the balance is credited *)
        destruct (getUser uid (storage w0)) as [u|]; mstep; [|exact Hb0].
        destruct Hb0 as [[s Hd] | [Hin Hpend]].
        * left. exists s. cbn [storage]. now rewrite (proj1 (updateUserBalance_bets _ _ _)).
        * right. split; [exact Hin|]. cbn [storage].
          now rewrite (proj1 (updateUserBalance_bets _ _ _)).
    - (* no crash beside it *)
      intros t p0 c0 w0 [Hc0 _] Hne. congruence.
    - (* at the start *)
      split; [reflexivity|]. split; [exact Logic.I|]. split; [exact Hok|].
      split; [reflexivity|]. right. now split.
    - cbn [passLeft crashLeft]. lia. }
  destruct Hrun as [_ [_ [_ [_ Hd]]]]. exact Hd.
Qed.

(* ================================================================== *)
(** ** Printing a multiplier and reading it back *)

Lemma digit_char (d : Z) : In (ascii_of_digit d) digit_chars.
Proof.
  unfold ascii_of_digit. pose proof (Z.mod_pos_bound d 10 ltac:(lia)) as Hb.
  assert (H : d mod 10 = 0 \/ d mod 10 = 1 \/ d mod 10 = 2 \/ d mod 10 = 3 \/ d mod 10 = 4
              \/ d mod 10 = 5 \/ d mod 10 = 6 \/ d mod 10 = 7 \/ d mod 10 = 8 \/ d mod 10 = 9)
    by lia.
  repeat (destruct H as [H | H]; [rewrite H; cbn; tauto |]).
  rewrite H. cbn. tauto.
Qed.

Lemma digit_of_ascii_of_digit (d : Z) : digit_of (ascii_of_digit d) = Some (d mod 10).
Proof.
  unfold ascii_of_digit. pose proof (Z.mod_pos_bound d 10 ltac:(lia)) as Hb.
  assert (H : d mod 10 = 0 \/ d mod 10 = 1 \/ d mod 10 = 2 \/ d mod 10 = 3 \/ d mod 10 = 4
              \/ d mod 10 = 5 \/ d mod 10 = 6 \/ d mod 10 = 7 \/ d mod 10 = 8 \/ d mod 10 = 9)
    by lia.
  repeat (destruct H as [H | H]; [rewrite H; reflexivity |]).
  rewrite H. reflexivity.
Qed.

Lemma digits_fuel_app (f : nat) :
  forall (n : Z) (acc rest : string),
    (digits_fuel f n acc ++ rest)%string = digits_fuel f n (acc ++ rest)%string.
Proof.
  induction f as [|f IH]; intros n acc rest; cbn [digits_fuel]; [reflexivity|].
  destruct (n / 10 =? 0); [reflexivity|]. now rewrite IH.
Qed.

Lemma digits_fuel_head (f : nat) :
  forall (n : Z) (acc : string),
    (1 <= f)%nat -> exists d r, digits_fuel f n acc = String (ascii_of_digit d) r.
Proof.
  induction f as [|f IH]; intros n acc Hf; [lia|].
  cbn [digits_fuel]. destruct (n / 10 =? 0); [now exists n, acc|].
  destruct f as [|f']; [now exists n, acc|].
  apply IH. lia.
Qed.

Lemma read_digits_digits_fuel (f : nat) :
  forall (n : Z),
    0 <= n < 10 ^ Z.of_nat f ->
    (1 <= f)%nat ->
    exists L, 1 <= L /\ forall acc a c,
      read_digits (digits_fuel f n acc) a c = read_digits acc (a * 10 ^ L + n) (c + L).
Proof.
  induction f as [|f IH]; intros n Hn Hf; [lia|].
  cbn [digits_fuel]. destruct (n / 10 =? 0) eqn:E.
  - apply Z.eqb_eq in E. assert (n < 10) by (apply Z.div_small_iff in E; lia).
    exists 1. split; [lia|]. intros acc a c. cbn [read_digits].
    rewrite digit_of_ascii_of_digit, Z.mod_small by lia.
    f_equal. lia.
  - apply Z.eqb_neq in E.
    assert (Hn10 : 10 <= n).
    { destruct (Z_lt_le_dec n 10) as [Hlt|]; [|assumption].
      exfalso. apply E. apply Z.div_small. lia. }
    assert (Hf1 : (1 <= f)%nat).
    { destruct f; [|lia]. cbn in Hn. lia. }
    assert (Hdiv : 0 <= n / 10 < 10 ^ Z.of_nat f).
    { split; [apply Z.div_pos; lia|].
      apply Z.div_lt_upper_bound; [lia|].
      replace (Z.of_nat (S f)) with (Z.succ (Z.of_nat f)) in Hn by lia.
      rewrite Z.pow_succ_r in Hn by lia. lia. }
    destruct (IH (n / 10) Hdiv Hf1) as [L [HL Hread]].
    exists (L + 1). split; [lia|]. intros acc a c.
    rewrite Hread. cbn [read_digits]. rewrite digit_of_ascii_of_digit.
    f_equal; [|lia].
    rewrite Z.pow_add_r, Z.pow_1_r by lia.
    pose proof (Z.div_mod n 10 ltac:(lia)). lia.
Qed.

Lemma digits_fuel_bound (n : Z) : 0 <= n -> n < 10 ^ Z.of_nat (S (Z.to_nat (Z.log2 n))).
Proof.
  intros Hn. rewrite Nat2Z.inj_succ, Z2Nat.id by apply Z.log2_nonneg.
  destruct (Z.eq_dec n 0) as [-> | Hne]; [reflexivity|].
  pose proof (Z.log2_spec n ltac:(lia)) as [_ Hlt].
  eapply Z.lt_le_trans; [exact Hlt|].
  apply Z.pow_le_mono_l. lia.
Qed.

Lemma digits_head (n : Z) : exists d r, digits n = String (ascii_of_digit d) r.
Proof. unfold digits. apply digits_fuel_head. lia. Qed.

Lemma digits_read (n : Z) :
  0 <= n ->
  exists L, 1 <= L /\ forall rest a c,
    read_digits (digits n ++ rest) a c = read_digits rest (a * 10 ^ L + n) (c + L).
Proof.
  intros Hn. unfold digits.
  destruct (read_digits_digits_fuel (S (Z.to_nat (Z.log2 n))) n
              (conj Hn (digits_fuel_bound n Hn)) ltac:(lia)) as [L [HL Hread]].
  exists L. split; [assumption|]. intros rest a c.
  rewrite digits_fuel_app. cbn [append]. apply Hread.
Qed.

Lemma head_digit_skip (d : Z) (r : string) :
  skip_ws (String (ascii_of_digit d) r) = String (ascii_of_digit d) r
  /\ read_sign (String (ascii_of_digit d) r) = (false, String (ascii_of_digit d) r)
  /\ String.prefix "Infinity" (String (ascii_of_digit d) r) = false.
Proof.
  pose proof (digit_char d) as H. unfold digit_chars in H. cbn [In] in H.
  repeat (destruct H as [<- | H]; [repeat split|]). contradiction.
Qed.

Lemma frac_hundredths (k : Z) :
  (inject_Z k / inject_Z 100 - inject_Z (k / 100) == inject_Z (k mod 100) / inject_Z 100)%Q.
Proof.
  rewrite (Z.div_mod k 100) at 1 by lia.
  rewrite inject_Z_plus, inject_Z_mult. field.
Qed.

Lemma hundredths_split (k : Z) :
  (inject_Z k / inject_Z 100
   == inject_Z (k / 100) + inject_Z (k mod 100) / inject_Z 100)%Q.
Proof. pose proof (frac_hundredths k) as H. lra. Qed.

Lemma read_digits_dot (s : string) (a c : Z) :
  read_digits (String "." s) a c = (a, c, String "." s).
Proof. reflexivity. Qed.

Lemma parseFloat_digit_head (d : Z) (r : string) :
  parseFloat (String (ascii_of_digit d) r) = parse_decimal (String (ascii_of_digit d) r).
Proof.
  unfold parseFloat. destruct (head_digit_skip d r) as [H1 [H2 H3]].
  now rewrite H1, H2, H3.
Qed.

Lemma parse_decimal_int (n L : Z) (s : string) :
  1 <= L ->
  read_digits s 0 0 = (n, L, "") ->
  parse_decimal s = round64 (decimal_value n 0 0 0).
Proof.
  intros HL Hread. unfold parse_decimal. rewrite Hread. cbn [parse_fraction].
  assert (HL0 : (L =? 0) = false) by (apply Z.eqb_neq; lia).
  now rewrite HL0.
Qed.

Lemma parse_decimal_frac (n L fp nf : Z) (s f : string) :
  1 <= L ->
  read_digits s 0 0 = (n, L, String "." f) ->
  read_digits f 0 0 = (fp, nf, "") ->
  parse_decimal s = round64 (decimal_value n fp nf 0).
Proof.
  intros HL Hread Hf. unfold parse_decimal. rewrite Hread. cbn [parse_fraction].
  rewrite Hf.
  assert (HL0 : (L =? 0) = false) by (apply Z.eqb_neq; lia).
  now rewrite HL0.
Qed.

Lemma decimal_value_hundredths (i fp nf j : Z) :
  1 <= nf ->
  fp * 100 = j * 10 ^ nf ->
  decimal_value i fp nf 0 = Qred (inject_Z i + inject_Z j / inject_Z 100).
Proof.
  intros Hnf Hfp. unfold decimal_value. apply Qred_complete.
  change (pow10 0) with 1%Q.
  assert (Hp : pow10 (- nf) = (/ inject_Z (10 ^ nf))%Q).
  { unfold pow10. destruct (0 <=? - nf) eqn:E; [apply Z.leb_le in E; lia|].
    now rewrite Z.opp_involutive. }
  rewrite Hp.
  assert (H10 : 0 < 10 ^ nf) by (apply Z.pow_pos_nonneg; lia).
  assert (Hy : ~ (inject_Z (10 ^ nf) == 0)%Q).
  { change 0%Q with (inject_Z 0). rewrite inject_Z_injective. lia. }
  assert (Hx : (inject_Z fp * inject_Z 100 == inject_Z j * inject_Z (10 ^ nf))%Q)
    by (rewrite <- !inject_Z_mult, Hfp; reflexivity).
  assert (Hfrac : (inject_Z fp * / inject_Z (10 ^ nf) == inject_Z j / inject_Z 100)%Q).
  { apply (Qmult_inj_r _ _ (inject_Z (10 ^ nf) * inject_Z 100)).
    - change (inject_Z 100) with (100 # 1). intros H0.
      apply Qmult_integral in H0. destruct H0 as [H0 | H0]; [contradiction | discriminate].
    - change (inject_Z 100) with (100 # 1) in *. field_simplify; [|exact Hy].
      rewrite (Qmult_comm 100), Hx. apply Qmult_comm. }
  rewrite Hfrac. ring.
Qed.

(** C2 (amended). A bet with an auto cash-out threshold that a flying tick
    finds reached is settled at the multiplier that tick computed, which is
    at least the threshold: in a tick that does not end the round, the
    recorded cash-out multiplier is the text of the live multiplier and the
    recorded payout is amount times that multiplier, printed to two
    decimals.  The threshold itself is not used as the cash-out value. *)
Theorem autoCashOut_settles_at_live_multiplier :
  forall (w : World) (now now' : Z) (clock : nat -> Z) (endT : number) (g : GameState)
         (gdb : Game) (b : Bet) (a : string),
    gameTimer (engine w) = Some endT ->
    currentGame (engine w) = Some g ->
    phase g = flying ->
    nge (num now') endT = false ->
    bets_ok (bets (storage w)) ->
    getGameByRoundId (roundId g) (storage w) = Some gdb ->
    map_get (bet_id b) (bets (storage w)) = Some b ->
    gameId b = game_id gdb ->
    isActive b = true ->
    truthy (autoCashOut b) = Some a ->
    let m := tickMultiplier (nsub (num now) (num (startTime g))) in
    nle (parseFloat a) m = true ->
    exists b',
      map_get (bet_id b) (bets (storage (world (flyingTick now now' clock w)))) = Some b'
      /\ isActive b' = false
      /\ amount b' = amount b
      /\ cashOutAt b' = Some (numToString m)
      /\ winAmount b'
         = Some (toFixed2 (nmul (parseFloat (amount b)) (parseFloat (numToString m)))).
Proof.
  intros w now now' clock endT g gdb b a Ht Hg Hp Hend Hok Hdb Hget Hgid Hact Ha m Hle.
  destruct (flyingTick_settles now now' clock w endT g gdb b) as [s Hs]; try assumption.
  { unfold reached. now rewrite Ha. }
  eexists. split; [exact Hs|]. now repeat split.
Qed.

Lemma autoCashOut_settles_at_live_multiplier_witness :
  exists b',
    map_get "bet-1"
      (bets (storage (world (flyingTick 30100 30100 (fun k => 30100 + Z.of_nat k)
                               (flyingWorld (num 60000)))))) = Some b'
    /\ isActive b' = false
    /\ amount b' = "100"
    /\ cashOutAt b' = Some "2.01"
    /\ winAmount b' = Some "201.00".
Proof.
  apply (autoCashOut_settles_at_live_multiplier (flyingWorld (num 60000)) 30100 30100
           (fun k => 30100 + Z.of_nat k)
           (num 60000) (demoRound flying (num 1) 20000) demoGame demoBet "2.00").
  - reflexivity.
  - reflexivity.
  - reflexivity.
  - reflexivity.
  - one_bet_ok.
  - reflexivity.
  - reflexivity.
  - reflexivity.
  - reflexivity.
  - reflexivity.
  - vm_compute. reflexivity.
Defined.

(** C2, as first stated, fails: the demo bet (100, threshold 2.00) is still
    active after the tick at 1.99; the next tick comes 200 ms later, carries
    2.01, and settles the bet at 2.01 for 201.00, not at 2.00 for 200.00. *)
Lemma autoCashOut_threshold_counterexample :
  let w0 := flyingWorld (num 60000) in
  let r1 := flyingTick 29900 29900 (fun k => 29900 + Z.of_nat k) w0 in
  let r2 := flyingTick 30100 30100 (fun k => 30100 + Z.of_nat k) (world r1) in
  map_get "bet-1" (bets (storage w0)) = Some demoBet
  /\ autoCashOut demoBet = Some "2.00"
  /\ numToString (liveMultiplier (world r1)) = "1.99"
  /\ map_get "bet-1" (bets (storage (world r1))) = Some demoBet
  /\ numToString (liveMultiplier (world r2)) = "2.01"
  /\ option_map cashOutAt (map_get "bet-1" (bets (storage (world r2)))) = Some (Some "2.01")
  /\ option_map winAmount (map_get "bet-1" (bets (storage (world r2)))) = Some (Some "201.00")
  /\ option_map isActive (map_get "bet-1" (bets (storage (world r2)))) = Some false
  /\ toFixed2 (nmul (parseFloat (amount demoBet)) (parseFloat "2.00")) = "200.00"
  /\ In (betCashedOut "bet-1" "default-user" (parseFloat "2.01") (parseFloat "201.00"))
       (events r2).
Proof. vm_compute. repeat split. tauto. Qed.





(* ================================================================== *)
(** ** The crash point *)

(** C3, evaluated.  The crash point is computed from a draw of
    [Math.random()] alone: for one round, with one salt, one hash and one
    round id, the draws 1/2 and 1/4 give the crash points 1.98 and 3.96 and
    so two different end times; neither the salt nor the round id enters
    [generateCrashPoint]. *)
Theorem crash_point_follows_the_draw :
  let w := waitingWorld in
  let e1 := engine (world (startFlying 20000 (1 # 2) w)) in
  let e2 := engine (world (startFlying 20000 (1 # 4) w)) in
  generateCrashPoint (1 # 2) = round64 (99 # 50)
  /\ generateCrashPoint (1 # 4) = round64 (99 # 25)
  /\ numToString (generateCrashPoint (1 # 2)) = "1.98"
  /\ numToString (generateCrashPoint (1 # 4)) = "3.96"
  /\ option_map salt (currentGame e1) = option_map salt (currentGame e2)
  /\ option_map roundId (currentGame e1) = option_map roundId (currentGame e2)
  /\ gameTimer e1 = Some (num 21980)
  /\ gameTimer e2 = Some (num 23960).
Proof. vm_compute. repeat split. Qed.

(** C4, evaluated.  With the draw 0.495 the crash point is 2.00 and the
    curve reaches 2.00 after 10000 ms; the round is still flying at 1.19
    after 1900 ms and is crashed by the tick at 2000 ms, frozen at 1.20, the
    value the [gameCrashed] event then reports as the crash point. *)
Theorem crash_freezes_below_crash_point :
  let w1 := world (startFlying 20000 (495 # 1000) waitingWorld) in
  let w2 := world (flyingTick 21900 21900 (fun k => 21900 + Z.of_nat k) w1) in
  let r3 := flyingTick 22000 22000 (fun k => 22000 + Z.of_nat k) w2 in
  generateCrashPoint (495 # 1000) = num 2
  /\ gameTimer (engine w1) = Some (num 22000)
  /\ tickMultiplier (num 10000) = num 2
  /\ option_map phase (currentGame (engine w2)) = Some flying
  /\ liveMultiplier w2 = round64 (119 # 100)
  /\ option_map phase (currentGame (engine (world r3))) = Some crashed
  /\ liveMultiplier (world r3) = round64 (6 # 5)
  /\ In (gameCrashed 127535 (round64 (6 # 5))) (events r3)
  /\ neqb (liveMultiplier (world r3)) (generateCrashPoint (495 # 1000)) = false.
Proof. vm_compute. repeat split. right. left. reflexivity. Qed.

(* ================================================================== *)
(** ** The bet table stays well formed *)

Lemma placeBet_bets_ok (uid amt : string) (auto : option string) (uuid : string)
    (now : Z) (w : World) :
  bets_ok (bets (storage w)) ->
  bets_ok (bets (storage (world (placeBet uid amt auto uuid now w)))).
Proof.
  intros Hok. unfold placeBet. mstep.
  destruct (currentGame (engine w)) as [g|]; [|exact Hok].
  destruct (negb (Phase_eqb (phase g) waiting)); [exact Hok|]. mstep.
  destruct (getUser uid (storage w)) as [u|]; [|exact Hok].
  destruct (nle (parseFloat amt) (num 0)); [exact Hok|].
  destruct (ngt (parseFloat amt) (parseFloat (balance u))); [exact Hok|]. mstep.
  destruct (getGameByRoundId (roundId g) (storage w)) as [gdb|]; [|exact Hok]. mstep.
  destruct (existsb _ _); [exact Hok|]. mstep.
  unfold createBet. cbn. rewrite (proj1 (updateUserBalance_bets _ _ _)).
  now apply bets_ok_set.
Qed.

Lemma manualCashOut_bets_ok (uid : string) (now : Z) (w : World) :
  bets_ok (bets (storage w)) ->
  bets_ok (bets (storage (world (manualCashOut uid now w)))).
Proof.
  intros Hok. unfold manualCashOut. mstep.
  destruct (currentGame (engine w)) as [g|]; [|exact Hok].
  destruct (negb (Phase_eqb (phase g) flying)); [exact Hok|]. mstep.
  destruct (getGameByRoundId (roundId g) (storage w)) as [gdb|]; [|exact Hok]. mstep.
  destruct (find _ _) as [userBet|]; [|exact Hok]. mstep.
  now apply cashOutBet_bets_ok.
Qed.

Lemma startFlying_storage (now : Z) (r : Q) (w : World) :
  storage (world (startFlying now r w)) = storage w.
Proof.
  unfold startFlying. mstep. now destruct (currentGame (engine w)).
Qed.

Lemma countdownTick_storage (now : Z) (r : Q) (w : World) :
  storage (world (countdownTick now r w)) = storage w.
Proof.
  unfold countdownTick. mstep.
  destruct (negb (countdownTimer (engine w))); [reflexivity|].
  destruct (currentGame (engine w)) as [g|]; [|reflexivity]. mstep.
  destruct (countdown (set_countdown (countdown g - 1) g) <=? 0); [|reflexivity].
  now rewrite startFlying_storage.
Qed.

Lemma startNewRound_bets (sha256_hex : string -> string) (randomBytes : list byte)
    (uuid : string) (now : Z) (w : World) :
  bets (storage (world (startNewRound sha256_hex randomBytes uuid now w)))
  = bets (storage w).
Proof. unfold startNewRound. mstep. reflexivity. Qed.

(** Every state the server can reach keeps its bets one per key, each
    under its own id: the side condition of the settlement theorems. *)
Lemma reachable_bets_ok (sha256_hex : string -> string) (w : World) :
  reachable sha256_hex w -> bets_ok (bets (storage w)).
Proof.
  induction 1 as [randomBytes uuid now | w a _ IH].
  - unfold newWorld. rewrite startNewRound_bets. apply bets_ok_nil.
  - destruct a as [[now now' | uid amt auto uuid now | uid now] | now r | rb uuid now];
      cbn [act flightStep].
    + now apply flyingTick_bets_ok.
    + now apply placeBet_bets_ok.
    + now apply manualCashOut_bets_ok.
    + now rewrite countdownTick_storage.
    + now rewrite startNewRound_bets.
Qed.

(* ================================================================== *)
(** ** A settled bet is final *)

Lemma cashOutBet_keeps (bid uid mult : string) (now : Z) (w : World) (k : string) (b : Bet) :
  bets_ok (bets (storage w)) ->
  map_get k (bets (storage w)) = Some b ->
  isActive b = false ->
  map_get k (bets (storage (world (cashOutBet bid uid mult now w)))) = Some b.
Proof.
  intros Hok Hget Hset.
  destruct (map_get bid (bets (storage w))) as [t|] eqn:Hbid.
  - destruct (isActive t) eqn:Hact.
    + unfold cashOutBet. mstep.
      destruct (find _ _) as [t'|] eqn:Hfind; [|exact Hget].
      mstep. rewrite (updateBetCashOut_bets _ _ _ _ _ _ Hbid).
      assert (Hne : k <> bid) by (intros ->; congruence).
      destruct (getUser uid _) as [u|]; mstep;
        rewrite ?(proj1 (updateUserBalance_bets _ _ _)); cbn;
        now rewrite map_get_set_other.
    + now rewrite (cashOutBet_inactive w bid uid mult now t Hok Hbid Hact).
  - unfold cashOutBet. mstep.
    destruct (find _ _) as [t'|] eqn:Hfind; [|exact Hget].
    mstep. unfold updateBetCashOut. rewrite Hbid.
    destruct (getUser uid _) as [u|]; mstep;
      rewrite ?(proj1 (updateUserBalance_bets _ _ _)); exact Hget.
Qed.

Lemma manualCashOut_keeps (uid : string) (now : Z) (w : World) (k : string) (b : Bet) :
  bets_ok (bets (storage w)) ->
  map_get k (bets (storage w)) = Some b ->
  isActive b = false ->
  map_get k (bets (storage (world (manualCashOut uid now w)))) = Some b.
Proof.
  intros Hok Hget Hset. unfold manualCashOut. mstep.
  destruct (currentGame (engine w)) as [g|]; [|exact Hget].
  destruct (negb (Phase_eqb (phase g) flying)); [exact Hget|]. mstep.
  destruct (getGameByRoundId (roundId g) (storage w)) as [gdb|]; [|exact Hget]. mstep.
  destruct (find _ _) as [userBet|]; [|exact Hget]. mstep.
  now apply cashOutBet_keeps.
Qed.

(** The stretch of the automatic pass in which [cashOutBet] looks for its
    bet finds none when the bet is settled, and goes back to the loop. *)
Lemma resumeAutoCashOuts_inactive (w : World) (bid uid mult : string) (now : Z)
    (refs : list string) (rest : list Bet) (b : Bet) :
  bets_ok (bets (storage w)) ->
  map_get bid (bets (storage w)) = Some b ->
  isActive b = false ->
  resumeAutoCashOuts now (co_bets bid uid mult refs rest) w = mkOut (aco_bets rest) w [].
Proof.
  intros Hok Hget Hset. unfold resumeAutoCashOuts, bind, query. cbn.
  destruct (find _ _) as [t|] eqn:Hfind; [|reflexivity].
  exfalso. apply find_some in Hfind. destruct Hfind as [Hin Hp].
  apply andb_prop in Hp. destruct Hp as [Hid Hact]. apply String.eqb_eq in Hid.
  apply derefBets_In in Hin. destruct Hin as [k Hk].
  assert (Hkid : bet_id t = k) by (apply (proj2 Hok); now apply map_get_In).
  rewrite Hid in Hkid. subst k. rewrite Hget in Hk. injection Hk as ->. congruence.
Qed.

(** The gate of [cashOutBet].  A call on a bet that is already settled
    ([isActive = false]) returns the world as it was and emits no event; so
    does the stretch of the automatic pass in which [cashOutBet] tests the
    bet; and a record that is settled when a step of a flight begins, be it
    a tick with the microtasks it starts or a manual cash-out, is the same
    record when the step ends. *)
Lemma cashOutBet_settled_is_noop :
  forall (w : World) (bid uid mult : string) (now : Z) (b : Bet),
    bets_ok (bets (storage w)) ->
    map_get bid (bets (storage w)) = Some b ->
    isActive b = false ->
    cashOutBet bid uid mult now w = mkOut tt w []
    /\ (forall now' refs rest,
          resumeAutoCashOuts now' (co_bets bid uid mult refs rest) w
          = mkOut (aco_bets rest) w [])
    /\ (forall now1 now2 clock,
          map_get bid (bets (storage (flightStep (Tick now1 now2 clock) w))) = Some b)
    /\ (forall uid' now',
          map_get bid (bets (storage (flightStep (PlayerCashOut uid' now') w))) = Some b).
Proof.
  intros w bid uid mult now b Hok Hget Hset. split; [|split; [|split]].
  - now apply (cashOutBet_inactive w bid uid mult now b).
  - intros now' refs rest. now apply (resumeAutoCashOuts_inactive w bid uid mult now' refs rest b).
  - intros now1 now2 clock. now apply flyingTick_keeps.
  - intros uid' now'. now apply manualCashOut_keeps.
Qed.

(** C1, refuted by the code.  Settlement is not gated by the status of the
    bet everywhere: the sweep of [crashGame] calls [updateBetCashOut] on
    every bet of the list it took, with no test, so the stretch of the
    sweep that stands at a bet writes cash-out 0.00 and payout 0.00 over it
    even when the bet is settled by then.  It happens in the tick that ends
    a round: the demo bet (100, threshold 2.00) is active when the tick at
    2.01 fires; the automatic pass settles it at 2.01, credits 201.00 to the
    balance and emits [betCashedOut]; the sweep, which listed the bet while
    it was active, then writes the settled record again, as a loss. *)
Theorem crash_sweep_rewrites_settled_bet :
  (forall (w : World) (t : Z) (cm : number) (x : Bet) (rest : list Bet) (b : Bet),
      map_get (bet_id x) (bets (storage w)) = Some b ->
      isActive b = false ->
      map_get (bet_id x)
        (bets (storage (world (resumeCrash t (crash_sweep cm (x :: rest)) w))))
      = Some (settled b "0.00" "0.00" t))
  /\
  (let w0 := flyingWorld (num 30000) in
   let r := flyingTick 30100 30100 (fun k => 30100 + Z.of_nat k) w0 in
   map_get "bet-1" (bets (storage w0)) = Some demoBet
   /\ isActive demoBet = true
   /\ option_map balance (getUser "default-user" (storage w0)) = Some "12480.50"
   /\ In (betCashedOut "bet-1" "default-user" (parseFloat "2.01") (parseFloat "201.00"))
        (events r)
   /\ option_map balance (getUser "default-user" (storage (world r))) = Some "12681.50"
   /\ map_get "bet-1" (bets (storage (world r)))
      = Some (settled demoBet "0.00" "0.00" 30105)).
Proof.
  split.
  - intros w t cm x rest b Hget _. unfold resumeCrash. mstep.
    rewrite (updateBetCashOut_bets _ _ _ _ _ _ Hget). cbn [storage bets set_bets].
    apply map_get_set_same.
  - vm_compute. repeat split. do 3 right. left. reflexivity.
Qed.

(* ================================================================== *)
(** ** The reading side of the store *)

Section SortFacts.

Context {A : Type}.
Variable comparefn : A -> A -> number.

Lemma insertSorted_perm (x : A) (l : list A) :
  Permutation (insertSorted comparefn x l) (x :: l).
Proof.
  induction l as [|y l IH]; cbn; [reflexivity|].
  destruct (sortsBefore comparefn y x); [|reflexivity].
  rewrite IH. apply perm_swap.
Qed.

Lemma sort_perm (l : list A) : Permutation (sort comparefn l) l.
Proof.
  induction l as [|x l IH]; cbn; [reflexivity|].
  rewrite insertSorted_perm. now constructor.
Qed.

Lemma sort_length (l : list A) : List.length (sort comparefn l) = List.length l.
Proof. apply Permutation_length, sort_perm. Qed.

(** [R a b]: [a] may stand before [b]; [P] holds of what is sorted. *)
Variable P : A -> Prop.
Variable R : A -> A -> Prop.
Hypothesis R_trans : forall a b c, P a -> P b -> P c -> R a b -> R b c -> R a c.
Hypothesis before_R : forall a b, P a -> P b -> sortsBefore comparefn a b = true -> R a b.
Hypothesis not_before_R : forall a b, P a -> P b -> sortsBefore comparefn a b = false -> R b a.

Lemma insertSorted_sorted (x : A) (l : list A) :
  P x -> Forall P l ->
  StronglySorted R l -> StronglySorted R (insertSorted comparefn x l).
Proof.
  intros Px. induction l as [|y l IH]; cbn; intros HP Hs.
  - constructor; constructor.
  - inversion Hs as [|? ? Hs' Hall]; subst.
    inversion HP as [|? ? Py HPl]; subst.
    destruct (sortsBefore comparefn y x) eqn:E.
    + constructor; [now apply IH|].
      rewrite Forall_forall. intros z Hz.
      apply (Permutation_in _ (insertSorted_perm x l)) in Hz.
      destruct Hz as [<- | Hz]; [now apply before_R|].
      rewrite Forall_forall in Hall. now apply Hall.
    + constructor; [exact Hs|].
      constructor; [now apply not_before_R|].
      rewrite Forall_forall in *. intros z Hz.
      apply (R_trans _ y); auto.
Qed.

Lemma sort_sorted (l : list A) : Forall P l -> StronglySorted R (sort comparefn l).
Proof.
  induction l as [|x l IH]; cbn; intros HP; [constructor|].
  inversion HP; subst. apply insertSorted_sorted; auto.
  rewrite Forall_forall in *. intros z Hz.
  apply (Permutation_in _ (sort_perm l)) in Hz. auto.
Qed.

End SortFacts.

Lemma firstn_In {A : Type} (n : nat) (l : list A) (x : A) :
  In x (List.firstn n l) -> In x l.
Proof.
  revert n. induction l as [|y l IH]; intros [|n]; cbn; try tauto.
  intros [-> | H]; [now left | right; now apply (IH n)].
Qed.

Lemma StronglySorted_firstn {A : Type} (R : A -> A -> Prop) (n : nat) (l : list A) :
  StronglySorted R l -> StronglySorted R (List.firstn n l).
Proof.
  revert n. induction l as [|x l IH]; intros [|n] Hs; cbn; try constructor.
  - inversion Hs; subst. now apply IH.
  - inversion Hs as [|? ? _ Hall]; subst. rewrite Forall_forall in *.
    intros z Hz. apply Hall. now apply (firstn_In n).
Qed.

Lemma truncate_inject_Z (n : Z) : truncate (inject_Z n) = n.
Proof.
  unfold truncate, Qltb. destruct (Qle_bool 0 (inject_Z n)) eqn:E; cbn [negb].
  - apply Qfloor_Z.
  - change (- inject_Z n)%Q with (inject_Z (- n)). rewrite Qfloor_Z. lia.
Qed.

Lemma sliceEnd_num (len n : Z) :
  sliceEnd len (num n) = if n <? 0 then Z.max (len + n) 0 else Z.min n len.
Proof. unfold sliceEnd, num. now rewrite truncate_inject_Z. Qed.

Lemma slice0_In {A : Type} (limit : number) (l : list A) (x : A) :
  In x (slice0 limit l) -> In x l.
Proof. apply firstn_In. Qed.

Lemma slice0_num_length {A : Type} (n : Z) (l : list A) :
  0 <= n -> List.length (slice0 (num n) l) = Nat.min (Z.to_nat n) (List.length l).
Proof.
  intros Hn. unfold slice0. rewrite sliceEnd_num, length_firstn.
  destruct (n <? 0) eqn:E; [apply Z.ltb_lt in E; lia|]. lia.
Qed.

Lemma slice0_num_all {A : Type} (n : Z) (l : list A) :
  Z.of_nat (List.length l) <= n -> slice0 (num n) l = l.
Proof.
  intros Hn. unfold slice0. rewrite sliceEnd_num.
  destruct (n <? 0) eqn:E; [apply Z.ltb_lt in E; lia|].
  apply firstn_all2. lia.
Qed.

Lemma slice0_negative_length {A : Type} (k : Z) (l : list A) :
  0 < k -> List.length (slice0 (num (- k)) l) = (List.length l - Z.to_nat k)%nat.
Proof.
  intros Hk. unfold slice0. rewrite sliceEnd_num, length_firstn.
  destruct (- k <? 0) eqn:E; [|apply Z.ltb_ge in E; lia]. lia.
Qed.

(** The comparator "larger key first" on integer keys. *)
Lemma later_first_before (x y : Z) :
  nlt (nsub (num y) (num x)) (num 0) = (y <? x).
Proof.
  unfold nsub, nneg, num. cbn [nadd].
  destruct (y <? x) eqn:E.
  - apply Z.ltb_lt in E.
    assert (H : nle (round64 (inject_Z y + Qred (- inject_Z x))) (round64 (-1)) = true).
    { apply round64_mono. rewrite Qred_correct.
      change (- inject_Z x)%Q with (inject_Z (- x)).
      rewrite <- inject_Z_plus. change (-1)%Q with (inject_Z (-1)).
      rewrite <- Zle_Qle. lia. }
    change (round64 (-1)) with (Fin (-1)) in H.
    destruct (round64 _) as [ | | | q]; cbn in H |- *; try easy.
    unfold Qltb. apply negb_true_iff.
    destruct (Qle_bool (inject_Z 0) q) eqn:Q; [|reflexivity].
    apply Qle_bool_iff in H. apply Qle_bool_iff in Q.
    change (inject_Z 0) with 0%Q in Q. lra.
  - apply Z.ltb_ge in E.
    assert (H : nle (round64 0) (round64 (inject_Z y + Qred (- inject_Z x))) = true).
    { apply round64_mono. rewrite Qred_correct.
      change (- inject_Z x)%Q with (inject_Z (- x)).
      rewrite <- inject_Z_plus. change 0%Q with (inject_Z 0).
      rewrite <- Zle_Qle. lia. }
    rewrite round64_zero in H.
    destruct (round64 _) as [ | | | q]; cbn in H |- *; try easy.
    unfold Qltb. apply negb_false_iff. exact H.
Qed.

Lemma recentGames_sorted (l : list Game) :
  StronglySorted (fun a b => crashTime b <= crashTime a)
    (sort (fun a b => nsub (num (crashTime b)) (num (crashTime a))) l).
Proof.
  apply (sort_sorted _ (fun _ => True)).
  - intros a b c _ _ _ Hab Hbc. lia.
  - intros a b _ _ H. unfold sortsBefore in H. rewrite later_first_before in H.
    apply Z.ltb_lt in H. lia.
  - intros a b _ _ H. unfold sortsBefore in H. rewrite later_first_before in H.
    apply Z.ltb_ge in H. lia.
  - rewrite Forall_forall. now intros.
Qed.

Lemma slice0_PosInf {A : Type} (l : list A) : slice0 PosInf l = l.
Proof. unfold slice0. cbn [sliceEnd]. rewrite Nat2Z.id. apply firstn_all. Qed.

(** [slice(0, limit)] keeps a front part of the array. *)
Lemma slice0_prefix {A : Type} (limit : number) (l : list A) :
  exists rest, l = (slice0 limit l ++ rest)%list.
Proof. unfold slice0. eexists. symmetry. apply firstn_skipn. Qed.

Lemma StronglySorted_app_between {A : Type} (R : A -> A -> Prop) (l1 l2 : list A) :
  StronglySorted R (l1 ++ l2) -> forall a b, In a l1 -> In b l2 -> R a b.
Proof.
  induction l1 as [|x l1 IH]; intros Hs a b Ha Hb; [contradiction|].
  cbn in Hs. inversion Hs as [|? ? Hs' Hall]; subst.
  destruct Ha as [<- | Ha]; [|now apply IH].
  rewrite Forall_forall in Hall. apply Hall. apply in_or_app. now right.
Qed.

(** X1. [getRecentGames] lists crashed games only, the latest crash first.
    With no limit ([Infinity]) it lists all of them; with any limit it
    lists a front part of that list, so whatever it leaves out crashed no
    later than whatever it keeps: for a limit [n >= 0] it keeps the [n]
    latest, or all when there are fewer; for a negative limit [-k] it
    leaves out the [k] oldest, which is all of them when there are no more
    than [k]. *)
Theorem getRecentGames_latest_first (limit : number) (st : MemStorage) :
  let crashedGames := List.filter hasCrashed (map_values (games st)) in
  (forall g, In g (getRecentGames limit st) ->
             In g (map_values (games st)) /\ crashedAt g <> None)
  /\ StronglySorted (fun a b => crashTime b <= crashTime a) (getRecentGames limit st)
  /\ (forall n, 0 <= n ->
        List.length (getRecentGames (num n) st)
        = Nat.min (Z.to_nat n) (List.length crashedGames))
  /\ (forall n, Z.of_nat (List.length crashedGames) <= n ->
        Permutation (getRecentGames (num n) st) crashedGames)
  /\ (forall k, 0 < k ->
        List.length (getRecentGames (num (- k)) st)
        = (List.length crashedGames - Z.to_nat k)%nat)
  /\ Permutation (getRecentGames PosInf st) crashedGames
  /\ (exists older,
        getRecentGames PosInf st = (getRecentGames limit st ++ older)%list
        /\ forall a b, In a (getRecentGames limit st) -> In b older ->
                       crashTime b <= crashTime a).
Proof.
  intros crashedGames. unfold getRecentGames. fold crashedGames.
  split; [|split; [|split; [|split; [|split; [|split]]]]];
    [| | | | | rewrite slice0_PosInf; apply sort_perm
     | rewrite slice0_PosInf;
       destruct (slice0_prefix limit
                   (sort (fun a b => nsub (num (crashTime b)) (num (crashTime a)))
                      crashedGames)) as [older Hold];
       exists older; split; [exact Hold|];
       apply StronglySorted_app_between; rewrite <- Hold; apply recentGames_sorted ].
  - intros g Hg. apply slice0_In in Hg.
    apply (Permutation_in _ (sort_perm _ _)) in Hg.
    unfold crashedGames in Hg. apply filter_In in Hg. destruct Hg as [Hin Hc].
    split; [exact Hin|]. unfold hasCrashed in Hc. now destruct (crashedAt g).
  - apply StronglySorted_firstn, recentGames_sorted.
  - intros n Hn. now rewrite slice0_num_length, sort_length.
  - intros n Hn. rewrite slice0_num_all by now rewrite sort_length.
    apply sort_perm.
  - intros k Hk. now rewrite slice0_negative_length, sort_length.
Qed.

Lemma map_set_fresh {V : Type} (k : string) (v : V) (m : jsmap V) :
  map_get k m = None -> map_set k v m = (m ++ [(k, v)])%list.
Proof.
  induction m as [|[k' v'] m IH]; cbn; [reflexivity|].
  destruct (String.eqb k k'); [discriminate|]. intros H. now rewrite IH.
Qed.

Lemma map_values_set_In {V : Type} (k : string) (v v0 : V) (m : jsmap V) :
  In v0 (map_values (map_set k v m)) -> v0 = v \/ In v0 (map_values m).
Proof.
  unfold map_values. rewrite !in_map_iff. intros [[k0 v1] [Hv Hin]]. cbn in Hv. subst v1.
  apply map_set_In in Hin. destruct Hin as [[_ Hv] | Hin]; [left; exact Hv|].
  right. now exists (k0, v0).
Qed.

(** X2. [createGame], then the lookups: the new game is found under its id,
    as created (multiplier "0.00", no salt, not crashed); games under other
    ids are found as before; the new game is found by its round id when no
    stored game had that round id; and, the id being new, the other rounds
    and the list of recent games read as before. *)
Theorem createGame_then_lookup (id : string) (now rid : Z) (h : string) (st : MemStorage) :
  let g := fst (createGame id now rid h st) in
  let st' := snd (createGame id now rid h st) in
  getGame id st' = Some g
  /\ (game_multiplier g = "0.00" /\ game_salt g = None /\ crashedAt g = None
      /\ game_roundId g = rid /\ game_hash g = h)
  /\ (forall k, k <> id -> getGame k st' = getGame k st)
  /\ ((forall g0, In g0 (map_values (games st)) -> game_roundId g0 <> rid) ->
      getGameByRoundId rid st' = Some g)
  /\ (map_get id (games st) = None ->
      (forall r0, r0 <> rid -> getGameByRoundId r0 st' = getGameByRoundId r0 st)
      /\ forall limit, getRecentGames limit st' = getRecentGames limit st).
Proof.
  intros g st'. subst g st'. unfold createGame, getGame. cbn [fst snd games set_games].
  split; [apply map_get_set_same|]. split; [now repeat split|].
  split; [intros k Hk; now apply map_get_set_other|]. split.
  - intros Hnew. unfold getGameByRoundId. cbn [games set_games].
    destruct (find _ _) as [g0|] eqn:Hfind.
    + apply find_some in Hfind. destruct Hfind as [Hin Hr]. apply Z.eqb_eq in Hr.
      apply map_values_set_In in Hin. destruct Hin as [-> | Hin]; [reflexivity|].
      now contradiction (Hnew g0 Hin).
    + exfalso.
      assert (Hin : In (mkGame id rid "0.00" h None (Some now) None)
                      (map_values (games (set_games
                         (map_set id (mkGame id rid "0.00" h None (Some now) None) (games st))
                         st)))).
      { unfold map_values. apply in_map_iff.
        exists (id, mkGame id rid "0.00" h None (Some now) None).
        split; [reflexivity|]. apply map_get_In, map_get_set_same. }
      pose proof (find_none _ _ Hfind _ Hin) as Hn. cbn in Hn.
      rewrite Z.eqb_refl in Hn. discriminate.
  - intros Hfresh. split.
    + intros r0 Hr0. unfold getGameByRoundId. cbn [games set_games].
      rewrite (map_set_fresh _ _ _ Hfresh). unfold map_values. rewrite map_app. cbn [List.map snd].
      induction (List.map snd (games st)) as [|g0 l IH]; cbn.
      * destruct (rid =? r0) eqn:E; [apply Z.eqb_eq in E; congruence | reflexivity].
      * destruct (game_roundId g0 =? r0); [reflexivity | exact IH].
    + intros limit. unfold getRecentGames. cbn [games set_games].
      rewrite (map_set_fresh _ _ _ Hfresh). unfold map_values. rewrite map_app, filter_app.
      cbn. now rewrite app_nil_r.
Qed.

(** X3. A game that crashes later than every crash on record heads the list of
    recent games. *)
Theorem crashed_game_heads_recent (gid mult s : string) (now n : Z)
    (st : MemStorage) (g : Game) :
  getGame gid st = Some g ->
  (forall g0, In g0 (map_values (games st)) -> hasCrashed g0 = true -> crashTime g0 < now) ->
  1 <= n ->
  List.hd_error (getRecentGames (num n) (updateGameCrash gid mult s now st))
  = Some (mkGame (game_id g) (game_roundId g) mult (game_hash g) (Some s)
            (startedAt g) (Some now)).
Proof.
  intros Hg Hlater Hn. unfold getGame in Hg. unfold updateGameCrash. rewrite Hg.
  set (g' := mkGame (game_id g) (game_roundId g) mult (game_hash g) (Some s)
               (startedAt g) (Some now)).
  unfold getRecentGames. cbn [games set_games].
  set (crashedGames := List.filter hasCrashed (map_values (map_set gid g' (games st)))).
  set (cmp := fun a b : Game => nsub (num (crashTime b)) (num (crashTime a))).
  assert (Hin : In g' (sort cmp crashedGames)).
  { apply (Permutation_in _ (Permutation_sym (sort_perm cmp crashedGames))).
    apply filter_In. split; [|reflexivity].
    unfold map_values. apply in_map_iff. exists (gid, g'). split; [reflexivity|].
    apply map_get_In, map_get_set_same. }
  pose proof (recentGames_sorted crashedGames) as Hsorted. fold cmp in Hsorted.
  assert (Hmem : forall x, In x (sort cmp crashedGames) -> x = g' \/ crashTime x < now).
  { intros x Hx. apply (Permutation_in _ (sort_perm cmp crashedGames)) in Hx.
    apply filter_In in Hx. destruct Hx as [Hx Hc].
    apply map_values_set_In in Hx. destruct Hx as [-> | Hx]; [now left|].
    right. now apply Hlater. }
  destruct (sort cmp crashedGames) as [|x l] eqn:Hl; [contradiction|].
  unfold slice0. rewrite sliceEnd_num.
  destruct (n <? 0) eqn:E; [apply Z.ltb_lt in E; lia|].
  cbn [List.length].
  destruct (Z.to_nat (Z.min n (Z.of_nat (S (List.length l))))) as [|m] eqn:Em; [lia|].
  cbn [List.firstn hd_error]. f_equal.
  destruct (Hmem x (or_introl eq_refl)) as [-> | Hx]; [reflexivity|].
  exfalso. destruct Hin as [-> | Hin]; [cbn in Hx; lia|].
  inversion Hsorted as [|? ? _ Hall]; subst. rewrite Forall_forall in Hall.
  specialize (Hall g' Hin). cbn in Hall. lia.
Qed.

Lemma crashed_game_heads_recent_witness :
  let g := mkGame "g3" 127537 "0.00" "cc" None (Some 61000) None in
  getGame "g3" demoHistory = Some g
  /\ (forall g0, In g0 (map_values (games demoHistory)) -> hasCrashed g0 = true ->
                 crashTime g0 < 70000)
  /\ 1 <= 5
  /\ List.hd_error (getRecentGames (num 5) (updateGameCrash "g3" "1.4" "s3" 70000 demoHistory))
     = Some (mkGame (game_id g) (game_roundId g) "1.4" (game_hash g) (Some "s3")
               (startedAt g) (Some 70000)).
Proof.
  intros g.
  assert (H1 : getGame "g3" demoHistory = Some g) by reflexivity.
  assert (H2 : forall g0, In g0 (map_values (games demoHistory)) -> hasCrashed g0 = true ->
                          crashTime g0 < 70000).
  { intros g0 [<- | [<- | [<- | []]]] Hc; cbn in *; (lia || discriminate). }
  assert (H3 : 1 <= 5) by lia.
  split; [exact H1|]. split; [exact H2|]. split; [exact H3|].
  exact (crashed_game_heads_recent "g3" "1.4" "s3" 70000 5 demoHistory g H1 H2 H3).
Defined.

(** *** Player statistics *)

Lemma nle_trans (a b c : number) :
  nle a b = true -> nle b c = true -> nle a c = true.
Proof.
  destruct a as [| | |x], b as [| | |y], c as [| | |z]; cbn; try congruence.
  rewrite !Qle_bool_iff. apply Qle_trans.
Qed.

Lemma nle_not_ngt (a b : number) : nle a b = true -> ngt a b = false.
Proof.
  unfold ngt. destruct a as [| | |x], b as [| | |y]; cbn; try congruence.
  unfold Qltb. intros ->. reflexivity.
Qed.

Lemma ngt_nle (a b : number) : ngt a b = true -> nle b a = true.
Proof.
  unfold ngt. destruct a as [| | |x], b as [| | |y]; cbn; try congruence.
  unfold Qltb. rewrite negb_true_iff. intros H. apply Qle_bool_iff.
  destruct (Qlt_le_dec y x) as [Hlt | Hle]; [now apply Qlt_le_weak|].
  apply Qle_bool_iff in Hle. congruence.
Qed.

(** Between two numbers, "not greater" is "at most". *)
Lemma not_ngt_nle (a b : number) :
  ngt a b = false -> a = NaN \/ b = NaN \/ nle a b = true.
Proof.
  unfold ngt. destruct a as [| | |x], b as [| | |y]; cbn; try tauto; try congruence.
  unfold Qltb. rewrite negb_false_iff. tauto.
Qed.

Lemma nle_zero_not_NaN (a : number) : nle (num 0) a = true -> a <> NaN.
Proof. now destruct a. Qed.

Lemma filter_disjoint_length {A : Type} (f g : A -> bool) (l : list A) :
  (forall x, f x = true -> g x = true -> False) ->
  (List.length (List.filter f l) + List.length (List.filter g l) <= List.length l)%nat.
Proof.
  intros Hfg. induction l as [|x l IH]; cbn; [lia|].
  destruct (f x) eqn:Ef, (g x) eqn:Eg; cbn; try lia.
  exfalso. now apply (Hfg x).
Qed.

Lemma isWin_not_isLoss (b : Bet) : isWin b = true -> isLoss b = true -> False.
Proof.
  unfold isWin, isLoss. destruct (truthy (winAmount b)) as [w|]; [|discriminate].
  unfold ngt. destruct (parseFloat w) as [| | |x]; cbn; try discriminate.
  unfold Qltb. rewrite negb_true_iff. intros Hlt Heq.
  apply Qeq_bool_iff in Heq. rewrite Heq in Hlt. discriminate.
Qed.

(** A value between two doubles rounds to a double between them. *)
Lemma round64_between (lo hi x : Q) :
  round64 lo = Fin lo -> round64 hi = Fin hi ->
  (lo <= x)%Q -> (x <= hi)%Q ->
  exists q, round64 x = Fin q /\ (lo <= q)%Q /\ (q <= hi)%Q.
Proof.
  intros Hlo Hhi H1 H2.
  pose proof (round64_mono lo x H1) as M1. pose proof (round64_mono x hi H2) as M2.
  rewrite Hlo in M1. rewrite Hhi in M2.
  destruct (round64 x) as [ | | | q]; cbn in M1, M2; try discriminate.
  exists q. split; [reflexivity|]. split; now apply Qle_bool_iff.
Qed.

(** The rate computed from [w] wins among [t] counted bets. *)
Lemma winRate_value (w t : nat) :
  (0 < t)%nat -> (w <= t)%nat ->
  exists k,
    Math_round (nmul (ndiv (num (Z.of_nat w)) (num (Z.of_nat t))) (num 100)) = num k
    /\ 0 <= k <= 100 /\ (w = 0%nat -> k = 0) /\ (w = t -> k = 100).
Proof.
  intros Ht Hw. unfold ndiv, num, Qsgn.
  assert (Hpos : (0 < inject_Z (Z.of_nat t))%Q).
  { change 0%Q with (inject_Z 0). rewrite <- Zlt_Qlt. lia. }
  assert (Hc : Qcompare (inject_Z (Z.of_nat t)) 0 = Gt) by now apply Qgt_alt.
  rewrite Hc.
  assert (Hfrac0 : (0 <= inject_Z (Z.of_nat w) / inject_Z (Z.of_nat t))%Q).
  { apply Qle_shift_div_l; [exact Hpos|]. rewrite Qmult_0_l.
    change 0%Q with (inject_Z 0). rewrite <- Zle_Qle. lia. }
  assert (Hfrac1 : (inject_Z (Z.of_nat w) / inject_Z (Z.of_nat t) <= 1)%Q).
  { apply Qle_shift_div_r; [exact Hpos|]. rewrite Qmult_1_l.
    rewrite <- Zle_Qle. lia. }
  destruct (round64_between 0 1 _ eq_refl eq_refl Hfrac0 Hfrac1) as [q1 [E1 [L1 U1]]].
  assert (H100 : round64 100 = Fin 100) by (vm_compute; reflexivity).
  assert (L2 : (0 <= q1 * inject_Z 100)%Q) by (change (inject_Z 100) with 100%Q; lra).
  assert (U2 : (q1 * inject_Z 100 <= 100)%Q) by (change (inject_Z 100) with 100%Q; lra).
  destruct (round64_between 0 100 _ eq_refl H100 L2 U2) as [q2 [E2 [L3 U3]]].
  exists (Qfloor (q2 + (1 # 2))%Q).
  split; [|split; [split|split]].
  - rewrite E1. cbn [nmul]. rewrite E2. reflexivity.
  - change 0 with (Qfloor (inject_Z 0)). apply Qfloor_resp_le.
    change (inject_Z 0) with 0%Q. lra.
  - change 100 with (Qfloor (100 + (1 # 2))%Q). apply Qfloor_resp_le. lra.
  - intros ->.
    rewrite (round64_Qeq _ 0) in E1
      by (cbn [Z.of_nat]; unfold Qdiv; now rewrite Qmult_0_l).
    injection E1 as E1. subst q1.
    rewrite (round64_Qeq _ 0) in E2 by now rewrite Qmult_0_l.
    injection E2 as E2. subst q2. reflexivity.
  - intros ->.
    rewrite (round64_Qeq _ 1) in E1.
    2:{ field. intros H. rewrite H in Hpos. now apply Qlt_irrefl in Hpos. }
    injection E1 as E1. subst q1.
    rewrite (round64_Qeq _ 100) in E2 by (change (inject_Z 100) with 100%Q; ring).
    rewrite H100 in E2. injection E2 as E2. subst q2. reflexivity.
Qed.

(** X4. [getUserStats] counts a settled bet of the player at most once, as a
    win or as a loss, and its win rate is a whole number from 0 to 100: 0
    when no bet was a win, 100 when every counted bet was; a player with no
    settled bet gets zeros and the biggest win "0.00". *)
Theorem getUserStats_counts (uid : string) (st : MemStorage) :
  let s := getUserStats uid st in
  let settledBets :=
    List.filter (fun bet => String.eqb (userId bet) uid && negb (isActive bet))
      (map_values (bets st)) in
  (totalWins s + totalLosses s <= List.length settledBets)%nat
  /\ (exists k, winRate s = num k /\ 0 <= k <= 100)
  /\ (totalWins s = 0%nat -> winRate s = num 0)
  /\ (totalLosses s = 0%nat -> (0 < totalWins s)%nat -> winRate s = num 100)
  /\ (settledBets = [] -> s = mkUserStats 0 0 "0.00" (num 0)).
Proof.
  intros s settledBets. subst s. unfold getUserStats. fold settledBets.
  cbn [totalWins totalLosses winRate].
  set (w := List.length (List.filter isWin settledBets)).
  set (l := List.length (List.filter isLoss settledBets)).
  assert (Hsum : (w + l <= List.length settledBets)%nat)
    by (apply filter_disjoint_length, isWin_not_isLoss).
  split; [exact Hsum|].
  destruct (0 <? w + l)%nat eqn:E.
  - apply Nat.ltb_lt in E.
    destruct (winRate_value w (w + l) E ltac:(lia)) as [k [-> [Hb [H0 H100]]]].
    split; [exists k; split; [reflexivity | exact Hb]|].
    split; [intros Hw; now rewrite H0|].
    split; [intros Hl _; rewrite H100; [reflexivity | lia]|].
    intros Hnil. exfalso. subst w l. rewrite Hnil in E. cbn in E. lia.
  - apply Nat.ltb_ge in E.
    split; [exists 0; split; [reflexivity | lia]|].
    split; [reflexivity|]. split; [intros _ Hw; lia|].
    intros Hnil. subst w l. rewrite Hnil. reflexivity.
Qed.

Lemma ngt_NaN_l (a : number) : ngt NaN a = false.
Proof. now destruct a. Qed.

Lemma nle_refl_above (z a : number) : nle z a = true -> nle a a = true.
Proof.
  destruct z as [| | |x], a as [| | |y]; cbn; try congruence.
  all: intros _; apply Qle_bool_iff, Qle_refl.
Qed.

(** What the reducer of [biggestWin] keeps true of its accumulator. *)
Lemma largerCashOut_step (max : string) (b : Bet) :
  nle (num 0) (parseFloat max) = true ->
  nle (parseFloat max) (parseFloat (largerCashOut max b)) = true
  /\ (largerCashOut max b = max \/ cashOutAt b = Some (largerCashOut max b))
  /\ forall c, cashOutAt b = Some c ->
       ngt (parseFloat c) (parseFloat (largerCashOut max b)) = false.
Proof.
  intros Hmax. pose proof (nle_refl_above _ _ Hmax) as Hrefl.
  unfold largerCashOut. destruct (cashOutAt b) as [c|] eqn:Hc; cbn [truthy].
  - destruct c as [|ch c'].
    + split; [exact Hrefl|]. split; [now left|].
      intros c [= <-]. change (parseFloat "") with NaN. apply ngt_NaN_l.
    + destruct (ngt (parseFloat (String ch c')) (parseFloat max)) eqn:G.
      * split; [now apply ngt_nle|]. split; [now right|].
        intros c [= <-]. apply nle_not_ngt.
        exact (nle_refl_above _ _ (ngt_nle _ _ G)).
      * split; [exact Hrefl|]. split; [now left|]. intros c [= <-]. exact G.
  - split; [exact Hrefl|]. split; [now left|]. intros c [=].
Qed.

Lemma largerCashOut_fold (l : list Bet) :
  forall max,
    nle (num 0) (parseFloat max) = true ->
    let r := List.fold_left largerCashOut l max in
    nle (parseFloat max) (parseFloat r) = true
    /\ (r = max \/ exists b, In b l /\ cashOutAt b = Some r)
    /\ forall b c, In b l -> cashOutAt b = Some c -> ngt (parseFloat c) (parseFloat r) = false.
Proof.
  induction l as [|b l IH]; intros max Hmax; cbn [List.fold_left].
  - split; [exact (nle_refl_above _ _ Hmax)|]. split; [now left | intros ? ? []].
  - destruct (largerCashOut_step max b Hmax) as [Hle [Hfrom Hb]].
    destruct (IH (largerCashOut max b) (nle_trans _ _ _ Hmax Hle)) as [Hle' [Hfrom' Hall]].
    split; [exact (nle_trans _ _ _ Hle Hle')|]. split.
    + destruct Hfrom' as [-> | [b' [Hin Hc]]].
      * destruct Hfrom as [-> | Hc]; [now left | right; exists b; split; [now left | exact Hc]].
      * right. exists b'. split; [now right | exact Hc].
    + intros b' c [<- | Hin] Hc; [|now apply (Hall b' c)].
      specialize (Hb c Hc).
      destruct (not_ngt_nle _ _ Hb) as [Hn | [Hn | Hn]].
      * rewrite Hn. apply ngt_NaN_l.
      * exfalso. now apply (nle_zero_not_NaN _ (nle_trans _ _ _ Hmax Hle)).
      * apply nle_not_ngt. exact (nle_trans _ _ _ Hn Hle').
Qed.

(** X5. The [biggestWin] of [getUserStats] is a cash-out multiplier, not an
    amount: it is "0.00" or the [cashOutAt] of a settled bet of the player,
    it reads as a number that is at least 0, and no settled bet of the
    player was cashed out at a greater multiplier. *)
Theorem getUserStats_biggestWin (uid : string) (st : MemStorage) :
  let s := getUserStats uid st in
  nle (num 0) (parseFloat (biggestWin s)) = true
  /\ (biggestWin s = "0.00"
      \/ exists b, In b (map_values (bets st)) /\ userId b = uid /\ isActive b = false
                   /\ cashOutAt b = Some (biggestWin s))
  /\ forall b c,
       In b (map_values (bets st)) -> userId b = uid -> isActive b = false ->
       cashOutAt b = Some c ->
       ngt (parseFloat c) (parseFloat (biggestWin s)) = false.
Proof.
  intros s. subst s. unfold getUserStats. cbn [biggestWin].
  set (settledBets := List.filter _ (map_values (bets st))).
  assert (H0 : nle (num 0) (parseFloat "0.00") = true) by reflexivity.
  destruct (largerCashOut_fold settledBets "0.00" H0) as [Hle [Hfrom Hall]].
  assert (Hmem : forall b, In b settledBets <->
            In b (map_values (bets st)) /\ userId b = uid /\ isActive b = false).
  { intros b. unfold settledBets. rewrite filter_In, andb_true_iff, String.eqb_eq,
      negb_true_iff. tauto. }
  split; [exact Hle|]. split.
  - destruct Hfrom as [-> | [b [Hin Hc]]]; [now left|].
    right. exists b. apply Hmem in Hin. tauto.
  - intros b c Hin Hu Ha Hc. apply (Hall b c); [|exact Hc]. apply Hmem. tauto.
Qed.

(* ================================================================== *)
(** ** Money text: [toFixed(2)] read back *)

Lemma digits_fuel_more (f1 : nat) :
  forall (f2 : nat) (n : Z) (acc : string),
    (1 <= f1 <= f2)%nat -> 0 <= n < 10 ^ Z.of_nat f1 ->
    digits_fuel f1 n acc = digits_fuel f2 n acc.
Proof.
  induction f1 as [|f1 IH]; intros f2 n acc Hf Hn; [lia|].
  destruct f2 as [|f2]; [lia|]. cbn [digits_fuel].
  destruct (n / 10 =? 0) eqn:E; [reflexivity|]. apply Z.eqb_neq in E.
  assert (Hdiv : 0 <= n / 10 < 10 ^ Z.of_nat f1).
  { split; [apply Z.div_pos; lia|]. apply Z.div_lt_upper_bound; [lia|].
    rewrite Nat2Z.inj_succ, Z.pow_succ_r in Hn by lia. lia. }
  assert (1 <= f1)%nat.
  { destruct f1; [|lia]. cbn in Hdiv. lia. }
  apply IH; [lia | exact Hdiv].
Qed.

Lemma digits_small (n : Z) : 0 <= n < 10 -> digits n = String (ascii_of_digit n) "".
Proof.
  intros Hn. unfold digits. cbn [digits_fuel].
  rewrite Z.div_small by lia. reflexivity.
Qed.

Lemma digits_snoc (n : Z) :
  10 <= n -> digits n = (digits (n / 10) ++ String (ascii_of_digit n) "")%string.
Proof.
  intros Hn. unfold digits at 1. cbn [digits_fuel].
  assert (Hd : 1 <= n / 10) by (apply Z.div_le_lower_bound; lia).
  destruct (n / 10 =? 0) eqn:E; [apply Z.eqb_eq in E; lia|].
  unfold digits. rewrite digits_fuel_app. cbn [append].
  symmetry. apply digits_fuel_more.
  - split; [lia|].
    assert (Z.log2 (n / 10) < Z.log2 n).
    { apply Z.log2_lt_pow2; [lia|].
      pose proof (Z.log2_spec n ltac:(lia)) as [_ Hlt].
      rewrite Z.pow_succ_r in Hlt by apply Z.log2_nonneg.
      apply Z.le_lt_trans with (n / 2).
      - apply Z.div_le_compat_l; lia.
      - apply Z.div_lt_upper_bound; lia. }
    pose proof (Z.log2_nonneg (n / 10)). lia.
  - split; [lia|]. apply digits_fuel_bound. lia.
Qed.

Lemma substring_prefix (a b : string) :
  substring 0 (String.length a) (a ++ b) = a.
Proof. induction a as [|c a IH]; cbn; [now destruct b | now rewrite IH]. Qed.

Lemma substring_suffix (a b : string) :
  substring (String.length a) (String.length b) (a ++ b) = b.
Proof.
  induction a as [|c a IH]; cbn; [|exact IH].
  induction b as [|c b IHb]; cbn; [reflexivity | now rewrite IHb].
Qed.

Lemma length_append (a b : string) :
  String.length (a ++ b) = (String.length a + String.length b)%nat.
Proof. induction a as [|c a IH]; cbn; [reflexivity | now rewrite IH]. Qed.

Lemma digits_length_pos (n : Z) : (1 <= String.length (digits n))%nat.
Proof. destruct (digits_head n) as [d [r ->]]. cbn. lia. Qed.

(** The text of a whole number of cents [n]: the units, the point, two
    digits. *)
Lemma cents_text (n : Z) :
  0 <= n ->
  let m := digits n in
  let k := String.length m in
  let m' := if (k <=? 2)%nat then (zeros (3 - k) ++ m)%string else m in
  let k' := String.length m' in
  (substring 0 (k' - 2) m' ++ "." ++ substring (k' - 2) 2 m')%string
  = (digits (n / 100)
     ++ String "." (String (ascii_of_digit (n / 10)) (String (ascii_of_digit n) "")))%string.
Proof.
  intros Hn. cbn zeta.
  destruct (Z_lt_le_dec n 10) as [H10 | H10].
  - rewrite (digits_small n) by lia. rewrite (Z.div_small n 100), (Z.div_small n 10) by lia.
    reflexivity.
  - rewrite (digits_snoc n H10).
    destruct (Z_lt_le_dec n 100) as [H100 | H100].
    + assert (Hs : 0 <= n / 10 < 10).
      { split; [apply Z.div_pos; lia | apply Z.div_lt_upper_bound; lia]. }
      rewrite (digits_small (n / 10) Hs), (Z.div_small n 100) by lia. reflexivity.
    + assert (Hd : 10 <= n / 10) by (apply Z.div_le_lower_bound; lia).
      rewrite (digits_snoc (n / 10) Hd), Z.div_div by lia. change (10 * 10) with 100.
      set (a := digits (n / 100)).
      set (t := String (ascii_of_digit (n / 10)) (String (ascii_of_digit n) "")).
      assert (Happ : ((a ++ String (ascii_of_digit (n / 10)) "")
                      ++ String (ascii_of_digit n) "")%string = (a ++ t)%string).
      { clear. induction a as [|c a IH]; cbn; [reflexivity | now rewrite IH]. }
      rewrite Happ.
      assert (Hlen : String.length (a ++ t) = (String.length a + 2)%nat)
        by now rewrite length_append.
      pose proof (digits_length_pos (n / 100)) as Hpos. fold a in Hpos.
      rewrite Hlen.
      destruct (String.length a + 2 <=? 2)%nat eqn:E; [apply Nat.leb_le in E; lia|].
      rewrite Hlen. replace (String.length a + 2 - 2)%nat with (String.length a) by lia.
      rewrite substring_prefix.
      change 2%nat with (String.length t) at 1. now rewrite substring_suffix.
Qed.

Lemma toFixed2_nonneg (q : Q) :
  (0 <= q)%Q ->
  Qle_bool (pow10 21) (Qabs q) = false ->
  let n := Qfloor (Qabs q * 100 + (1 # 2))%Q in
  toFixed2 (Fin q)
  = (digits (n / 100)
     ++ String "." (String (ascii_of_digit (n / 10)) (String (ascii_of_digit n) "")))%string.
Proof.
  intros Hq Hbig n. unfold toFixed2.
  assert (Hs : Qltb q 0 = false).
  { unfold Qltb. apply negb_false_iff. now apply Qle_bool_iff. }
  rewrite Hs, Hbig. cbn [append]. fold n. apply cents_text.
  subst n. change 0 with (Qfloor (inject_Z 0)). apply Qfloor_resp_le.
  pose proof (Qabs_nonneg q). change (inject_Z 0) with 0%Q. lra.
Qed.

Lemma two_digits_read (a b : Z) :
  read_digits (String (ascii_of_digit a) (String (ascii_of_digit b) "")) 0 0
  = (10 * (a mod 10) + b mod 10, 2, "").
Proof.
  cbn [read_digits]. rewrite !digit_of_ascii_of_digit. cbn [read_digits].
  repeat f_equal; lia.
Qed.

(** A whole number of cents, printed, reads back as itself. *)
Lemma cents_parse (n : Z) :
  0 <= n ->
  parseFloat (digits (n / 100)
              ++ String "." (String (ascii_of_digit (n / 10)) (String (ascii_of_digit n) "")))
  = round64 (inject_Z n / inject_Z 100).
Proof.
  intros Hn.
  assert (Hi : 0 <= n / 100) by (apply Z.div_pos; lia).
  destruct (digits_head (n / 100)) as [d [r Hhead]].
  destruct (digits_read (n / 100) Hi) as [L [HL Hread]].
  rewrite Hhead. cbn [append]. rewrite parseFloat_digit_head.
  change (String (ascii_of_digit d) (r ++ ?x))%string
    with (String (ascii_of_digit d) r ++ x)%string.
  rewrite <- Hhead.
  rewrite (parse_decimal_frac (n / 100) L (10 * ((n / 10) mod 10) + n mod 10) 2
             _ (String (ascii_of_digit (n / 10)) (String (ascii_of_digit n) ""))).
  - rewrite (decimal_value_hundredths _ _ 2 (n mod 100)).
    + apply round64_Qeq. rewrite Qred_correct. symmetry. apply hundredths_split.
    + lia.
    + change (10 ^ 2) with 100. f_equal.
      rewrite (Z.mod_eq n 100) by lia. rewrite (Z.mod_eq (n / 10) 10) by lia.
      rewrite (Z.mod_eq n 10) by lia. rewrite Z.div_div by lia. change (10 * 10) with 100. lia.
  - exact HL.
  - rewrite Hread. cbn [Z.mul Z.add]. rewrite read_digits_dot. repeat f_equal; lia.
  - apply two_digits_read.
Qed.

(** [toFixed(2)] of a value that is not negative reads back as the double
    nearest to the value rounded to cents. *)
Lemma toFixed2_parse (q : Q) :
  (0 <= q)%Q ->
  Qle_bool (pow10 21) (Qabs q) = false ->
  parseFloat (toFixed2 (Fin q))
  = round64 (inject_Z (Qfloor (Qabs q * 100 + (1 # 2))%Q) / inject_Z 100).
Proof.
  intros Hq Hbig. rewrite (toFixed2_nonneg q Hq Hbig). apply cents_parse.
  change 0 with (Qfloor (inject_Z 0)). apply Qfloor_resp_le.
  pose proof (Qabs_nonneg q). change (inject_Z 0) with 0%Q. lra.
Qed.

(** *** Text that starts with a digit *)

Lemma pow10_pos (e : Z) : (0 < pow10 e)%Q.
Proof.
  unfold pow10. destruct (0 <=? e) eqn:E.
  - apply Z.leb_le in E. change 0%Q with (inject_Z 0). rewrite <- Zlt_Qlt.
    apply Z.pow_pos_nonneg; lia.
  - apply Z.leb_gt in E. apply Qinv_lt_0_compat.
    change 0%Q with (inject_Z 0). rewrite <- Zlt_Qlt. apply Z.pow_pos_nonneg; lia.
Qed.

Lemma digit_of_nonneg (c : ascii) (d : Z) : digit_of c = Some d -> 0 <= d.
Proof.
  unfold digit_of. destruct (_ && _) eqn:E; [|discriminate].
  apply andb_prop in E. destruct E as [E _]. apply Z.leb_le in E. intros [= <-]. lia.
Qed.

Lemma read_digits_nonneg (s : string) :
  forall a c, 0 <= a -> 0 <= fst (fst (read_digits s a c)) /\ c <= snd (fst (read_digits s a c)).
Proof.
  induction s as [|ch s IH]; intros a c Ha; cbn [read_digits]; [cbn; lia|].
  destruct (digit_of ch) as [d|] eqn:E; [|cbn; lia].
  pose proof (digit_of_nonneg ch d E).
  destruct (IH (10 * a + d) (c + 1) ltac:(lia)) as [H1 H2]. split; [exact H1 | lia].
Qed.

Lemma decimal_value_nonneg (ip fp nf e : Z) :
  0 <= ip -> 0 <= fp -> (0 <= decimal_value ip fp nf e)%Q.
Proof.
  intros Hi Hf. unfold decimal_value. rewrite Qred_correct.
  pose proof (pow10_pos (- nf)) as P1. pose proof (pow10_pos e) as P2.
  assert (Qi : (0 <= inject_Z ip)%Q) by (change 0%Q with (inject_Z 0); now rewrite <- Zle_Qle).
  assert (Qf : (0 <= inject_Z fp)%Q) by (change 0%Q with (inject_Z 0); now rewrite <- Zle_Qle).
  apply Qmult_le_0_compat; [|lra].
  assert (0 <= inject_Z fp * pow10 (- nf))%Q by (apply Qmult_le_0_compat; lra). lra.
Qed.

(** A text that starts with a digit reads as a number that is not
    negative. *)
Lemma parseFloat_digit_nonneg (d : Z) (r : string) :
  nle (num 0) (parseFloat (String (ascii_of_digit d) r)) = true.
Proof.
  rewrite parseFloat_digit_head. unfold parse_decimal.
  cbn [read_digits]. rewrite digit_of_ascii_of_digit.
  pose proof (Z.mod_pos_bound d 10 ltac:(lia)) as Hd.
  pose proof (read_digits_nonneg r (10 * 0 + d mod 10) (0 + 1) ltac:(lia)) as [Hip Hni].
  destruct (read_digits r (10 * 0 + d mod 10) (0 + 1)) as [[ip ni] s2]. cbn [fst snd] in Hip, Hni.
  assert (Hfrac : forall fp nf s3, parse_fraction ni s2 = (fp, nf, s3) -> 0 <= fp).
  { intros fp nf s3. unfold parse_fraction.
    destruct s2 as [|c s2']; [intros [= <- _ _]; lia|].
    destruct (Ascii.eqb c ".") eqn:Ec.
    - apply Ascii.eqb_eq in Ec. subst c.
      pose proof (read_digits_nonneg s2' 0 0 ltac:(lia)) as [Hfp _].
      destruct (read_digits s2' 0 0) as [[fp0 nf0] s30]. cbn [fst] in Hfp.
      destruct ((ni =? 0) && (nf0 =? 0)); intros [= <- _ _]; lia.
    - assert (Hother : match c with
                       | "."%char => let '(fp, nf, s3) := read_digits s2' 0 0 in
                                     if (ni =? 0) && (nf =? 0) then (0, 0, String c s2')
                                     else (fp, nf, s3)
                       | _ => (0, 0, String c s2')
                       end = (0, 0, String c s2')).
      { destruct c as [[|] [|] [|] [|] [|] [|] [|] [|]]; try reflexivity. discriminate. }
      rewrite Hother. intros [= <- _ _]; lia. }
  destruct (parse_fraction ni s2) as [[fp nf] s3] eqn:Ef.
  assert (Hni0 : (ni =? 0) = false) by (apply Z.eqb_neq; lia).
  rewrite Hni0. cbn [andb].
  apply round64_nonneg. apply decimal_value_nonneg; [exact Hip | now apply (Hfrac fp nf s3)].
Qed.

Lemma substring_head (n : nat) (c : ascii) (r : string) :
  substring 0 (S n) (String c r) = String c (substring 0 n r).
Proof. reflexivity. Qed.

Lemma layout_head (s e : Z) : exists d r, layout s e = String (ascii_of_digit d) r.
Proof.
  unfold layout. destruct (digits_head s) as [d [r ->]].
  set (k := Z.of_nat (String.length (String (ascii_of_digit d) r))).
  destruct ((k <=? e + k) && (e + k <=? 21)); [now exists d; eexists|].
  destruct ((0 <? e + k) && (e + k <=? 21)) eqn:E2.
  - apply andb_prop in E2. destruct E2 as [E2 _]. apply Z.ltb_lt in E2.
    destruct (Z.to_nat (e + k)) as [|m] eqn:Em; [lia|].
    rewrite substring_head. now exists d; eexists.
  - destruct ((-6 <? e + k) && (e + k <=? 0)); [now exists 0; eexists|].
    destruct (k =? 1); [now exists d; eexists|].
    rewrite substring_head. now exists d; eexists.
Qed.

Lemma positive_text_head (q : Q) : exists d r, positive_text q = String (ascii_of_digit d) r.
Proof.
  unfold positive_text. destruct (shortest 16 q (decade q) 1) as [s e].
  destruct (strip_zeros 20 s e) as [s' e']. apply layout_head.
Qed.

(** A number that is not negative, printed with [toFixed(2)], reads as a
    number that is not negative. *)
Lemma toFixed2_nonneg_reads (x : number) :
  nle (num 0) x = true -> nle (num 0) (parseFloat (toFixed2 x)) = true.
Proof.
  destruct x as [| | |q]; try discriminate; [reflexivity|].
  cbn [num nle]. intros Hq. apply Qle_bool_iff in Hq. change (inject_Z 0) with 0%Q in Hq.
  unfold toFixed2.
  assert (Hs : Qltb q 0 = false).
  { unfold Qltb. apply negb_false_iff. now apply Qle_bool_iff. }
  rewrite Hs. cbn [append].
  destruct (Qle_bool (pow10 21) (Qabs q)).
  - destruct (positive_text_head (Qabs q)) as [d [r ->]]. apply parseFloat_digit_nonneg.
  - rewrite cents_text.
    + destruct (digits_head (Qfloor (Qabs q * 100 + (1 # 2)) / 100)) as [d [r ->]].
      cbn [append]. apply parseFloat_digit_nonneg.
    + change 0 with (Qfloor (inject_Z 0)). apply Qfloor_resp_le.
      pose proof (Qabs_nonneg q). change (inject_Z 0) with 0%Q. lra.
Qed.

(** *** The grid of the doubles *)

Lemma on_grid_opp (q : Q) : on_grid q -> on_grid (- q).
Proof. intros [n Hn]. exists (- n). rewrite inject_Z_opp, Hn. ring. Qed.

Lemma on_grid_Qeq (p q : Q) : (p == q)%Q -> on_grid p -> on_grid q.
Proof. intros Hpq [n Hn]. exists n. now rewrite <- Hpq. Qed.

Lemma nearest_grid (q : Q) : on_grid (nearest q).
Proof.
  unfold nearest, quantum.
  set (e := Z.max (binade q) (-1022) - 52).
  assert (He : 0 <= e + 1074) by lia.
  exists (round_even (q / 2 ^ e) * 2 ^ (e + 1074)).
  rewrite inject_Z_mult, (pow2_Z _ He).
  rewrite <- Qmult_assoc. apply Qmult_comp; [reflexivity|].
  rewrite <- Qpower_plus by discriminate.
  replace (e + 1074 + -1074) with e by lia. reflexivity.
Qed.

Lemma round64_double (q : Q) : double (round64 q).
Proof.
  unfold round64. destruct (Qcompare q 0); cbv zeta.
  - exists 0. ring.
  - destruct (Qle_bool _ _); [exact Logic.I|]. cbn [double].
    apply (on_grid_Qeq (- nearest (- q))); [now rewrite Qred_correct|].
    apply on_grid_opp, nearest_grid.
  - destruct (Qle_bool _ _); [exact Logic.I|]. cbn [double].
    apply (on_grid_Qeq (nearest q)); [now rewrite Qred_correct|]. apply nearest_grid.
Qed.

Lemma nneg_double (x : number) : double x -> double (nneg x).
Proof.
  destruct x as [| | |q]; cbn [nneg double]; try easy. intros H.
  apply (on_grid_Qeq (- q)); [now rewrite Qred_correct | now apply on_grid_opp].
Qed.

Lemma parseFloat_double (s : string) : double (parseFloat s).
Proof.
  unfold parseFloat. destruct (read_sign (skip_ws s)) as [neg s1].
  assert (H : double (if String.prefix "Infinity" s1 then PosInf else parse_decimal s1)).
  { destruct (String.prefix "Infinity" s1); [exact Logic.I|].
    unfold parse_decimal. destruct (read_digits s1 0 0) as [[ip ni] s2].
    destruct (parse_fraction ni s2) as [[fp nf] s3].
    destruct ((ni =? 0) && (nf =? 0)); [exact Logic.I | apply round64_double]. }
  destruct neg; [now apply nneg_double | exact H].
Qed.

(** Two doubles that differ are at least one step of the grid apart. *)
Lemma grid_gap (a b : Q) :
  on_grid a -> on_grid b -> (b < a)%Q -> (b - a <= - 2 ^ (-1074))%Q.
Proof.
  intros [n Hn] [m Hm] Hlt.
  pose proof (pow2_pos (-1074)) as Hp.
  assert (Hmn : m < n).
  { destruct (Z_lt_le_dec m n) as [H | H]; [exact H|]. exfalso.
    assert (inject_Z n <= inject_Z m)%Q by now rewrite <- Zle_Qle.
    assert (a <= b)%Q.
    { rewrite Hn, Hm. apply Qmult_le_compat_r; [assumption | lra]. }
    lra. }
  assert (Hq : (inject_Z m + 1 <= inject_Z n)%Q).
  { change 1%Q with (inject_Z 1). rewrite <- inject_Z_plus, <- Zle_Qle. lia. }
  rewrite Hn, Hm.
  assert ((inject_Z m + 1) * 2 ^ (-1074) <= inject_Z n * 2 ^ (-1074))%Q
    by (apply Qmult_le_compat_r; [assumption | lra]).
  lra.
Qed.

Lemma smallest_double : round64 (- 2 ^ (-1074)) = Fin (Qred (- 2 ^ (-1074))).
Proof. vm_compute. reflexivity. Qed.

(** *** The leaderboard *)

Lemma tallyStep_fold (l : list Bet) :
  forall c,
    wins_count (List.fold_left tallyStep l c) = (wins_count c + List.length l)%nat
    /\ wins_total (List.fold_left tallyStep l c)
       = List.fold_left (fun acc bet => nadd acc (wonAmount bet)) l (wins_total c).
Proof.
  induction l as [|b l IH]; intros c; cbn [List.fold_left List.length]; [split; [lia | reflexivity]|].
  destruct (IH (tallyStep c b)) as [H1 H2]. rewrite H1, H2. cbn. split; [lia | reflexivity].
Qed.

(** The entry of [uid] in [userWinnings] after the bets of [l]. *)
Lemma tally_fold (uid : string) (l : list Bet) :
  forall m,
    map_get uid (List.fold_left tally l m)
    = match List.filter (fun bet => String.eqb (userId bet) uid) l with
      | [] => map_get uid m
      | mine =>
          Some (List.fold_left tallyStep mine
                  (match map_get uid m with
                   | Some c => c
                   | None => mkWinnings 0 (num 0)
                   end))
      end.
Proof.
  induction l as [|b l IH]; intros m; cbn [List.fold_left List.filter]; [reflexivity|].
  rewrite IH. clear IH.
  destruct (String.eqb (userId b) uid) eqn:E.
  - apply String.eqb_eq in E. unfold tally. rewrite E, map_get_set_same.
    now destruct (List.filter _ l).
  - apply String.eqb_neq in E.
    assert (Hget : map_get uid (tally m b) = map_get uid m).
    { unfold tally. apply map_get_set_other. intros H. now apply E. }
    now rewrite Hget.
Qed.

Lemma tally_keys (l : list Bet) :
  forall m, NoDup (List.map fst m) -> NoDup (List.map fst (List.fold_left tally l m)).
Proof.
  induction l as [|b l IH]; intros m Hnd; cbn [List.fold_left]; [exact Hnd|].
  apply IH. unfold tally. now apply map_set_NoDup.
Qed.

Lemma nadd_nonneg (a b : number) :
  nle (num 0) a = true -> nle (num 0) b = true -> nle (num 0) (nadd a b) = true.
Proof.
  unfold num. destruct a as [| | |x], b as [| | |y]; cbn [nadd nle]; try congruence.
  rewrite !Qle_bool_iff. intros Hx Hy. change (inject_Z 0) with 0%Q in *.
  apply round64_nonneg. lra.
Qed.

Lemma isWin_wonAmount (b : Bet) : isWin b = true -> ngt (wonAmount b) (num 0) = true.
Proof.
  unfold isWin, wonAmount. destruct (winAmount b) as [[|c w]|]; cbn [truthy]; try discriminate.
  auto.
Qed.

Lemma totalWon_nonneg (l : list Bet) :
  (forall b, In b l -> isWin b = true) -> nle (num 0) (totalWon l) = true.
Proof.
  unfold totalWon.
  assert (Hgen : forall l acc,
            (forall b, In b l -> isWin b = true) ->
            nle (num 0) acc = true ->
            nle (num 0) (List.fold_left (fun acc bet => nadd acc (wonAmount bet)) l acc)
            = true).
  { clear. induction l as [|b l IH]; intros acc Hall Hacc; [exact Hacc|].
    cbn [List.fold_left]. apply IH; [intros b' Hb'; apply Hall; now right|].
    apply nadd_nonneg; [exact Hacc | apply ngt_nle, isWin_wonAmount, Hall; now left]. }
  intros Hall. apply Hgen; [exact Hall | reflexivity].
Qed.

(** The comparator "larger total first", on doubles that are not
    negative. *)
Lemma larger_first_order (x y : number) :
  nle (num 0) x = true -> nle (num 0) y = true ->
  double x -> double y ->
  (nlt (nsub y x) (num 0) = true -> nle y x = true)
  /\ (nlt (nsub y x) (num 0) = false -> nle x y = true).
Proof.
  unfold nsub, num. destruct x as [| | |a], y as [| | |b]; cbn [nadd nneg nlt nle double];
    try congruence; try (intros; split; intros; congruence).
  intros _ _ Ga Gb. split; intros H.
  - apply Qle_bool_iff. destruct (Qlt_le_dec a b) as [Hlt | Hle]; [|exact Hle].
    exfalso.
    assert (M : nle (round64 0) (round64 (b + Qred (- a))) = true).
    { apply round64_mono. rewrite Qred_correct. lra. }
    rewrite round64_zero in M.
    destruct (round64 (b + Qred (- a))) as [| | |r]; cbn in M, H; try discriminate.
    unfold Qltb in H. change (inject_Z 0) with 0%Q in H. rewrite M in H. discriminate.
  - apply Qle_bool_iff. destruct (Qlt_le_dec b a) as [Hlt | Hle]; [|exact Hle].
    exfalso. pose proof (grid_gap a b Ga Gb Hlt) as Hgap.
    assert (M : nle (round64 (b + Qred (- a))) (round64 (- 2 ^ (-1074))) = true).
    { apply round64_mono. rewrite Qred_correct. lra. }
    rewrite smallest_double in M.
    destruct (round64 (b + Qred (- a))) as [| | |r]; cbn [nle nlt] in M, H; try discriminate.
    unfold Qltb in H. apply negb_false_iff in H.
    apply Qle_bool_iff in M. apply Qle_bool_iff in H. rewrite Qred_correct in M.
    pose proof (pow2_pos (-1074)). change (inject_Z 0) with 0%Q in H. lra.
Qed.

Lemma NoDup_firstn {A : Type} (n : nat) (l : list A) : NoDup l -> NoDup (List.firstn n l).
Proof.
  revert n. induction l as [|x l IH]; intros [|n] Hnd; cbn; try constructor.
  - inversion Hnd; subst. intros Hin. apply firstn_In in Hin. contradiction.
  - inversion Hnd; subst. now apply IH.
Qed.

Lemma firstn_map {A B : Type} (f : A -> B) (n : nat) (l : list A) :
  List.firstn n (List.map f l) = List.map f (List.firstn n l).
Proof.
  revert n. induction l as [|x l IH]; intros [|n]; cbn; try reflexivity. now rewrite IH.
Qed.

(** The entries the leaderboard is made of, before they are ordered. *)
Lemma topWinner_candidates (st : MemStorage) (e : TopWinner) :
  In e (List.filter hasUser
          (List.map (fun kv =>
                       mkTopWinner (map_get (fst kv) (users st))
                         (wins_count (snd kv)) (toFixed2 (wins_total (snd kv))))
             (List.fold_left tally (List.filter isWin (map_values (bets st))) []))) ->
  exists uid u,
    getUser uid st = Some u
    /\ top_user e = Some u
    /\ winningBetsOf uid st <> []
    /\ top_totalWins e = List.length (winningBetsOf uid st)
    /\ top_totalWinnings e = toFixed2 (totalWon (winningBetsOf uid st)).
Proof.
  intros He. apply filter_In in He. destruct He as [He Hu].
  apply in_map_iff in He. destruct He as [[uid c] [<- Hin]]. cbn [fst snd] in *.
  assert (Hnd : NoDup (List.map fst
            (List.fold_left tally (List.filter isWin (map_values (bets st))) [])))
    by (apply tally_keys; constructor).
  pose proof (In_map_get _ _ _ Hnd Hin) as Hget.
  rewrite tally_fold in Hget. fold (winningBetsOf uid st) in Hget.
  unfold hasUser in Hu. cbn [top_user] in Hu.
  destruct (map_get uid (users st)) as [u|] eqn:Huser; [|discriminate].
  exists uid, u. cbn [top_user top_totalWins top_totalWinnings].
  destruct (winningBetsOf uid st) as [|b mine] eqn:Hmine; [discriminate|].
  injection Hget as <-. cbn [map_get].
  destruct (tallyStep_fold (b :: mine) (mkWinnings 0 (num 0))) as [H1 H2].
  cbn [List.fold_left] in H1, H2. rewrite H1, H2. cbn [wins_count wins_total].
  repeat split; try reflexivity; try exact Huser; discriminate.
Qed.

(** X6. Every entry of the leaderboard stands for a stored player who has
    won: its user is that player's record, its [totalWins] the number of
    the player's winning bets (at least one), its [totalWinnings] their sum
    printed with two decimals. *)
Theorem getTopWinners_entries (limit : number) (st : MemStorage) (e : TopWinner) :
  In e (getTopWinners limit st) ->
  exists uid u,
    getUser uid st = Some u
    /\ top_user e = Some u
    /\ (1 <= top_totalWins e)%nat
    /\ top_totalWins e = List.length (winningBetsOf uid st)
    /\ top_totalWinnings e = toFixed2 (totalWon (winningBetsOf uid st)).
Proof.
  intros He. unfold getTopWinners in He. apply slice0_In in He.
  apply (Permutation_in _ (sort_perm _ _)) in He.
  destruct (topWinner_candidates st e He) as [uid [u [H1 [H2 [H3 [H4 H5]]]]]].
  exists uid, u. repeat split; try assumption.
  rewrite H4. destruct (winningBetsOf uid st); [congruence | cbn; lia].
Qed.

Lemma getTopWinners_entries_witness :
  let u := mkUser "default-user" (Some "Raj Kumar") (Some "password") "12580.50" None
             (Some 1000) in
  let e := mkTopWinner (Some u) 1 "100.00" in
  In e (getTopWinners (num 10) demoHistory)
  /\ exists uid u',
       getUser uid demoHistory = Some u'
       /\ top_user e = Some u'
       /\ (1 <= top_totalWins e)%nat
       /\ top_totalWins e = List.length (winningBetsOf uid demoHistory)
       /\ top_totalWinnings e = toFixed2 (totalWon (winningBetsOf uid demoHistory)).
Proof.
  intros u e.
  assert (Hin : In e (getTopWinners (num 10) demoHistory)) by (vm_compute; now left).
  split; [exact Hin|].
  exact (getTopWinners_entries (num 10) demoHistory e Hin).
Defined.

Lemma topWinner_users_distinct (st : MemStorage) (uw : jsmap Winnings) :
  users_ok (users st) ->
  NoDup (List.map fst uw) ->
  NoDup (List.map top_user
           (List.filter hasUser
              (List.map (fun kv =>
                           mkTopWinner (map_get (fst kv) (users st))
                             (wins_count (snd kv)) (toFixed2 (wins_total (snd kv))))
                 uw))).
Proof.
  intros Hok. induction uw as [|[uid c] uw IH]; cbn [List.map List.filter fst snd]; intros Hnd;
    [constructor|].
  inversion Hnd as [|? ? Hnotin Hnd']; subst.
  unfold hasUser at 1. cbn [top_user].
  destruct (map_get uid (users st)) as [u|] eqn:Hu; [|now apply IH].
  cbn [List.map top_user]. constructor; [|now apply IH].
  intros Hin. apply in_map_iff in Hin. destruct Hin as [e [He Hin]].
  apply filter_In in Hin. destruct Hin as [Hin _].
  apply in_map_iff in Hin. destruct Hin as [[uid' c'] [<- Hin']]. cbn [top_user fst] in He.
  apply Hnotin. apply in_map_iff. exists (uid', c'). split; [|exact Hin']. cbn [fst].
  rewrite <- (Hok uid u (map_get_In _ _ _ Hu)).
  now rewrite <- (Hok uid' u (map_get_In _ _ _ He)).
Qed.

(** X7. The leaderboard is ordered by total winnings, the largest first; for a
    limit [n >= 0] it has at most [n] entries; and, users being stored under
    their ids, no player stands on it twice. *)
Theorem getTopWinners_ranked (limit : number) (st : MemStorage) :
  StronglySorted
    (fun a b => nle (parseFloat (top_totalWinnings b)) (parseFloat (top_totalWinnings a)) = true)
    (getTopWinners limit st)
  /\ (forall n, 0 <= n -> (List.length (getTopWinners (num n) st) <= Z.to_nat n)%nat)
  /\ (users_ok (users st) -> NoDup (List.map top_user (getTopWinners limit st))).
Proof.
  unfold getTopWinners.
  set (cmp := fun a b : TopWinner =>
                nsub (parseFloat (top_totalWinnings b)) (parseFloat (top_totalWinnings a))).
  set (kept := List.filter hasUser _).
  split; [|split].
  - apply StronglySorted_firstn.
    apply (sort_sorted cmp
             (fun e => nle (num 0) (parseFloat (top_totalWinnings e)) = true)).
    + intros a b c _ _ _ Hab Hbc. exact (nle_trans _ _ _ Hbc Hab).
    + intros a b Pa Pb H.
      now apply (proj1 (larger_first_order _ _ Pa Pb (parseFloat_double _) (parseFloat_double _))).
    + intros a b Pa Pb H.
      now apply (proj2 (larger_first_order _ _ Pa Pb (parseFloat_double _) (parseFloat_double _))).
    + rewrite Forall_forall. intros e He.
      destruct (topWinner_candidates st e He) as [uid [u [_ [_ [Hne [_ ->]]]]]].
      apply toFixed2_nonneg_reads, totalWon_nonneg.
      intros b Hb. unfold winningBetsOf in Hb.
      apply filter_In in Hb. destruct Hb as [Hb _].
      apply filter_In in Hb. tauto.
  - intros n Hn. rewrite slice0_num_length by exact Hn. lia.
  - intros Hok. unfold slice0. rewrite <- firstn_map. apply NoDup_firstn.
    apply (Permutation_NoDup (Permutation_map top_user (Permutation_sym (sort_perm cmp kept)))).
    apply topWinner_users_distinct; [exact Hok|]. apply tally_keys. constructor.
Qed.

(* ================================================================== *)
(** ** The commitment *)

Lemma digits_then_colon (n : Z) (s : string) :
  0 <= n ->
  exists L, 1 <= L /\ read_digits (digits n ++ String ":" s) 0 0 = (n, L, String ":" s).
Proof.
  intros Hn. destruct (digits_read n Hn) as [L [HL Hread]].
  exists L. split; [exact HL|]. rewrite Hread.
  change (read_digits (String ":" s) (0 * 10 ^ L + n) (0 + L))
    with (0 * 10 ^ L + n, 0 + L, String ":" s).
  repeat f_equal; lia.
Qed.

Lemma digits_not_minus (n : Z) (r r' : string) : digits n ++ r <> String "-" r'.
Proof.
  destruct (digits_head n) as [d [t ->]]. cbn [append]. intros [= Hd _].
  pose proof (digit_char d) as H. rewrite Hd in H. unfold digit_chars in H. cbn [In] in H.
  repeat (destruct H as [H | H]; [discriminate|]). contradiction.
Qed.

(** The text that is hashed fixes the round id and the salt. *)
Lemma commitment_text_inj (r r' : Z) (s s' : string) :
  (string_of_Z r ++ ":" ++ s)%string = (string_of_Z r' ++ ":" ++ s')%string ->
  r = r' /\ s = s'.
Proof.
  assert (Hpos : forall n n' t t', 0 <= n -> 0 <= n' ->
            (digits n ++ String ":" t)%string = (digits n' ++ String ":" t')%string ->
            n = n' /\ t = t').
  { intros n n' t t' Hn Hn' Heq.
    destruct (digits_then_colon n t Hn) as [L [_ HL]].
    destruct (digits_then_colon n' t' Hn') as [L' [_ HL']].
    rewrite Heq, HL' in HL. injection HL as -> _ ->. now split. }
  unfold string_of_Z. cbn [append].
  destruct (r <? 0) eqn:E, (r' <? 0) eqn:E'; cbn [append]; intros Heq.
  - apply Z.ltb_lt in E, E'. injection Heq as Heq.
    destruct (Hpos (- r) (- r') s s' ltac:(lia) ltac:(lia) Heq). split; [lia | assumption].
  - exfalso. symmetry in Heq. now apply digits_not_minus in Heq.
  - exfalso. now apply digits_not_minus in Heq.
  - apply Z.ltb_ge in E, E'. now apply Hpos.
Qed.

Section Commitment.

Variable sha256_hex : string -> string.

(** X8. A hash that [verifyHash] accepts for two different pairs of round id
    and salt exhibits two different texts with the same digest: short of
    such a collision, a published hash can be opened to one round and one
    salt only. *)
Theorem verifyHash_binding (r r' : Z) (s s' h : string) :
  Hash.verifyHash sha256_hex r s h = true ->
  Hash.verifyHash sha256_hex r' s' h = true ->
  r <> r' \/ s <> s' ->
  exists t t', t <> t' /\ sha256_hex t = sha256_hex t'.
Proof.
  unfold Hash.verifyHash. rewrite !String.eqb_eq. intros H1 H2 Hne.
  exists (string_of_Z r ++ ":" ++ s)%string, (string_of_Z r' ++ ":" ++ s')%string.
  split; [|congruence].
  intros Heq. apply commitment_text_inj in Heq. destruct Heq, Hne; contradiction.
Qed.

End Commitment.

Lemma verifyHash_binding_witness :
  exists t t', t <> t' /\ (fun _ : string => "00") t = (fun _ : string => "00") t'.
Proof.
  apply (verifyHash_binding (fun _ => "00") 127535 127536 "5a17" "5a17" "00").
  - reflexivity.
  - reflexivity.
  - left. discriminate.
Defined.

(* ================================================================== *)
(** ** The crash point *)

Lemma Math_floor_mono (a b : number) :
  nle a b = true -> nle (Math_floor a) (Math_floor b) = true.
Proof.
  destruct a as [ | | | x], b as [ | | | y]; cbn [nle Math_floor num]; try easy.
  rewrite !Qle_bool_iff. intros Hxy. rewrite <- Zle_Qle. now apply Qfloor_resp_le.
Qed.

Lemma Math_max_mono (a b : number) :
  nle a b = true -> nle (Math_max (num 1) a) (Math_max (num 1) b) = true.
Proof.
  intros Hab. destruct (nle_not_NaN a b Hab) as [Ha Hb].
  assert (Hm : forall x, x <> NaN -> Math_max (num 1) x = if nle (num 1) x then x else num 1).
  { intros x Hx. destruct x; try reflexivity. congruence. }
  rewrite (Hm a Ha), (Hm b Hb).
  destruct (nle (num 1) a) eqn:E1, (nle (num 1) b) eqn:E2; try exact Hab.
  - rewrite (nle_trans _ _ _ E1 Hab) in E2. discriminate.
  - exact E2.
  - reflexivity.
Qed.

(** Dividing a positive constant: the larger the divisor, the smaller the
    quotient; a divisor of zero gives [Infinity]. *)
Lemma ndiv_anti (a b : number) (c : Q) :
  (0 < c)%Q -> nle (num 0) a = true -> nle a b = true ->
  nle (ndiv (Fin c) b) (ndiv (Fin c) a) = true.
Proof.
  intros Hc H0 Hab. pose proof (inf_of_sign_pos c Hc) as Hs. unfold Qsgn in Hs.
  destruct a as [ | | | x], b as [ | | | y]; cbn [nle num] in H0, Hab; try discriminate.
  - reflexivity.
  - apply Qle_bool_iff in H0. change (inject_Z 0) with 0%Q in H0.
    cbn [ndiv]. unfold Qsgn. destruct (Qcompare x 0) eqn:Cx.
    + rewrite Hs. reflexivity.
    + apply Qlt_alt in Cx. lra.
    + apply Qgt_alt in Cx. apply (round64_nonneg (c / x)).
      apply Qle_shift_div_l; lra.
  - apply Qle_bool_iff in H0. apply Qle_bool_iff in Hab. change (inject_Z 0) with 0%Q in H0.
    cbn [ndiv]. unfold Qsgn.
    destruct (Qcompare x 0) eqn:Cx.
    + rewrite Hs. cbn [inf_of_sign].
      destruct (Qcompare y 0); cbn [inf_of_sign nle]; try rewrite Hs; try reflexivity;
        pose proof (round64_not_NaN (c / y)); now destruct (round64 (c / y)).
    + apply Qlt_alt in Cx. lra.
    + apply Qgt_alt in Cx.
      assert (Cy : Qcompare y 0 = Gt) by (apply Qgt_alt; lra).
      rewrite Cy. apply round64_mono.
      apply Qle_shift_div_l; [lra|].
      assert (Hxy : (c / y * x <= c / y * y)%Q).
      { rewrite !(Qmult_comm (c / y)). apply Qmult_le_compat_r; [exact Hab|].
        apply Qle_shift_div_l; lra. }
      assert (Hy : (c / y * y == c)%Q) by (field; lra).
      lra.
Qed.

(** The value [generateCrashPoint] takes the floor of. *)
Lemma crashPoint_scaled_anti (r r' : Q) :
  (0 <= r)%Q -> (r <= r')%Q ->
  nle (nmul (ndiv (num 99) (nmul (round64 r') (num 100))) (num 100))
      (nmul (ndiv (num 99) (nmul (round64 r) (num 100))) (num 100)) = true.
Proof.
  intros H0 Hrr.
  apply nmul_mono; [reflexivity|]. apply ndiv_anti; [reflexivity| |].
  - assert (Hz : nmul (Fin 0) (num 100) = num 0) by (vm_compute; reflexivity).
    rewrite <- Hz. apply nmul_mono; [reflexivity|].
    rewrite <- round64_zero. now apply round64_mono.
  - apply nmul_mono; [reflexivity|]. now apply round64_mono.
Qed.

(** X9. The law of the crash point for a draw [r >= 0], in doubles: it is
    never below 1.00; it is [Infinity] or the double nearest to a whole
    number of hundredths; and a larger draw never gives a larger crash
    point.  The draws 0.9 and 0.792 give 1.1 and 1.25. *)
Theorem generateCrashPoint_law (r : Q) :
  (0 <= r)%Q ->
  nle (num 1) (generateCrashPoint r) = true
  /\ (generateCrashPoint r = PosInf
      \/ exists c, 100 <= c /\ generateCrashPoint r = round64 (inject_Z c / inject_Z 100))
  /\ (forall r', (r <= r')%Q ->
        nle (generateCrashPoint r') (generateCrashPoint r) = true)
  /\ numToString (generateCrashPoint (9 # 10)) = "1.1"
  /\ numToString (generateCrashPoint (792 # 1000)) = "1.25".
Proof.
  intros Hr.
  assert (Hmono : forall r', (r <= r')%Q ->
            nle (generateCrashPoint r') (generateCrashPoint r) = true).
  { intros r' Hrr. unfold generateCrashPoint. apply Math_max_mono.
    apply ndiv_mono; [reflexivity|]. apply Math_floor_mono.
    now apply crashPoint_scaled_anti. }
  pose proof (crashPoint_scaled_anti r r Hr ltac:(lra)) as Hy.
  split; [|split; [|split; [exact Hmono | split; vm_compute; reflexivity]]].
  - specialize (Hmono r ltac:(lra)). unfold generateCrashPoint in *.
    destruct (ndiv (Math_floor _) (num 100)) as [ | | | x]; try discriminate; try reflexivity.
    change (Math_max (num 1) (Fin x)) with (if nle (num 1) (Fin x) then Fin x else num 1).
    destruct (nle (num 1) (Fin x)) eqn:E; [exact E | reflexivity].
  - unfold generateCrashPoint.
    destruct (nmul (ndiv (num 99) (nmul (round64 r) (num 100))) (num 100)) as [ | | | y];
      try discriminate.
    + left. reflexivity.
    + right. exists 100. split; [lia|]. vm_compute. reflexivity.
    + cbn [Math_floor]. set (F := Qfloor y).
      assert (Hx : ndiv (num F) (num 100) = round64 (inject_Z F / inject_Z 100)) by reflexivity.
      rewrite Hx.
      assert (Hm : Math_max (num 1) (round64 (inject_Z F / inject_Z 100))
                   = if nle (num 1) (round64 (inject_Z F / inject_Z 100))
                     then round64 (inject_Z F / inject_Z 100) else num 1).
      { pose proof (round64_not_NaN (inject_Z F / inject_Z 100)).
        now destruct (round64 (inject_Z F / inject_Z 100)). }
      rewrite Hm. right.
      destruct (nle (num 1) (round64 (inject_Z F / inject_Z 100))) eqn:E.
      * exists F. split; [|reflexivity].
        destruct (Z_lt_le_dec F 100) as [Hlt | Hle]; [|exact Hle]. exfalso.
        assert (Hle : nle (round64 (inject_Z F / inject_Z 100)) (round64 (99 # 100)) = true).
        { apply round64_mono. unfold Qdiv. change (/ inject_Z 100)%Q with (1 # 100).
          assert (inject_Z F <= inject_Z 99)%Q by (rewrite <- Zle_Qle; lia).
          change (inject_Z 99) with 99%Q in *. lra. }
        pose proof (nle_trans _ _ _ E Hle) as Hbad. vm_compute in Hbad. discriminate.
      * exists 100. split; [lia|]. vm_compute. reflexivity.
Qed.

Lemma generateCrashPoint_law_witness :
  (0 <= 1 # 2)%Q
  /\ nle (num 1) (generateCrashPoint (1 # 2)) = true
  /\ (generateCrashPoint (1 # 2) = PosInf
      \/ exists c, 100 <= c
                   /\ generateCrashPoint (1 # 2) = round64 (inject_Z c / inject_Z 100))
  /\ (forall r', (1 # 2 <= r')%Q ->
        nle (generateCrashPoint r') (generateCrashPoint (1 # 2)) = true)
  /\ numToString (generateCrashPoint (9 # 10)) = "1.1"
  /\ numToString (generateCrashPoint (792 # 1000)) = "1.25".
Proof.
  assert (H : (0 <= 1 # 2)%Q) by discriminate.
  split; [exact H|]. exact (generateCrashPoint_law (1 # 2) H).
Defined.

(** *** A draw of zero *)

(** With no crash beside it, the queue leaves the engine alone. *)
Lemma drain_pass_engine (fuel : nat) (clock : nat -> Z) (k : nat) (t : bool) (p : AutoCashOuts) (w : World) :
  engine (world (drain fuel clock k t p crash_done w)) = engine w.
Proof.
  destruct (drain_inv clock
    (fun _ c w' => c = crash_done /\ engine w' = engine w)) with
    (fuel := fuel) (k := k) (t := t) (p := p) (c := crash_done) (w := w) as [_ [_ [_ H]]].
  - intros t0 p0 c0 w0 [Hc He]. split; [exact Hc|]. now rewrite resumeAutoCashOuts_engine.
  - intros t0 p0 c0 w0 [-> He]. split; [reflexivity | exact He].
  - now split.
  - exact H.
Qed.

(** The engine after a tick that does not end the round: the multiplier
    is new, the rest is as it was. *)
Lemma flyingTick_calm_engine (now now' : Z) (clock : nat -> Z) (w : World) (endT : number) (g : GameState) :
  gameTimer (engine w) = Some endT ->
  currentGame (engine w) = Some g ->
  phase g = flying ->
  nge (num now') endT = false ->
  engine (world (flyingTick now now' clock w))
  = with_game (Some (set_multiplier (tickMultiplier (nsub (num now) (num (startTime g)))) g))
      (engine w).
Proof.
  intros Ht Hg Hp Hend. rewrite (flyingTick_world now now' clock w endT g Ht Hg Hp), Hend.
  now rewrite drain_pass_engine.
Qed.

(** X10. When [Math.random()] returns 0 the crash point is [Infinity], the end
    time with it, and the round never ends: whatever ticks and requests
    follow, it is still flying. *)
Theorem zero_draw_never_crashes (now : Z) (w : World) (g : GameState) :
  currentGame (engine w) = Some g ->
  generateCrashPoint 0 = PosInf
  /\ forall steps,
       exists g',
         currentGame (engine (flightEnd steps (world (startFlying now 0 w)))) = Some g'
         /\ phase g' = flying
         /\ gameTimer (engine (flightEnd steps (world (startFlying now 0 w)))) = Some PosInf.
Proof.
  intros Hg. split; [reflexivity|].
  assert (Hinv : forall steps w0 g0,
            currentGame (engine w0) = Some g0 -> phase g0 = flying ->
            gameTimer (engine w0) = Some PosInf ->
            exists g',
              currentGame (engine (flightEnd steps w0)) = Some g'
              /\ phase g' = flying
              /\ gameTimer (engine (flightEnd steps w0)) = Some PosInf).
  { induction steps as [|s steps IH]; intros w0 g0 Hg0 Hp0 Ht0; [now exists g0|].
    unfold flightEnd. cbn [List.fold_left]. fold (flightEnd steps (flightStep s w0)).
    destruct s as [t t' clock | uid amt auto uuid t | uid t]; cbn [flightStep].
    - apply (IH _ (set_multiplier (tickMultiplier (nsub (num t) (num (startTime g0)))) g0)).
      + now rewrite (flyingTick_calm_engine t t' clock w0 PosInf g0 Ht0 Hg0 Hp0 eq_refl).
      + exact Hp0.
      + now rewrite (flyingTick_calm_engine t t' clock w0 PosInf g0 Ht0 Hg0 Hp0 eq_refl).
    - apply (IH _ g0); rewrite ?placeBet_engine; assumption.
    - apply (IH _ g0); rewrite ?manualCashOut_engine; assumption. }
  intros steps.
  apply (Hinv steps _ (set_multiplier (num 1) (set_startTime now (set_phase flying g))));
    rewrite ?(startFlying_engine now 0 w g Hg); reflexivity.
Qed.

Lemma zero_draw_never_crashes_witness :
  generateCrashPoint 0 = PosInf
  /\ forall steps,
       exists g',
         currentGame (engine (flightEnd steps (world (startFlying 20000 0 waitingWorld))))
         = Some g'
         /\ phase g' = flying
         /\ gameTimer (engine (flightEnd steps (world (startFlying 20000 0 waitingWorld))))
            = Some PosInf.
Proof.
  apply (zero_draw_never_crashes 20000 waitingWorld
           (mkGameState 127535 waiting (num 1) 0 0 "c0ffee" (Some "5a17") 10)).
  reflexivity.
Defined.

(* ================================================================== *)
(** ** The server at work *)

(** *** Settling bets *)

Lemma settling_trans (m m1 m2 : jsmap Bet) :
  settling m m1 -> settling m1 m2 -> settling m m2.
Proof.
  intros H1 H2. induction H2 as [|m3 k t c win now _ IH Hget]; [exact H1|].
  now apply settling_one.
Qed.

Lemma updateBetCashOut_settling (bid c win : string) (now : Z) (st : MemStorage) :
  settling (bets st) (bets (updateBetCashOut bid c win now st)).
Proof.
  unfold updateBetCashOut. destruct (map_get bid (bets st)) as [t|] eqn:E; [|constructor].
  cbn [bets set_bets]. exact (settling_one _ _ bid t c win now (settling_none _) E).
Qed.

Lemma settling_bets_ok (m m' : jsmap Bet) : settling m m' -> bets_ok m -> bets_ok m'.
Proof.
  induction 1 as [|m1 k t c win now _ IH Hget]; intros Hok; [exact Hok|].
  specialize (IH Hok). apply bets_ok_set; [|exact IH].
  cbn. apply (proj2 IH). now apply map_get_In.
Qed.

(** A bet that is active afterwards is the bet it was. *)
Lemma settling_active (m m' : jsmap Bet) :
  settling m m' ->
  forall k b, map_get k m' = Some b -> isActive b = true -> map_get k m = Some b.
Proof.
  induction 1 as [|m1 k0 t c win now _ IH Hget]; intros k b Hk Hb; [exact Hk|].
  destruct (String.eqb k k0) eqn:E.
  - apply String.eqb_eq in E. subst k0. rewrite map_get_set_same in Hk.
    injection Hk as <-. discriminate.
  - apply String.eqb_neq in E. rewrite map_get_set_other in Hk by exact E. now apply IH.
Qed.

Lemma settling_In_active (m m' : jsmap Bet) (b : Bet) :
  settling m m' -> bets_ok m ->
  In b (map_values m') -> isActive b = true -> In b (map_values m).
Proof.
  intros Hs Hok Hin Hb.
  pose proof (bets_ok_value _ _ (settling_bets_ok _ _ Hs Hok) Hin) as Hget.
  apply (settling_active _ _ Hs) in Hget; [|exact Hb].
  unfold map_values. apply in_map_iff. exists (bet_id b, b). split; [reflexivity|].
  now apply map_get_In.
Qed.

Lemma filter_map_set_length {V : Type} (P : V -> bool) (k : string) (v : V) (m : jsmap V) :
  (List.length (List.filter P (map_values (map_set k v m)))
   <= List.length (List.filter P (map_values m)) + (if P v then 1 else 0))%nat.
Proof.
  unfold map_values. induction m as [|[k' v'] m IH]; cbn.
  - destruct (P v); cbn; lia.
  - destruct (String.eqb k k'); cbn.
    + destruct (P v), (P v'); cbn; lia.
    + destruct (P v'); cbn; lia.
Qed.

(** Settling never adds an active bet. *)
Lemma settling_count (m m' : jsmap Bet) (uid gid : string) :
  settling m m' ->
  (List.length (activeBetsOf uid gid m') <= List.length (activeBetsOf uid gid m))%nat.
Proof.
  induction 1 as [|m1 k t c win now _ IH Hget]; [lia|].
  unfold activeBetsOf in *.
  etransitivity; [apply filter_map_set_length|].
  cbn [isActive settled]. rewrite andb_false_r. lia.
Qed.

Lemma cashOutBet_settling (bid uid mult : string) (now : Z) (w : World) :
  settling (bets (storage w)) (bets (storage (world (cashOutBet bid uid mult now w)))).
Proof.
  unfold cashOutBet. mstep. destruct (find _ _) as [t|]; [|constructor]. mstep.
  destruct (getUser uid _) as [u|]; mstep;
    rewrite ?(proj1 (updateUserBalance_bets _ _ _)); apply updateBetCashOut_settling.
Qed.

Lemma manualCashOut_settling (uid : string) (now : Z) (w : World) :
  settling (bets (storage w)) (bets (storage (world (manualCashOut uid now w)))).
Proof.
  unfold manualCashOut. mstep.
  destruct (currentGame (engine w)) as [g|]; [|constructor].
  destruct (negb (Phase_eqb (phase g) flying)); [constructor|]. mstep.
  destruct (getGameByRoundId (roundId g) (storage w)) as [gdb|]; [|constructor]. mstep.
  destruct (find _ _) as [userBet|]; [|constructor]. mstep.
  apply cashOutBet_settling.
Qed.

Lemma manualCashOut_games (uid : string) (now : Z) (w : World) :
  games (storage (world (manualCashOut uid now w))) = games (storage w).
Proof.
  unfold manualCashOut. mstep.
  destruct (currentGame (engine w)) as [g|]; [|reflexivity].
  destruct (negb (Phase_eqb (phase g) flying)); [reflexivity|]. mstep.
  destruct (getGameByRoundId (roundId g) (storage w)) as [gdb|]; [|reflexivity]. mstep.
  destruct (find _ _) as [userBet|]; [|reflexivity]. mstep.
  apply cashOutBet_engine.
Qed.

Lemma resumeAutoCashOuts_settling (now : Z) (p : AutoCashOuts) (w : World) :
  settling (bets (storage w)) (bets (storage (world (resumeAutoCashOuts now p w))))
  /\ games (storage (world (resumeAutoCashOuts now p w))) = games (storage w).
Proof.
  unfold resumeAutoCashOuts.
  destruct p as [ | [gdb|] | rest | bid uid mult refs rest | bid uid mult win rest
                | bid uid mult win [|] rest | bid uid mult win rest ]; mstep;
    try (split; [constructor | reflexivity]).
  - rewrite autoCashOutLoop_storage. split; [constructor | reflexivity].
  - destruct (find _ _) as [t|]; mstep; [|split; [constructor | reflexivity]].
    split; [apply updateBetCashOut_settling|].
    unfold updateBetCashOut. now destruct (map_get bid (bets (storage w))).
  - destruct (getUser uid (storage w)) as [u|]; mstep; [|split; [constructor | reflexivity]].
    rewrite (proj1 (updateUserBalance_bets _ _ _)), (proj2 (updateUserBalance_bets _ _ _)).
    split; [constructor | reflexivity].
Qed.

Lemma updateGameCrash_users_bets (gid m s : string) (now : Z) (st : MemStorage) :
  bets (updateGameCrash gid m s now st) = bets st
  /\ users (updateGameCrash gid m s now st) = users st.
Proof. unfold updateGameCrash. now destruct (map_get gid (games st)). Qed.

Lemma resumeCrash_settling (now : Z) (c : Crash) (w : World) :
  settling (bets (storage w)) (bets (storage (world (resumeCrash now c w)))).
Proof.
  assert (Hsw : forall cm gdb,
            settling (bets (storage w)) (bets (storage (world (crashSweep cm gdb w))))).
  { intros cm gdb. rewrite (proj1 (crashSweep_effect cm gdb w)). constructor. }
  unfold resumeCrash.
  destruct c as [ | cm gdb | cm gdb | cm [|x rest] ]; mstep; try constructor; try apply Hsw.
  - destruct gdb as [g0|]; [|apply Hsw].
    destruct (match currentGame (engine w) with Some g => truthy (salt g) | None => None end);
      mstep; [|apply Hsw].
    rewrite updateGameCrash_bets. constructor.
  - destruct (crashEnd_effect cm w) as [-> _]. constructor.
  - apply updateBetCashOut_settling.
Qed.

(** Whatever the queue does to the bets, it does by settling them. *)
Lemma drain_settling (fuel : nat) (clock : nat -> Z) (k : nat) (t : bool)
    (p : AutoCashOuts) (c : Crash) (w : World) :
  settling (bets (storage w)) (bets (storage (world (drain fuel clock k t p c w)))).
Proof.
  destruct (drain_inv clock
    (fun _ _ w' => settling (bets (storage w)) (bets (storage w')))) with
    (fuel := fuel) (k := k) (t := t) (p := p) (c := c) (w := w) as [_ [_ H]].
  - intros t0 p0 c0 w0 H.
    exact (settling_trans _ _ _ H (proj1 (resumeAutoCashOuts_settling t0 p0 w0))).
  - intros t0 p0 c0 w0 H. exact (settling_trans _ _ _ H (resumeCrash_settling t0 c0 w0)).
  - constructor.
  - exact H.
Qed.

Lemma flyingTick_running (now now' : Z) (clock : nat -> Z) (w : World) :
  flyingTick now now' clock w = mkOut tt w []
  \/ exists endT g,
       gameTimer (engine w) = Some endT /\ currentGame (engine w) = Some g
       /\ phase g = flying.
Proof.
  destruct (gameTimer (engine w)) as [endT|] eqn:Ht;
    [|left; apply flyingTick_idle; now left].
  destruct (currentGame (engine w)) as [g|] eqn:Hg;
    [|left; apply flyingTick_idle; right; now left].
  assert (Hp : phase g = flying \/ phase g <> flying)
    by (destruct (phase g); (now left) || (right; discriminate)).
  destruct Hp as [Hp | Hp]; [right; now exists endT, g|].
  left. apply flyingTick_idle. right. right. now exists g.
Qed.

Lemma flyingTick_settling (now now' : Z) (clock : nat -> Z) (w : World) :
  settling (bets (storage w)) (bets (storage (world (flyingTick now now' clock w)))).
Proof.
  destruct (flyingTick_running now now' clock w) as [-> | [endT [g [Ht [Hg Hp]]]]]; [constructor|].
  rewrite (flyingTick_world now now' clock w endT g Ht Hg Hp).
  destruct (nge (num now') endT);
    match goal with
    | |- context [drain ?f ?a ?b ?t ?p ?c ?W] => exact (drain_settling f a b t p c W)
    end.
Qed.

(** *** The tick that ends a round *)

Section DrainRunAt.

Variable clock : nat -> Z.
Variable I : AutoCashOuts -> Crash -> World -> Prop.

Hypothesis pass_keeps : forall now p c w,
  I p c w -> p <> aco_done ->
  I (value (resumeAutoCashOuts now p w)) c (world (resumeAutoCashOuts now p w)).

Hypothesis crash_keeps : forall now p c w,
  I p c w -> c <> crash_done ->
  I p (value (resumeCrash now c w)) (world (resumeCrash now c w)).

(** The same for methods that have yet to list the bets. *)
Lemma drain_runAt (fuel : nat) :
  forall k t p c w,
    I p c w ->
    (passLeftAt (storage w) p + crashLeftAt (storage w) c <= fuel)%nat ->
    I aco_done crash_done (world (drain fuel clock k t p c w)).
Proof.
  induction fuel as [|fuel IH]; intros k t p c w HI Hfuel.
  - rewrite drain_O.
    destruct p; cbn in Hfuel; try lia; destruct c; cbn in Hfuel; try lia. exact HI.
  - rewrite drain_step.
    assert (Hp : p <> aco_done ->
                 forall t', I aco_done crash_done
                   (world (drain fuel clock (S k) t'
                             (value (resumeAutoCashOuts (clock k) p w)) c
                             (world (resumeAutoCashOuts (clock k) p w))))).
    { intros Hne t'. apply IH; [now apply pass_keeps|].
      pose proof (resumeAutoCashOuts_leftAt (clock k) p w Hne).
      rewrite (crashLeftAt_length (storage w)) by apply resumeAutoCashOuts_length. lia. }
    assert (Hc : c <> crash_done ->
                 forall t', I aco_done crash_done
                   (world (drain fuel clock (S k) t' p (value (resumeCrash (clock k) c w))
                             (world (resumeCrash (clock k) c w))))).
    { intros Hne t'. apply IH; [now apply crash_keeps|].
      pose proof (resumeCrash_leftAt (clock k) c w Hne).
      rewrite (passLeftAt_length (storage w)) by apply resumeCrash_length. lia. }
    destruct p, c; try destruct t;
      first [ exact HI | apply Hp; discriminate | apply Hc; discriminate ].
Qed.

End DrainRunAt.

Lemma crashSweep_games (cm : number) (gdb : Game) (w : World) :
  engine (world (crashSweep cm (Some gdb) w)) = engine w
  /\ games (storage (world (crashSweep cm (Some gdb) w))) = games (storage w)
  /\ exists rest, value (crashSweep cm (Some gdb) w) = crash_sweep cm rest.
Proof.
  unfold crashSweep. mstep. repeat split. now eexists.
Qed.

Lemma updateBetCashOut_games (bid c win : string) (now : Z) (st : MemStorage) :
  games (updateBetCashOut bid c win now st) = games st.
Proof. unfold updateBetCashOut. now destruct (map_get bid (bets st)). Qed.

(** When the tick that ends a round has run, with all it left in the queue,
    the engine holds the round as crashed with the restart timeout set, and
    the record of the round carries the crash multiplier and the salt. *)
Lemma flyingTick_crash (now now' : Z) (clock : nat -> Z) (w : World) (endT : number)
    (g : GameState) (gdb : Game) :
  gameTimer (engine w) = Some endT ->
  currentGame (engine w) = Some g ->
  phase g = flying ->
  nge (num now') endT = true ->
  getGameByRoundId (roundId g) (storage w) = Some gdb ->
  map_get (game_id gdb) (games (storage w)) = Some gdb ->
  let m := tickMultiplier (nsub (num now) (num (startTime g))) in
  let w' := world (flyingTick now now' clock w) in
  engine w'
  = mkEngine (Some (set_phase crashed (set_multiplier m g))) None
      (countdownTimer (engine w)) true (roundIdCounter (engine w))
  /\ exists stamp,
       games (storage w')
       = match truthy (salt g) with
         | Some s => map_set (game_id gdb) (crashRecord gdb (numToString m) s stamp)
                       (games (storage w))
         | None => games (storage w)
         end.
Proof.
  intros Ht Hg Hp Hend Hdb Hrec m w'. subst w'.
  rewrite (flyingTick_world now now' clock w endT g Ht Hg Hp). rewrite Hend.
  cbn zeta. fold m. cbn [roundId set_multiplier]. rewrite Hdb.
  set (E1 := with_game (Some (set_phase crashed (set_multiplier m g)))
               (with_gameTimer None
                  (engine (mkWorld (storage w)
                             (with_game (Some (set_multiplier m g)) (engine w)))))).
  pose (Gend := fun stamp : Z =>
               match truthy (salt g) with
               | Some s => map_set (game_id gdb) (crashRecord gdb (numToString m) s stamp)
                             (games (storage w))
               | None => games (storage w)
               end).
  pose (I := fun (_ : AutoCashOuts) (c : Crash) (w1 : World) =>
               match c with
               | crash_done => engine w1 = with_restartTimer true E1
               | _ => engine w1 = E1
               end
               /\ match c with
                  | crash_game cm gopt =>
                      cm = m /\ gopt = Some gdb /\ games (storage w1) = games (storage w)
                  | _ => exists stamp, games (storage w1) = Gend stamp
                  end).
  assert (HI : I aco_done crash_done
                 (world (drain (drainFuel (storage w)) clock 0 true (aco_game (Some gdb))
                           (crash_game m (Some gdb)) (mkWorld (storage w) E1)))).
  { apply (drain_runAt clock I).
    - intros t0 p c w1 [He Hgm] _.
      destruct (resumeAutoCashOuts_settling t0 p w1) as [_ Hgs].
      pose proof (resumeAutoCashOuts_engine t0 p w1) as Heng.
      unfold I. rewrite Heng, Hgs. now split.
    - intros t0 p c w1 [He Hgm] Hne. unfold I, resumeCrash.
      destruct c as [ | cm gopt | cm gdb' | cm [|x rest] ]; [congruence| | | |].
      + destruct Hgm as [-> [-> Hgs]]. mstep. rewrite He.
        cbn [E1 currentGame with_game set_phase set_multiplier salt].
        destruct (truthy (salt g)) as [s|] eqn:Hs; mstep.
        * split; [exact He|]. exists t0. unfold updateGameCrash. rewrite Hgs, Hrec.
          cbn [games set_games]. unfold Gend. rewrite ?Hs. reflexivity.
        * destruct (crashSweep_games m gdb w1) as [Heng [Hgs' [rest ->]]].
          rewrite Heng, Hgs'. split; [exact He|]. exists 0. unfold Gend. now rewrite ?Hs.
      + destruct (crashSweep_games cm gdb' w1) as [Heng [Hgs' [rest ->]]].
        rewrite Heng, Hgs'. now split.
      + unfold crashEnd. mstep.
        destruct (currentGame (engine w1)); mstep; cbn [engine storage];
          (split; [now rewrite He | exact Hgm]).
      + mstep. split; [exact He|]. now rewrite updateBetCashOut_games.
    - unfold I. cbn [engine storage]. now repeat split.
    - unfold drainFuel. cbn [passLeftAt crashLeftAt storage]. lia. }
  destruct HI as [He Hgm]. split; [|exact Hgm].
  rewrite He. unfold E1. cbn. reflexivity.
Qed.

Lemma drain_pass_games (fuel : nat) (clock : nat -> Z) (k : nat) (t : bool) (p : AutoCashOuts) (w : World) :
  games (storage (world (drain fuel clock k t p crash_done w))) = games (storage w).
Proof.
  destruct (drain_inv clock
    (fun _ c w' => c = crash_done /\ games (storage w') = games (storage w))) with
    (fuel := fuel) (k := k) (t := t) (p := p) (c := crash_done) (w := w) as [_ [_ [_ H]]].
  - intros t0 p0 c0 w0 [Hc He]. split; [exact Hc|].
    now rewrite (proj2 (resumeAutoCashOuts_settling t0 p0 w0)).
  - intros t0 p0 c0 w0 [-> He]. split; [reflexivity | exact He].
  - now split.
  - exact H.
Qed.

Lemma flyingTick_calm_games (now now' : Z) (clock : nat -> Z) (w : World) (endT : number) (g : GameState) :
  gameTimer (engine w) = Some endT ->
  currentGame (engine w) = Some g ->
  phase g = flying ->
  nge (num now') endT = false ->
  games (storage (world (flyingTick now now' clock w))) = games (storage w).
Proof.
  intros Ht Hg Hp Hend. rewrite (flyingTick_world now now' clock w endT g Ht Hg Hp), Hend.
  now rewrite drain_pass_games.
Qed.

(** *** What a running server keeps *)

Lemma games_ok_set (k : string) (v : Game) (m : jsmap Game) :
  game_id v = k -> games_ok m -> games_ok (map_set k v m).
Proof.
  intros Hid [Hnd Hk]. split; [now apply map_set_NoDup|].
  intros k0 b0 Hin. destruct (map_set_In _ _ _ _ _ Hin) as [[-> ->] | Hin']; [assumption|].
  now apply Hk.
Qed.

Lemma map_get_value {V : Type} (k : string) (v : V) (m : jsmap V) :
  map_get k m = Some v -> In v (map_values m).
Proof.
  intros H. unfold map_values. apply in_map_iff. exists (k, v). split; [reflexivity|].
  now apply map_get_In.
Qed.

(** Writing over a value with one of the same image leaves the images. *)
Lemma map_set_image {V A : Type} (f : V -> A) (k : string) (v v0 : V) (m : jsmap V) :
  map_get k m = Some v0 -> f v = f v0 ->
  List.map f (map_values (map_set k v m)) = List.map f (map_values m).
Proof.
  unfold map_values. induction m as [|[k' v'] m IH]; cbn; [discriminate|].
  destruct (String.eqb k k'); cbn.
  - intros [= ->] ->. reflexivity.
  - intros H1 H2. now rewrite IH.
Qed.

Lemma map_set_image_NoDup {V A : Type} (f : V -> A) (k : string) (v : V) (m : jsmap V) :
  NoDup (List.map f (map_values m)) ->
  (forall v', In v' (map_values m) -> f v' <> f v) ->
  NoDup (List.map f (map_values (map_set k v m))).
Proof.
  unfold map_values. induction m as [|[k' v'] m IH]; cbn; intros Hnd Hne.
  - constructor; [intros [] | constructor].
  - inversion Hnd as [|? ? Hnotin Hnd']; subst.
    destruct (String.eqb k k'); cbn.
    + constructor; [|exact Hnd']. intros Hin. apply in_map_iff in Hin.
      destruct Hin as [x [Hx Hin]]. apply (Hne x); [now right | exact Hx].
    + constructor.
      * intros Hin. apply in_map_iff in Hin. destruct Hin as [x [Hx Hin]].
        destruct (map_values_set_In k v x m Hin) as [-> | Hin'].
        -- apply (Hne v'); [now left | now symmetry].
        -- apply Hnotin. rewrite <- Hx. now apply in_map.
      * apply IH; [exact Hnd'|]. intros v0 Hv0. apply Hne. now right.
Qed.

Lemma find_unique {A : Type} (f : A -> Z) (l : list A) (g : A) :
  NoDup (List.map f l) -> In g l -> List.find (fun x => f x =? f g) l = Some g.
Proof.
  induction l as [|a l IH]; cbn; [contradiction|]. intros Hnd Hin.
  inversion Hnd as [|? ? Hnotin Hnd']; subst.
  destruct Hin as [-> | Hin]; [now rewrite Z.eqb_refl|].
  destruct (f a =? f g) eqn:E; [|now apply IH].
  apply Z.eqb_eq in E. exfalso. apply Hnotin. rewrite E. now apply in_map.
Qed.

Lemma truthy_Some (o : option string) (s : string) : truthy o = Some s -> o = Some s.
Proof. destruct o as [[|c s']|]; cbn; congruence. Qed.

(** The round of the engine is found by its round id. *)
Lemma sound_lookup (sha : string -> string) (w : World) (g : GameState) (gdb : Game) :
  sound sha w g gdb -> getGameByRoundId (roundId g) (storage w) = Some gdb.
Proof.
  intros H. unfold getGameByRoundId. rewrite <- (sound_record_round _ _ _ _ H).
  apply (find_unique game_roundId); [apply H|].
  apply (map_get_value (game_id gdb)). apply H.
Qed.

Lemma activeBetsOf_none (uid gid : string) (st : MemStorage) :
  List.existsb (fun bet => String.eqb (gameId bet) gid && isActive bet)
    (getBetsByUserId uid st) = false ->
  activeBetsOf uid gid (bets st) = [].
Proof.
  unfold getBetsByUserId, activeBetsOf.
  induction (map_values (bets st)) as [|b l IH]; cbn; [reflexivity|].
  destruct (String.eqb (userId b) uid); cbn; [|exact IH].
  destruct (String.eqb (gameId b) gid && isActive b); cbn; [discriminate | exact IH].
Qed.

(** A request for a bet changes nothing, or it adds the bet to the round
    on record, for a player who holds none in it. *)
Lemma placeBet_effect (uid amt : string) (auto : option string) (uuid : string)
    (now : Z) (w : World) :
  world (placeBet uid amt auto uuid now w) = w
  \/ exists g gdb,
       currentGame (engine w) = Some g
       /\ phase g = waiting
       /\ getGameByRoundId (roundId g) (storage w) = Some gdb
       /\ activeBetsOf uid (game_id gdb) (bets (storage w)) = []
       /\ engine (world (placeBet uid amt auto uuid now w)) = engine w
       /\ games (storage (world (placeBet uid amt auto uuid now w))) = games (storage w)
       /\ bets (storage (world (placeBet uid amt auto uuid now w)))
          = map_set uuid
              (mkBet uuid uid (game_id gdb) amt (truthy auto) None None true (Some now) None)
              (bets (storage w)).
Proof.
  unfold placeBet. mstep.
  destruct (currentGame (engine w)) as [g|] eqn:Hg; [|now left].
  destruct (phase g) eqn:Hp; cbn [Phase_eqb negb]; try (now left). mstep.
  destruct (getUser uid (storage w)) as [u|]; [|now left].
  destruct (nle (parseFloat amt) (num 0)); [now left|].
  destruct (ngt (parseFloat amt) (parseFloat (balance u))); [now left|]. mstep.
  destruct (getGameByRoundId (roundId g) (storage w)) as [gdb|] eqn:Hdb; [|now left]. mstep.
  destruct (List.existsb _ _) eqn:Hex; [now left|]. mstep.
  right. exists g, gdb.
  split; [first [assumption | reflexivity]|].
  split; [first [assumption | reflexivity]|].
  split; [first [assumption | reflexivity]|].
  split; [now apply activeBetsOf_none|].
  split; [reflexivity|].
  unfold createBet. cbn [fst snd games bets set_bets ins_amount ins_autoCashOut].
  rewrite (proj1 (updateUserBalance_bets _ _ _)), (proj2 (updateUserBalance_bets _ _ _)).
  now split.
Qed.

Lemma sound_with_bets (sha : string -> string) (w w' : World) (g : GameState) (gdb : Game) :
  sound sha w g gdb ->
  engine w' = engine w ->
  games (storage w') = games (storage w) ->
  bets_ok (bets (storage w')) ->
  (forall uid gid, (List.length (activeBetsOf uid gid (bets (storage w'))) <= 1)%nat) ->
  (forall b, In b (map_values (bets (storage w'))) -> isActive b = true ->
             gameId b = game_id gdb /\ phase g <> crashed) ->
  sound sha w' g gdb.
Proof.
  intros [H1 H2 H3 H4 H5 H6 H7 H8 H9 H10 H11 H12 H13 H14 H15] He Hg Hb Hone Hact.
  constructor; rewrite ?He, ?Hg; assumption.
Qed.

Lemma sound_settled (sha : string -> string) (w w' : World) (g : GameState) (gdb : Game) :
  sound sha w g gdb ->
  engine w' = engine w ->
  games (storage w') = games (storage w) ->
  settling (bets (storage w)) (bets (storage w')) ->
  sound sha w' g gdb.
Proof.
  intros H He Hg Hs. apply (sound_with_bets sha w); try assumption.
  - apply (settling_bets_ok _ _ Hs), H.
  - intros uid gid. etransitivity; [apply settling_count, Hs | apply H].
  - intros b Hin Hact. apply (sound_active _ _ _ _ H); [|exact Hact].
    apply (settling_In_active _ _ _ Hs); [apply H | exact Hin | exact Hact].
Qed.

(** The engine moves on within a round. *)
Lemma sound_with_round (sha : string -> string) (w w' : World) (g g' : GameState)
    (gdb : Game) :
  sound sha w g gdb ->
  games (storage w') = games (storage w) ->
  settling (bets (storage w)) (bets (storage w')) ->
  currentGame (engine w') = Some g' ->
  roundIdCounter (engine w') = roundIdCounter (engine w) ->
  roundId g' = roundId g -> hash g' = hash g -> salt g' = salt g ->
  timers_match (engine w') g' ->
  phase g <> crashed -> phase g' <> crashed ->
  sound sha w' g' gdb.
Proof.
  intros H Hg Hs Hcur Hctr Hrid Hhash Hsalt Htm Hp Hp'.
  pose proof (sound_settled sha w (mkWorld (storage w') (engine w)) g gdb H
                eq_refl Hg Hs) as H'.
  destruct H' as [H1 H2 H3 H4 H5 H6 H7 H8 H9 H10 H11 H12 H13 H14 H15].
  cbn [storage engine] in *.
  constructor; rewrite ?Hctr, ?Hrid, ?Hhash, ?Hsalt; try assumption.
  - intros _. now apply H10.
  - intros b Hin Hact. split; [now apply (H15 b) | exact Hp'].
Qed.

Lemma sound_placeBet (sha : string -> string) (uid amt : string) (auto : option string)
    (uuid : string) (now : Z) (w : World) (g : GameState) (gdb : Game) :
  sound sha w g gdb -> sound sha (world (placeBet uid amt auto uuid now w)) g gdb.
Proof.
  intros H.
  destruct (placeBet_effect uid amt auto uuid now w)
    as [-> | [g0 [gdb0 [Hg [Hp [Hdb [Hnone [He [Hgs Hbs]]]]]]]]]; [exact H|].
  rewrite (sound_game _ _ _ _ H) in Hg. injection Hg as Hg. subst g0.
  rewrite (sound_lookup _ _ _ _ H) in Hdb. injection Hdb as Hdb. subst gdb0.
  apply (sound_with_bets sha w); try assumption.
  - rewrite Hbs. apply bets_ok_set; [reflexivity | apply H].
  - intros uid' gid'. rewrite Hbs. unfold activeBetsOf.
    etransitivity; [apply filter_map_set_length|]. cbn [userId gameId isActive].
    destruct (String.eqb uid uid') eqn:Eu; cbn [andb];
      [|pose proof (sound_one_bet _ _ _ _ H uid' gid') as H1; unfold activeBetsOf in H1; lia].
    destruct (String.eqb (game_id gdb) gid') eqn:Eg; cbn [andb];
      [|pose proof (sound_one_bet _ _ _ _ H uid' gid') as H1; unfold activeBetsOf in H1; lia].
    apply String.eqb_eq in Eu, Eg. subst uid' gid'.
    unfold activeBetsOf in Hnone. rewrite Hnone. cbn. lia.
  - intros b Hin Hact. rewrite Hbs in Hin.
    destruct (map_values_set_In _ _ _ _ Hin) as [-> | Hin'].
    + split; [reflexivity|]. rewrite Hp. discriminate.
    + now apply (sound_active _ _ _ _ H).
Qed.

Lemma sound_manualCashOut (sha : string -> string) (uid : string) (now : Z) (w : World)
    (g : GameState) (gdb : Game) :
  sound sha w g gdb -> sound sha (world (manualCashOut uid now w)) g gdb.
Proof.
  intros H. apply (sound_settled sha w); [exact H | | |].
  - apply manualCashOut_engine.
  - apply manualCashOut_games.
  - apply manualCashOut_settling.
Qed.

Lemma timers_flying (e : CrashEngine) (g : GameState) :
  timers_match e g -> phase g = flying ->
  countdownTimer e = false /\ (exists t, gameTimer e = Some t) /\ restartTimer e = false.
Proof. unfold timers_match. intros H Hp. now rewrite Hp in H. Qed.

Lemma timers_waiting (e : CrashEngine) (g : GameState) :
  timers_match e g -> countdownTimer e = true ->
  phase g = waiting /\ gameTimer e = None /\ restartTimer e = false.
Proof.
  unfold timers_match. intros H Hc.
  destruct (phase g); try (destruct H as [H _]; congruence); [now split | contradiction].
Qed.

Lemma timers_crashed (e : CrashEngine) (g : GameState) :
  timers_match e g -> restartTimer e = true ->
  phase g = crashed /\ gameTimer e = None /\ countdownTimer e = false.
Proof.
  unfold timers_match. intros H Hc.
  destruct (phase g); try (destruct H as [_ [_ H]]; congruence); [contradiction|].
  now destruct H as [H1 [H2 _]].
Qed.

Lemma sound_countdownTick (sha : string -> string) (now : Z) (r : Q) (w : World)
    (g : GameState) (gdb : Game) :
  sound sha w g gdb -> exists g', sound sha (world (countdownTick now r w)) g' gdb.
Proof.
  intros H.
  assert (Hst := countdownTick_storage now r w).
  revert Hst. unfold countdownTick. mstep.
  destruct (countdownTimer (engine w)) eqn:Hc; cbn [negb]; [|intros _; now exists g].
  destruct (timers_waiting _ _ (sound_timers _ _ _ _ H) Hc) as [Hp [Hgt Hrt]].
  rewrite (sound_game _ _ _ _ H). mstep. intros Hst.
  assert (Hnc : phase g <> crashed) by (rewrite Hp; discriminate).
  destruct (countdown (set_countdown (countdown g - 1) g) <=? 0).
  - exists (set_multiplier (num 1)
              (set_startTime now (set_phase flying (set_countdown (countdown g - 1) g)))).
    pose proof (startFlying_engine now r
                  (mkWorld (storage w)
                     (with_game (Some (set_countdown (countdown g - 1) g)) (engine w)))
                  (set_countdown (countdown g - 1) g) eq_refl) as He.
    apply (sound_with_round sha w _ g _ gdb H).
    + now rewrite Hst.
    + rewrite Hst. constructor.
    + now rewrite He.
    + now rewrite He.
    + reflexivity.
    + reflexivity.
    + reflexivity.
    + rewrite He. unfold timers_match. cbn.
      split; [reflexivity|]. split; [now eexists | exact Hrt].
    + exact Hnc.
    + cbn. discriminate.
  - mstep. exists (set_countdown (countdown g - 1) g).
    apply (sound_with_round sha w _ g _ gdb H); try reflexivity.
    + constructor.
    + unfold timers_match. cbn. rewrite Hp. now repeat split.
    + exact Hnc.
    + cbn. exact Hnc.
Qed.

Lemma sound_calm (sha : string -> string) (now now' : Z) (clock : nat -> Z) (w : World) (endT : number)
    (g : GameState) (gdb : Game) :
  sound sha w g gdb ->
  gameTimer (engine w) = Some endT ->
  phase g = flying ->
  nge (num now') endT = false ->
  exists g', sound sha (world (flyingTick now now' clock w)) g' gdb.
Proof.
  intros H Ht Hp Hend.
  pose proof (sound_game _ _ _ _ H) as Hg.
  pose proof (flyingTick_calm_engine now now' clock w endT g Ht Hg Hp Hend) as He.
  assert (Hnc : phase g <> crashed) by (rewrite Hp; discriminate).
  exists (set_multiplier (tickMultiplier (nsub (num now) (num (startTime g)))) g).
  apply (sound_with_round sha w _ g _ gdb H).
  - exact (flyingTick_calm_games now now' clock w endT g Ht Hg Hp Hend).
  - apply flyingTick_settling.
  - now rewrite He.
  - now rewrite He.
  - reflexivity.
  - reflexivity.
  - reflexivity.
  - rewrite He. pose proof (sound_timers _ _ _ _ H) as Htm.
    unfold timers_match in *. cbn. exact Htm.
  - exact Hnc.
  - cbn. exact Hnc.
Qed.

Lemma sound_crash (sha : string -> string) (now now' : Z) (clock : nat -> Z) (w : World) (endT : number)
    (g : GameState) (gdb : Game) :
  sound sha w g gdb ->
  gameTimer (engine w) = Some endT ->
  phase g = flying ->
  nge (num now') endT = true ->
  exists g' gdb', sound sha (world (flyingTick now now' clock w)) g' gdb'.
Proof.
  intros H Ht Hp Hend.
  pose proof (sound_game _ _ _ _ H) as Hg.
  pose proof (sound_lookup _ _ _ _ H) as Hdb.
  pose proof (sound_record _ _ _ _ H) as Hrec.
  destruct (flyingTick_crash now now' clock w endT g gdb Ht Hg Hp Hend Hdb Hrec)
    as [He [stamp Hgs]].
  pose proof (flyingTick_settling now now' clock w) as Hs.
  pose proof (flyingTick_sweeps now now' clock w endT g gdb Ht Hg Hp Hend Hdb (sound_bets _ _ _ _ H))
    as Hsweep.
  destruct (timers_flying _ _ (sound_timers _ _ _ _ H) Hp) as [Hct [_ Hrt]].
  set (m := tickMultiplier (nsub (num now) (num (startTime g)))) in *.
  set (w' := world (flyingTick now now' clock w)) in *.
  assert (Hbok : bets_ok (bets (storage w')))
    by (apply (settling_bets_ok _ _ Hs), H).
  assert (Hnone : forall b, In b (map_values (bets (storage w'))) -> isActive b = true -> False).
  { intros b Hin Hact.
    pose proof (settling_In_active _ _ _ Hs (sound_bets _ _ _ _ H) Hin Hact) as Hin0.
    pose proof (bets_ok_value _ _ (sound_bets _ _ _ _ H) Hin0) as Hget0.
    pose proof (bets_ok_value _ _ Hbok Hin) as Hget.
    destruct (sound_active _ _ _ _ H b Hin0 Hact) as [Hgid _].
    destruct (Hsweep b Hget0 Hgid Hact) as [s0 Hs0].
    rewrite Hs0 in Hget. injection Hget as Hb.
    rewrite <- Hb in Hact. discriminate. }
  exists (set_phase crashed (set_multiplier m g)).
  destruct (truthy (salt g)) as [s|] eqn:Hsalt.
  - exists (crashRecord gdb (numToString m) s stamp).
    constructor; rewrite ?He, ?Hgs; cbn [currentGame roundIdCounter set_phase set_multiplier
      roundId hash salt phase crashRecord game_id game_roundId game_hash game_salt crashedAt].
    + reflexivity.
    + apply H.
    + unfold timers_match. cbn. now repeat split.
    + apply games_ok_set; [reflexivity | apply H].
    + rewrite (map_set_image game_roundId _ _ gdb); [apply H | exact Hrec | reflexivity].
    + intros gr Hin. destruct (map_values_set_In _ _ _ _ Hin) as [-> | Hin'].
      * cbn. apply (sound_rounds_le _ _ _ _ H). now apply (map_get_value (game_id gdb)).
      * now apply (sound_rounds_le _ _ _ _ H).
    + apply map_get_set_same.
    + apply H.
    + apply H.
    + intros Hc. now contradiction Hc.
    + apply H.
    + intros gr s0 Hin Hs0. destruct (map_values_set_In _ _ _ _ Hin) as [-> | Hin'].
      * cbn in Hs0. injection Hs0 as <-. cbn. split; [|discriminate].
        rewrite (sound_record_round _ _ _ _ H), (sound_record_hash _ _ _ _ H).
        apply (sound_commit _ _ _ _ H). now apply truthy_Some.
      * now apply (sound_revealed _ _ _ _ H).
    + exact Hbok.
    + intros uid gid. etransitivity; [apply settling_count, Hs | apply H].
    + intros b Hin Hact. destruct (Hnone b Hin Hact).
  - exists gdb.
    constructor; rewrite ?He, ?Hgs; cbn [currentGame roundIdCounter set_phase set_multiplier
      roundId hash salt phase]; try apply H.
    + reflexivity.
    + unfold timers_match. cbn. now repeat split.
    + intros Hc. now contradiction Hc.
    + exact Hbok.
    + intros uid gid. etransitivity; [apply settling_count, Hs | apply H].
    + intros b Hin Hact. destruct (Hnone b Hin Hact).
Qed.

Lemma sound_flyingTick (sha : string -> string) (now now' : Z) (clock : nat -> Z) (w : World)
    (g : GameState) (gdb : Game) :
  sound sha w g gdb -> exists g' gdb', sound sha (world (flyingTick now now' clock w)) g' gdb'.
Proof.
  intros H.
  destruct (flyingTick_running now now' clock w) as [-> | [endT [g0 [Ht [Hg Hp]]]]];
    [now exists g, gdb|].
  rewrite (sound_game _ _ _ _ H) in Hg. injection Hg as Hg. subst g0.
  destruct (nge (num now') endT) eqn:Hend.
  - exact (sound_crash sha now now' clock w endT g gdb H Ht Hp Hend).
  - destruct (sound_calm sha now now' clock w endT g gdb H Ht Hp Hend) as [g' H'].
    now exists g', gdb.
Qed.

Lemma startNewRound_world (sha : string -> string) (randomBytes : list byte)
    (uuid : string) (now : Z) (w : World) :
  let rid := roundIdCounter (engine w) + 1 in
  let hs := Hash.generateHash sha rid randomBytes in
  world (startNewRound sha randomBytes uuid now w)
  = mkWorld
      (set_games (map_set uuid (mkGame uuid rid "0.00" (fst hs) None (Some now) None)
                    (games (storage w))) (storage w))
      (mkEngine
         (Some (mkGameState rid waiting (num 1) 0 0 (fst hs) (Some (snd hs))
                  (WAIT_TIME / 1000)))
         (gameTimer (engine w)) true (restartTimer (engine w)) rid).
Proof. unfold startNewRound. mstep. reflexivity. Qed.

(** A round that starts with no timer armed and no bet active. *)
Lemma sound_startNewRound (sha : string -> string) (randomBytes : list byte)
    (uuid : string) (now : Z) (w : World) :
  gameTimer (engine w) = None ->
  restartTimer (engine w) = false ->
  games_ok (games (storage w)) ->
  NoDup (List.map game_roundId (map_values (games (storage w)))) ->
  (forall gr, In gr (map_values (games (storage w))) ->
              game_roundId gr <= roundIdCounter (engine w)) ->
  (forall gr s, In gr (map_values (games (storage w))) -> game_salt gr = Some s ->
                Hash.verifyHash sha (game_roundId gr) s (game_hash gr) = true
                /\ crashedAt gr <> None) ->
  bets_ok (bets (storage w)) ->
  (forall uid gid, (List.length (activeBetsOf uid gid (bets (storage w))) <= 1)%nat) ->
  (forall b, In b (map_values (bets (storage w))) -> isActive b = false) ->
  exists g gdb, sound sha (world (startNewRound sha randomBytes uuid now w)) g gdb.
Proof.
  intros Hgt Hrt Hgok Hnd Hle Hrev Hbok Hone Hnone.
  rewrite startNewRound_world. cbn zeta.
  set (rid := roundIdCounter (engine w) + 1).
  set (hs := Hash.generateHash sha rid randomBytes).
  eexists. exists (mkGame uuid rid "0.00" (fst hs) None (Some now) None).
  constructor; cbn [engine storage currentGame roundIdCounter games bets set_games
                    game_id game_roundId game_hash game_salt crashedAt].
  - reflexivity.
  - reflexivity.
  - unfold timers_match. cbn. now repeat split.
  - now apply games_ok_set.
  - apply map_set_image_NoDup; [exact Hnd|].
    intros v' Hv'. cbn. specialize (Hle v' Hv'). unfold rid. lia.
  - intros gr Hin. destruct (map_values_set_In _ _ _ _ Hin) as [-> | Hin'].
    + cbn. lia.
    + specialize (Hle gr Hin'). unfold rid. lia.
  - apply map_get_set_same.
  - reflexivity.
  - reflexivity.
  - now split.
  - cbn. intros s [= <-]. unfold Hash.verifyHash, hs, Hash.generateHash. cbn.
    apply String.eqb_refl.
  - intros gr s Hin Hs. destruct (map_values_set_In _ _ _ _ Hin) as [-> | Hin'].
    + discriminate.
    + now apply Hrev.
  - exact Hbok.
  - exact Hone.
  - intros b Hin Hact. rewrite (Hnone b Hin) in Hact. discriminate.
Qed.

Lemma sound_restartTimeout (sha : string -> string) (randomBytes : list byte)
    (uuid : string) (now : Z) (w : World) (g : GameState) (gdb : Game) :
  sound sha w g gdb ->
  exists g' gdb', sound sha (world (restartTimeout sha randomBytes uuid now w)) g' gdb'.
Proof.
  intros H. unfold restartTimeout. mstep.
  destruct (restartTimer (engine w)) eqn:Hrt; [|now exists g, gdb]. mstep.
  destruct (timers_crashed _ _ (sound_timers _ _ _ _ H) Hrt) as [Hp [Hgt Hct]].
  apply sound_startNewRound; cbn [engine storage with_restartTimer gameTimer restartTimer
                                   roundIdCounter]; try apply H; try assumption.
  - reflexivity.
  - intros b Hin. destruct (isActive b) eqn:Hact; [|reflexivity].
    destruct (sound_active _ _ _ _ H b Hin Hact) as [_ Hnc]. now contradiction Hnc.
Qed.

Lemma sound_newWorld (sha : string -> string) (randomBytes : list byte)
    (uuid : string) (now : Z) :
  exists g gdb, sound sha (world (newWorld sha randomBytes uuid now)) g gdb.
Proof.
  unfold newWorld. apply sound_startNewRound; cbn; try reflexivity.
  - split; [constructor | intros k g0 []].
  - constructor.
  - intros gr [].
  - intros gr s [].
  - apply bets_ok_nil.
  - intros uid gid. lia.
  - intros b [].
Qed.

(** A server that was started and has run its timers and requests, one
    after another, is sound. *)
Lemma running_sound (sha : string -> string) (w : World) :
  running sha w -> exists g gdb, sound sha w g gdb.
Proof.
  induction 1 as [randomBytes uuid now | w t _ [g [gdb IH]]].
  - apply sound_newWorld.
  - destruct t as [now now' | now r | rb uuid now | uid amt auto uuid now | uid now];
      cbn [runTask].
    + now apply (sound_flyingTick sha now now' clock w g gdb).
    + destruct (sound_countdownTick sha now r w g gdb IH) as [g' H']. now exists g', gdb.
    + now apply (sound_restartTimeout sha rb uuid now w g gdb).
    + exists g, gdb. now apply sound_placeBet.
    + exists g, gdb. now apply sound_manualCashOut.
Qed.

(** *** What holds of a running server *)

Lemma running_runTasks (sha : string -> string) (ts : list Task) (w : World) :
  running sha w -> running sha (runTasks sha ts w).
Proof.
  unfold runTasks. revert w. induction ts as [|t ts IH]; intros w Hw; [exact Hw|].
  cbn. apply IH. now apply run_task.
Qed.

Lemma demoStarted_running : running demoDigest demoStarted.
Proof. apply run_new. Qed.

Lemma demoOpen_running : running demoDigest demoOpen.
Proof. apply running_runTasks, demoStarted_running. Qed.

Lemma demoInFlight_running : running demoDigest demoInFlight.
Proof. apply running_runTasks, demoOpen_running. Qed.

Lemma demoCrashed_running : running demoDigest demoCrashed.
Proof. apply running_runTasks, demoInFlight_running. Qed.

Lemma getRecentGames_In (limit : number) (st : MemStorage) (gr : Game) :
  In gr (getRecentGames limit st) ->
  In gr (map_values (games st)) /\ crashedAt gr <> None.
Proof.
  unfold getRecentGames. intros Hin. apply slice0_In in Hin.
  apply (Permutation_in _ (sort_perm _ _)) in Hin.
  apply filter_In in Hin. destruct Hin as [Hin Hc]. split; [exact Hin|].
  unfold hasCrashed in Hc. now destruct (crashedAt gr).
Qed.

Lemma NoDup_map_In_inj {A B : Type} (f : A -> B) (l : list A) (a b : A) :
  NoDup (List.map f l) -> In a l -> In b l -> f a = f b -> a = b.
Proof.
  induction l as [|x l IH]; cbn; [contradiction|]. intros Hnd Ha Hb Hf.
  inversion Hnd as [|? ? Hnotin Hnd']; subst.
  destruct Ha as [-> | Ha], Hb as [-> | Hb]; [reflexivity | | |now apply IH].
  - exfalso. apply Hnotin. rewrite Hf. now apply in_map.
  - exfalso. apply Hnotin. rewrite <- Hf. now apply in_map.
Qed.

Lemma placeBet_finds_game (uid amt : string) (auto : option string) (uuid : string)
    (now : Z) (w : World) (g : GameState) (gdb : Game) :
  currentGame (engine w) = Some g ->
  getGameByRoundId (roundId g) (storage w) = Some gdb ->
  message (value (placeBet uid amt auto uuid now w)) <> "Game not found".
Proof.
  intros Hg Hdb. unfold placeBet. mstep. rewrite Hg.
  destruct (negb (Phase_eqb (phase g) waiting)); [discriminate|]. mstep.
  destruct (getUser uid (storage w)) as [u|]; [|discriminate].
  destruct (nle (parseFloat amt) (num 0)); [discriminate|].
  destruct (ngt (parseFloat amt) (parseFloat (balance u))); [discriminate|]. mstep.
  rewrite Hdb. mstep.
  destruct (List.existsb _ _); [discriminate|]. mstep. discriminate.
Qed.

Lemma manualCashOut_finds_game (uid : string) (now : Z) (w : World)
    (g : GameState) (gdb : Game) :
  currentGame (engine w) = Some g ->
  getGameByRoundId (roundId g) (storage w) = Some gdb ->
  co_message (value (manualCashOut uid now w)) <> "Game not found".
Proof.
  intros Hg Hdb. unfold manualCashOut. mstep. rewrite Hg.
  destruct (negb (Phase_eqb (phase g) flying)); [discriminate|]. mstep.
  rewrite Hdb. mstep.
  destruct (List.find _ _); mstep; discriminate.
Qed.

Lemma activeBetsOf_filter (uid gid : string) (st : MemStorage) :
  List.filter (fun bet => String.eqb (userId bet) uid) (getActiveBetsByGameId gid st)
  = activeBetsOf uid gid (bets st).
Proof.
  unfold getActiveBetsByGameId, activeBetsOf.
  induction (map_values (bets st)) as [|b l IH]; cbn; [reflexivity|].
  destruct (String.eqb (userId b) uid) eqn:Eu;
    destruct (String.eqb (gameId b) gid && isActive b) eqn:Eg; cbn;
    rewrite ?Eu, ?Eg; cbn; rewrite ?Eu; now rewrite IH.
Qed.

(** X11. A server that was started, whatever timers and requests it has
    run since, one after another, has a current round, and exactly the
    timer of the round's phase is armed: the countdown interval while the
    round waits, the flying interval while it flies, the restart timeout
    once it has crashed.  The phase is never [starting], and the round id is
    the engine's counter. *)
Theorem running_timers_follow_phase (sha256_hex : string -> string) (w : World) :
  running sha256_hex w ->
  exists g,
    currentGame (engine w) = Some g
    /\ phase g <> starting
    /\ timers_match (engine w) g
    /\ roundId g = roundIdCounter (engine w).
Proof.
  intros Hw. destruct (running_sound sha256_hex w Hw) as [g [gdb H]].
  exists g. split; [apply H|]. split; [|split; [apply H | apply H]].
  pose proof (sound_timers _ _ _ _ H) as Htm. unfold timers_match in Htm.
  intros Hp. now rewrite Hp in Htm.
Qed.

Lemma running_timers_follow_phase_witness :
  running demoDigest demoCrashed
  /\ exists g,
       currentGame (engine demoCrashed) = Some g
       /\ phase g <> starting
       /\ timers_match (engine demoCrashed) g
       /\ roundId g = roundIdCounter (engine demoCrashed).
Proof.
  split; [exact demoCrashed_running|].
  exact (running_timers_follow_phase demoDigest demoCrashed demoCrashed_running).
Defined.

(** X12. In a running server the round of the engine is on record: the
    store finds one game by the round id, the same one by its own id, and
    that record carries the hash the engine publishes.  So neither [placeBet]
    nor [manualCashOut] ever answers "Game not found". *)
Theorem running_round_is_on_record (sha256_hex : string -> string) (w : World) :
  running sha256_hex w ->
  exists g gdb,
    currentGame (engine w) = Some g
    /\ getGameByRoundId (roundId g) (storage w) = Some gdb
    /\ getGame (game_id gdb) (storage w) = Some gdb
    /\ game_roundId gdb = roundId g
    /\ game_hash gdb = hash g
    /\ (forall uid amt auto uuid now,
          message (value (placeBet uid amt auto uuid now w)) <> "Game not found")
    /\ (forall uid now,
          co_message (value (manualCashOut uid now w)) <> "Game not found").
Proof.
  intros Hw. destruct (running_sound sha256_hex w Hw) as [g [gdb H]].
  pose proof (sound_game _ _ _ _ H) as Hg.
  pose proof (sound_lookup _ _ _ _ H) as Hdb.
  exists g, gdb. split; [exact Hg|]. split; [exact Hdb|].
  split; [apply H|]. split; [apply H|]. split; [apply H|]. split.
  - intros uid amt auto uuid now. exact (placeBet_finds_game _ _ _ _ _ w g gdb Hg Hdb).
  - intros uid now. exact (manualCashOut_finds_game _ _ w g gdb Hg Hdb).
Qed.

Lemma running_round_is_on_record_witness :
  running demoDigest demoInFlight
  /\ exists g gdb,
       currentGame (engine demoInFlight) = Some g
       /\ getGameByRoundId (roundId g) (storage demoInFlight) = Some gdb
       /\ getGame (game_id gdb) (storage demoInFlight) = Some gdb
       /\ game_roundId gdb = roundId g
       /\ game_hash gdb = hash g
       /\ (forall uid amt auto uuid now,
             message (value (placeBet uid amt auto uuid now demoInFlight))
             <> "Game not found")
       /\ (forall uid now,
             co_message (value (manualCashOut uid now demoInFlight)) <> "Game not found").
Proof.
  split; [exact demoInFlight_running|].
  exact (running_round_is_on_record demoDigest demoInFlight demoInFlight_running).
Defined.

(** X13. In a running server every game on record that carries a salt
    is a game that has crashed, and its salt opens its hash: [verifyHash]
    accepts the record's round id, salt and hash. *)
Theorem running_salts_open_hashes (sha256_hex : string -> string) (w : World)
    (gr : Game) (s : string) :
  running sha256_hex w ->
  In gr (map_values (games (storage w))) ->
  game_salt gr = Some s ->
  Hash.verifyHash sha256_hex (game_roundId gr) s (game_hash gr) = true
  /\ hasCrashed gr = true.
Proof.
  intros Hw Hin Hs. destruct (running_sound sha256_hex w Hw) as [g [gdb H]].
  destruct (sound_revealed _ _ _ _ H gr s Hin Hs) as [Hv Hc].
  split; [exact Hv|]. unfold hasCrashed. now destruct (crashedAt gr).
Qed.

Lemma running_salts_open_hashes_witness :
  let gr := mkGame "g1" 127535 "1.4" "127535:ab01" (Some "ab01") (Some 0) (Some 14000) in
  running demoDigest demoCrashed
  /\ In gr (map_values (games (storage demoCrashed)))
  /\ game_salt gr = Some "ab01"
  /\ Hash.verifyHash demoDigest (game_roundId gr) "ab01" (game_hash gr) = true
  /\ hasCrashed gr = true.
Proof.
  intros gr.
  assert (Hin : In gr (map_values (games (storage demoCrashed)))) by (vm_compute; now left).
  split; [exact demoCrashed_running|]. split; [exact Hin|]. split; [reflexivity|].
  exact (running_salts_open_hashes demoDigest demoCrashed gr "ab01"
           demoCrashed_running Hin eq_refl).
Defined.

(** X14. Until the round of a running server has crashed, its salt is
    nowhere in the store: the record of the round has neither salt nor
    crash time, and no list of recent games contains it. *)
Theorem running_open_round_keeps_salt (sha256_hex : string -> string) (w : World) :
  running sha256_hex w ->
  exists g,
    currentGame (engine w) = Some g
    /\ (phase g <> crashed ->
        (forall gr, In gr (map_values (games (storage w))) ->
                    game_roundId gr = roundId g ->
                    game_salt gr = None /\ crashedAt gr = None)
        /\ (forall limit gr, In gr (getRecentGames limit (storage w)) ->
                             game_roundId gr <> roundId g)).
Proof.
  intros Hw. destruct (running_sound sha256_hex w Hw) as [g [gdb H]].
  exists g. split; [apply H|]. intros Hp.
  destruct (sound_record_open _ _ _ _ H Hp) as [Hc Hs].
  assert (Hone : forall gr, In gr (map_values (games (storage w))) ->
                            game_roundId gr = roundId g -> gr = gdb).
  { intros gr Hin Hrid.
    apply (NoDup_map_In_inj game_roundId (map_values (games (storage w))));
      [apply H | exact Hin | | ].
    - apply (map_get_value (game_id gdb)). apply H.
    - rewrite Hrid. symmetry. apply H. }
  split.
  - intros gr Hin Hrid. rewrite (Hone gr Hin Hrid). now split.
  - intros limit gr Hin Hrid. destruct (getRecentGames_In limit _ gr Hin) as [Hin' Hcr].
    rewrite (Hone gr Hin' Hrid) in Hcr. now apply Hcr.
Qed.

Lemma running_open_round_keeps_salt_witness :
  running demoDigest demoInFlight
  /\ exists g,
       currentGame (engine demoInFlight) = Some g
       /\ (phase g <> crashed ->
           (forall gr, In gr (map_values (games (storage demoInFlight))) ->
                       game_roundId gr = roundId g ->
                       game_salt gr = None /\ crashedAt gr = None)
           /\ (forall limit gr, In gr (getRecentGames limit (storage demoInFlight)) ->
                                game_roundId gr <> roundId g)).
Proof.
  split; [exact demoInFlight_running|].
  exact (running_open_round_keeps_salt demoDigest demoInFlight demoInFlight_running).
Defined.

(** X15. Every game a running server has on record is found by its own
    round id and by its own id: no two records share a round id or an id,
    and no round id on record is ahead of the engine's counter. *)
Theorem running_rounds_are_distinct (sha256_hex : string -> string) (w : World) (gr : Game) :
  running sha256_hex w ->
  In gr (map_values (games (storage w))) ->
  getGameByRoundId (game_roundId gr) (storage w) = Some gr
  /\ getGame (game_id gr) (storage w) = Some gr
  /\ game_roundId gr <= roundIdCounter (engine w).
Proof.
  intros Hw Hin. destruct (running_sound sha256_hex w Hw) as [g [gdb H]].
  split; [|split].
  - unfold getGameByRoundId. apply (find_unique game_roundId); [apply H | exact Hin].
  - unfold getGame. destruct (sound_games _ _ _ _ H) as [Hnd Hk].
    unfold map_values in Hin. apply in_map_iff in Hin.
    destruct Hin as [[k gr'] [Heq Hin]]. cbn in Heq. subst gr'.
    rewrite (Hk _ _ Hin). now apply In_map_get.
  - now apply (sound_rounds_le _ _ _ _ H).
Qed.

Lemma running_rounds_are_distinct_witness :
  let gr := mkGame "g1" 127535 "1.4" "127535:ab01" (Some "ab01") (Some 0) (Some 14000) in
  running demoDigest demoCrashed
  /\ In gr (map_values (games (storage demoCrashed)))
  /\ getGameByRoundId (game_roundId gr) (storage demoCrashed) = Some gr
  /\ getGame (game_id gr) (storage demoCrashed) = Some gr
  /\ game_roundId gr <= roundIdCounter (engine demoCrashed).
Proof.
  intros gr.
  assert (Hin : In gr (map_values (games (storage demoCrashed)))) by (vm_compute; now left).
  split; [exact demoCrashed_running|]. split; [exact Hin|].
  exact (running_rounds_are_distinct demoDigest demoCrashed gr demoCrashed_running Hin).
Defined.

(** X16. As long as requests are handled one at a time, a player never
    holds two active bets in one game: among the active bets of any game of
    a running server there is at most one of any player. *)
Theorem running_one_active_bet (sha256_hex : string -> string) (w : World)
    (uid gid : string) :
  running sha256_hex w ->
  (List.length (List.filter (fun bet => String.eqb (userId bet) uid)
                  (getActiveBetsByGameId gid (storage w))) <= 1)%nat.
Proof.
  intros Hw. destruct (running_sound sha256_hex w Hw) as [g [gdb H]].
  rewrite activeBetsOf_filter. apply H.
Qed.

Lemma running_one_active_bet_witness :
  running demoDigest demoInFlight
  /\ (List.length (List.filter (fun bet => String.eqb (userId bet) "default-user")
                     (getActiveBetsByGameId "g1" (storage demoInFlight))) <= 1)%nat.
Proof.
  split; [exact demoInFlight_running|].
  exact (running_one_active_bet demoDigest demoInFlight "default-user" "g1"
           demoInFlight_running).
Defined.

(** X17. In a running server every active bet is a bet on the round of
    the engine, and that round is waiting or flying: once a round has
    crashed, no bet in the store is active. *)
Theorem running_active_bets_are_current (sha256_hex : string -> string) (w : World) :
  running sha256_hex w ->
  exists g gdb,
    currentGame (engine w) = Some g
    /\ getGameByRoundId (roundId g) (storage w) = Some gdb
    /\ (forall b, In b (map_values (bets (storage w))) -> isActive b = true ->
                  gameId b = game_id gdb /\ (phase g = waiting \/ phase g = flying))
    /\ (phase g = crashed ->
        forall gid, getActiveBetsByGameId gid (storage w) = []).
Proof.
  intros Hw. destruct (running_sound sha256_hex w Hw) as [g [gdb H]].
  exists g, gdb. split; [apply H|]. split; [now apply (sound_lookup sha256_hex)|].
  pose proof (sound_timers _ _ _ _ H) as Htm. split.
  - intros b Hin Hact. destruct (sound_active _ _ _ _ H b Hin Hact) as [Hgid Hnc].
    split; [exact Hgid|]. unfold timers_match in Htm.
    destruct (phase g); [now left | contradiction | now right | now contradiction Hnc].
  - intros Hp gid. unfold getActiveBetsByGameId.
    destruct (List.filter _ _) as [|b l] eqn:E; [reflexivity|].
    assert (Hb : In b (List.filter
                         (fun bet => String.eqb (gameId bet) gid && isActive bet)
                         (map_values (bets (storage w))))) by (rewrite E; now left).
    apply filter_In in Hb. destruct Hb as [Hin Hb]. apply andb_prop in Hb.
    destruct (sound_active _ _ _ _ H b Hin (proj2 Hb)) as [_ Hnc]. contradiction.
Qed.

Lemma running_active_bets_are_current_witness :
  running demoDigest demoCrashed
  /\ exists g gdb,
       currentGame (engine demoCrashed) = Some g
       /\ getGameByRoundId (roundId g) (storage demoCrashed) = Some gdb
       /\ (forall b, In b (map_values (bets (storage demoCrashed))) -> isActive b = true ->
                     gameId b = game_id gdb /\ (phase g = waiting \/ phase g = flying))
       /\ (phase g = crashed ->
           forall gid, getActiveBetsByGameId gid (storage demoCrashed) = []).
Proof.
  split; [exact demoCrashed_running|].
  exact (running_active_bets_are_current demoDigest demoCrashed demoCrashed_running).
Defined.

(** *** Cashing out once *)

Lemma two_in_filter {A : Type} (P : A -> bool) (l : list A) (a b : A) :
  In a l -> In b l -> a <> b -> P a = true -> P b = true ->
  (2 <= List.length (List.filter P l))%nat.
Proof.
  intros Ha Hb Hne Pa Pb.
  assert (Ha' : In a (List.filter P l)) by (apply filter_In; now split).
  assert (Hb' : In b (List.filter P l)) by (apply filter_In; now split).
  destruct (List.filter P l) as [|x [|y l']]; cbn in *; [contradiction | | lia].
  destruct Ha' as [<- | []], Hb' as [<- | []]. now contradiction Hne.
Qed.

Lemma manualCashOut_no_bet (uid : string) (now : Z) (w : World)
    (g : GameState) (gdb : Game) :
  currentGame (engine w) = Some g ->
  phase g = flying ->
  getGameByRoundId (roundId g) (storage w) = Some gdb ->
  List.find (fun bet => String.eqb (userId bet) uid)
    (getActiveBetsByGameId (game_id gdb) (storage w)) = None ->
  manualCashOut uid now w
  = mkOut (mkCashOutResult false "No active bet found" None) w [].
Proof.
  intros Hg Hp Hdb Hfind. unfold manualCashOut, bind, this, query, ret. cbn.
  rewrite Hg, Hp. cbn. rewrite Hdb. cbn. rewrite Hfind. reflexivity.
Qed.

(** X18. As long as requests are handled one at a time, a player cashes
    out once: after a manual cash-out that succeeded, the same player's
    next cash-out finds no active bet, changes nothing and emits nothing. *)
Theorem manualCashOut_only_once (sha256_hex : string -> string) (w : World)
    (uid : string) (now now' : Z) :
  running sha256_hex w ->
  co_success (value (manualCashOut uid now w)) = true ->
  manualCashOut uid now' (world (manualCashOut uid now w))
  = mkOut (mkCashOutResult false "No active bet found" None)
      (world (manualCashOut uid now w)) [].
Proof.
  intros Hw. destruct (running_sound sha256_hex w Hw) as [g [gdb H]].
  pose proof (sound_game _ _ _ _ H) as Hg.
  pose proof (sound_lookup _ _ _ _ H) as Hdb.
  pose proof (sound_bets _ _ _ _ H) as Hok.
  unfold manualCashOut at 1 3 4. mstep. rewrite Hg.
  destruct (phase g) eqn:Hp; cbn [Phase_eqb negb]; try discriminate. mstep.
  rewrite Hdb. mstep.
  destruct (List.find _ _) as [userBet|] eqn:Hfind; [|discriminate]. mstep. intros _.
  apply find_some in Hfind. destruct Hfind as [Hin Huid]. apply String.eqb_eq in Huid.
  unfold getActiveBetsByGameId in Hin. apply filter_In in Hin.
  destruct Hin as [Hin Hga]. apply andb_prop in Hga. destruct Hga as [Hgid Hact].
  pose proof (bets_ok_value _ _ Hok Hin) as Hget.
  pose proof (cashOutBet_active (bet_id userBet) uid (numToString (multiplier g)) now w
                userBet Hok Hget Hact Huid) as Hbets.
  destruct (cashOutBet_engine (bet_id userBet) uid (numToString (multiplier g)) now w)
    as [He Hgs].
  set (w1 := world (cashOutBet (bet_id userBet) uid (numToString (multiplier g)) now w)) in *.
  assert (Hok1 : bets_ok (bets (storage w1))).
  { rewrite Hbets. apply bets_ok_set; [reflexivity | exact Hok]. }
  apply (manualCashOut_no_bet uid now' w1 g gdb).
  - now rewrite He.
  - exact Hp.
  - unfold getGameByRoundId in *. now rewrite Hgs.
  - apply find_none_iff. intros x Hx.
    destruct (String.eqb (userId x) uid) eqn:Ex; [exfalso | reflexivity].
    unfold getActiveBetsByGameId in Hx. apply filter_In in Hx.
    destruct Hx as [Hx Hxa]. apply andb_prop in Hxa. destruct Hxa as [Hxg Hxact].
    pose proof (bets_ok_value _ _ Hok1 Hx) as Hgetx.
    assert (Hkey : bet_id x <> bet_id userBet).
    { intros E. rewrite E, Hbets, map_get_set_same in Hgetx. injection Hgetx as Hx'.
      rewrite <- Hx' in Hxact. discriminate. }
    rewrite Hbets, map_get_set_other in Hgetx by exact Hkey.
    pose proof (map_get_value _ _ _ Hgetx) as Hx0.
    pose proof (sound_one_bet _ _ _ _ H uid (game_id gdb)) as Hone.
    unfold activeBetsOf in Hone.
    assert (2 <= List.length
                   (List.filter
                      (fun bet => String.eqb (userId bet) uid
                                  && String.eqb (gameId bet) (game_id gdb) && isActive bet)
                      (map_values (bets (storage w)))))%nat; [|lia].
    apply (two_in_filter _ _ x userBet Hx0 Hin).
    + intros E. apply Hkey. now rewrite E.
    + now rewrite Ex, Hxg, Hxact.
    + rewrite Huid, String.eqb_refl, Hgid, Hact. reflexivity.
Qed.

Lemma manualCashOut_only_once_witness :
  running demoDigest demoInFlight
  /\ co_success (value (manualCashOut "default-user" 11000 demoInFlight)) = true
  /\ manualCashOut "default-user" 11500
       (world (manualCashOut "default-user" 11000 demoInFlight))
     = mkOut (mkCashOutResult false "No active bet found" None)
         (world (manualCashOut "default-user" 11000 demoInFlight)) [].
Proof.
  assert (Hs : co_success (value (manualCashOut "default-user" 11000 demoInFlight)) = true)
    by (vm_compute; reflexivity).
  split; [exact demoInFlight_running|]. split; [exact Hs|].
  exact (manualCashOut_only_once demoDigest demoInFlight "default-user" 11000 11500
           demoInFlight_running Hs).
Defined.

(** *** A bet within the balance *)

Lemma updateUserBalance_reads (uid nb : string) (st : MemStorage) (u : User) :
  getUser uid st = Some u ->
  getUser uid (updateUserBalance uid nb st)
  = Some (mkUser (user_id u) (username u) (password u) nb (avatar u) (user_createdAt u)).
Proof.
  unfold getUser, updateUserBalance. intros ->. cbn. apply map_get_set_same.
Qed.

Lemma cents_close (q : Q) :
  (0 <= q)%Q ->
  let n := Qfloor (Qabs q * 100 + (1 # 2))%Q in
  0 <= n /\ (Qabs (inject_Z n / inject_Z 100 - q) <= 1 # 200)%Q.
Proof.
  intros Hq n. subst n.
  assert (Habs : (Qabs q == q)%Q) by now apply Qabs_pos.
  set (x := (Qabs q * 100 + (1 # 2))%Q).
  pose proof (Qfloor_le x) as Hlo. pose proof (Qlt_floor x) as Hhi.
  rewrite inject_Z_plus in Hhi. change (inject_Z 1) with 1%Q in Hhi.
  assert (Hx : (x == q * 100 + (1 # 2))%Q) by (unfold x; now rewrite Habs).
  assert (H0 : 0 <= Qfloor x).
  { change 0%Z with (Qfloor (inject_Z 0)). apply Qfloor_resp_le.
    change (inject_Z 0) with 0%Q. lra. }
  split; [exact H0|].
  change (inject_Z (Qfloor x) / inject_Z 100)%Q with (inject_Z (Qfloor x) * (1 # 100))%Q.
  apply Qabs_Qle_condition. split; lra.
Qed.

(** X19. A bet that is accepted never overdraws.  When the amount and
    the balance read as finite numbers and [placeBet] succeeds, the amount
    is positive and at most the balance; the balance stored for the player
    is the [toFixed(2)] text of balance - amount, a double that is not
    negative; that text reads back as a number that is not negative, the
    double nearest to a whole number of cents within half a cent of the
    difference. *)
Theorem placeBet_never_overdraws (uid amt : string) (auto : option string)
    (uuid : string) (now : Z) (w : World) (u : User) (a b : Q) :
  getUser uid (storage w) = Some u ->
  parseFloat amt = Fin a ->
  parseFloat (balance u) = Fin b ->
  success (value (placeBet uid amt auto uuid now w)) = true ->
  (0 < a)%Q /\ (a <= b)%Q
  /\ exists u',
       getUser uid (storage (world (placeBet uid amt auto uuid now w))) = Some u'
       /\ balance u' = toFixed2 (nsub (parseFloat (balance u)) (parseFloat amt))
       /\ nsub (parseFloat (balance u)) (parseFloat amt) = round64 (b - a)
       /\ nle (num 0) (round64 (b - a)) = true
       /\ nle (num 0) (parseFloat (balance u')) = true
       /\ forall d, round64 (b - a) = Fin d -> Qle_bool (pow10 21) d = false ->
            exists n, 0 <= n
                      /\ parseFloat (balance u') = round64 (inject_Z n / inject_Z 100)
                      /\ (Qabs (inject_Z n / inject_Z 100 - d) <= 1 # 200)%Q.
Proof.
  intros Hu Ha Hb. unfold placeBet. mstep.
  destruct (currentGame (engine w)) as [g|]; [|discriminate].
  destruct (negb (Phase_eqb (phase g) waiting)); [discriminate|]. mstep.
  rewrite Hu, Ha, Hb.
  destruct (nle (Fin a) (num 0)) eqn:Hpos; [discriminate|].
  destruct (ngt (Fin a) (Fin b)) eqn:Hle; [discriminate|]. mstep.
  destruct (getGameByRoundId (roundId g) (storage w)) as [gdb|]; [|discriminate]. mstep.
  destruct (List.existsb _ _); [discriminate|]. mstep. intros _.
  assert (Ha0 : (0 < a)%Q).
  { cbn in Hpos. destruct (Qlt_le_dec 0 a) as [H | H]; [exact H|].
    apply Qle_bool_iff in H. change (inject_Z 0) with 0%Q in Hpos. congruence. }
  assert (Hab : (a <= b)%Q).
  { unfold ngt, nlt, Qltb in Hle. apply negb_false_iff in Hle. now apply Qle_bool_iff. }
  split; [exact Ha0|]. split; [exact Hab|].
  assert (Hsub : nsub (Fin b) (Fin a) = round64 (b - a)).
  { unfold nsub. cbn [nneg nadd]. apply round64_Qeq. rewrite Qred_correct. ring. }
  assert (Hd0 : nle (num 0) (round64 (b - a)) = true) by (apply round64_nonneg; lra).
  eexists. split; [|split; [|split; [|split; [|split]]]].
  - unfold createBet. cbn [snd]. unfold getUser. cbn [users set_bets].
    apply (updateUserBalance_reads uid _ (storage w) u Hu).
  - reflexivity.
  - exact Hsub.
  - exact Hd0.
  - cbn [balance]. rewrite Hsub. now apply toFixed2_nonneg_reads.
  - intros d Hd Hbig. cbn [balance]. rewrite Hsub, Hd. rewrite Hd in Hd0.
    cbn [num nle] in Hd0. apply Qle_bool_iff in Hd0. change (inject_Z 0) with 0%Q in Hd0.
    assert (Hbig' : Qle_bool (pow10 21) (Qabs d) = false).
    { destruct (Qle_bool (pow10 21) (Qabs d)) eqn:E; [|reflexivity].
      apply Qle_bool_iff in E. rewrite Qabs_pos in E by exact Hd0.
      apply Qle_bool_iff in E. congruence. }
    destruct (cents_close d Hd0) as [Hn Hclose].
    exists (Qfloor (Qabs d * 100 + (1 # 2))%Q).
    split; [exact Hn|]. split; [|exact Hclose].
    now apply toFixed2_parse.
Qed.

Lemma placeBet_never_overdraws_witness :
  getUser "default-user" (storage demoStarted) = Some (defaultUser 0)
  /\ parseFloat "100" = Fin 100
  /\ parseFloat (balance (defaultUser 0)) = Fin (25161 # 2)
  /\ success (value (placeBet "default-user" "100" None "b9" 700 demoStarted)) = true
  /\ (0 < 100)%Q /\ (100 <= 25161 # 2)%Q
  /\ exists u',
       getUser "default-user"
         (storage (world (placeBet "default-user" "100" None "b9" 700 demoStarted)))
       = Some u'
       /\ balance u'
          = toFixed2 (nsub (parseFloat (balance (defaultUser 0))) (parseFloat "100"))
       /\ nsub (parseFloat (balance (defaultUser 0))) (parseFloat "100")
          = round64 ((25161 # 2) - 100)
       /\ nle (num 0) (round64 ((25161 # 2) - 100)) = true
       /\ nle (num 0) (parseFloat (balance u')) = true
       /\ forall d, round64 ((25161 # 2) - 100) = Fin d -> Qle_bool (pow10 21) d = false ->
            exists n, 0 <= n
                      /\ parseFloat (balance u') = round64 (inject_Z n / inject_Z 100)
                      /\ (Qabs (inject_Z n / inject_Z 100 - d) <= 1 # 200)%Q.
Proof.
  assert (H1 : getUser "default-user" (storage demoStarted) = Some (defaultUser 0))
    by (vm_compute; reflexivity).
  assert (H2 : parseFloat "100" = Fin 100) by (vm_compute; reflexivity).
  assert (H3 : parseFloat (balance (defaultUser 0)) = Fin (25161 # 2))
    by (vm_compute; reflexivity).
  assert (H4 : success (value (placeBet "default-user" "100" None "b9" 700 demoStarted))
               = true) by (vm_compute; reflexivity).
  split; [exact H1|]. split; [exact H2|]. split; [exact H3|]. split; [exact H4|].
  exact (placeBet_never_overdraws "default-user" "100" None "b9" 700 demoStarted
           (defaultUser 0) 100 (25161 # 2) H1 H2 H3 H4).
Defined.

(** *** The countdown *)

Lemma countdownTick_waits (now : Z) (r : Q) (w : World) (g : GameState) :
  countdownTimer (engine w) = true ->
  currentGame (engine w) = Some g ->
  1 < countdown g ->
  world (countdownTick now r w)
  = mkWorld (storage w)
      (with_game (Some (set_countdown (countdown g - 1) g)) (engine w)).
Proof.
  intros Hc Hg Hn. unfold countdownTick. mstep. rewrite Hc, Hg. cbn [negb]. mstep.
  cbn [countdown set_countdown].
  destruct (countdown g - 1 <=? 0) eqn:E; [apply Z.leb_le in E; lia|]. mstep. reflexivity.
Qed.

Lemma countdownTick_takes_off (now : Z) (r : Q) (w : World) (g : GameState) :
  countdownTimer (engine w) = true ->
  currentGame (engine w) = Some g ->
  countdown g <= 1 ->
  engine (world (countdownTick now r w))
  = mkEngine
      (Some (set_multiplier (num 1)
               (set_startTime now (set_phase flying (set_countdown (countdown g - 1) g)))))
      (Some (nadd (num now) (nmul (generateCrashPoint r) (num 1000))))
      false (restartTimer (engine w)) (roundIdCounter (engine w)).
Proof.
  intros Hc Hg Hn. unfold countdownTick. mstep. rewrite Hc, Hg. cbn [negb]. mstep.
  cbn [countdown set_countdown].
  destruct (countdown g - 1 <=? 0) eqn:E; [|apply Z.leb_gt in E; lia].
  now rewrite (startFlying_engine now r _ (set_countdown (countdown g - 1) g)).
Qed.

Lemma countdown_run (sha : string -> string) (l : list (Z * Q)) :
  forall (w : World) (g : GameState),
    countdownTimer (engine w) = true ->
    currentGame (engine w) = Some g ->
    Z.of_nat (List.length l) < countdown g ->
    runTasks sha (List.map (fun x => CountdownInterval (fst x) (snd x)) l) w
    = mkWorld (storage w)
        (with_game (Some (set_countdown (countdown g - Z.of_nat (List.length l)) g))
           (engine w)).
Proof.
  unfold runTasks. induction l as [|[now r] l IH]; intros w g Hc Hg Hn.
  - cbn. destruct w as [st e]. destruct e, g. cbn in *. subst.
    unfold set_countdown, with_game. cbn. now rewrite Z.sub_0_r.
  - cbn [List.map List.fold_left fst snd runTask]. cbn [List.length] in Hn.
    rewrite (countdownTick_waits now r w g Hc Hg) by lia.
    rewrite (IH _ (set_countdown (countdown g - 1) g));
      [|exact Hc|reflexivity|cbn [countdown set_countdown]; lia].
    cbn [storage engine countdown set_countdown List.length].
    rewrite Nat2Z.inj_succ.
    replace (countdown g - Z.succ (Z.of_nat (List.length l)))
      with (countdown g - 1 - Z.of_nat (List.length l)) by lia.
    reflexivity.
Qed.

(** X20. A round waits for ten ticks of the countdown.  After a round
    has started, up to nine ticks leave it waiting, with the countdown one
    lower for each; the tenth tick puts it in flight at multiplier 1, with
    the tick's clock reading as start time and the flying interval armed to
    end the round one second per unit of the crash point later. *)
Theorem countdown_takes_ten_ticks (sha256_hex : string -> string) (randomBytes : list byte)
    (uuid : string) (now : Z) (w : World) (l : list (Z * Q)) (now' : Z) (r : Q) :
  let w0 := world (startNewRound sha256_hex randomBytes uuid now w) in
  let ticks := List.map (fun x => CountdownInterval (fst x) (snd x)) l in
  let waited := runTasks sha256_hex ticks w0 in
  let flown := runTasks sha256_hex (ticks ++ [CountdownInterval now' r]) w0 in
  ((List.length l <= 9)%nat ->
   exists g,
     currentGame (engine waited) = Some g
     /\ phase g = waiting
     /\ countdown g = 10 - Z.of_nat (List.length l)
     /\ countdownTimer (engine waited) = true)
  /\ (List.length l = 9%nat ->
      exists g,
        currentGame (engine flown) = Some g
        /\ phase g = flying
        /\ startTime g = now'
        /\ multiplier g = num 1
        /\ gameTimer (engine flown)
           = Some (nadd (num now') (nmul (generateCrashPoint r) (num 1000)))
        /\ countdownTimer (engine flown) = false).
Proof.
  intros w0 ticks waited flown.
  pose proof (startNewRound_world sha256_hex randomBytes uuid now w) as Hw0.
  cbn zeta in Hw0. fold w0 in Hw0.
  set (g0 := mkGameState (roundIdCounter (engine w) + 1) waiting (num 1) 0 0
               (fst (Hash.generateHash sha256_hex (roundIdCounter (engine w) + 1) randomBytes))
               (Some (snd (Hash.generateHash sha256_hex (roundIdCounter (engine w) + 1)
                             randomBytes)))
               (WAIT_TIME / 1000)) in *.
  assert (Hc : countdownTimer (engine w0) = true) by now rewrite Hw0.
  assert (Hg : currentGame (engine w0) = Some g0) by now rewrite Hw0.
  assert (Hrun : (List.length l <= 9)%nat ->
                 waited = mkWorld (storage w0)
                            (with_game
                               (Some (set_countdown (10 - Z.of_nat (List.length l)) g0))
                               (engine w0))).
  { intros Hl. unfold waited, ticks.
    rewrite (countdown_run sha256_hex l w0 g0 Hc Hg); [reflexivity|].
    change (countdown g0) with 10. lia. }
  split.
  - intros Hl. rewrite (Hrun Hl). eexists. split; [reflexivity|].
    cbn. split; [reflexivity|]. split; [reflexivity | exact Hc].
  - intros Hl. unfold flown, runTasks. rewrite List.fold_left_app. cbn [List.fold_left runTask].
    fold (runTasks sha256_hex ticks w0). fold waited.
    assert (Hl' : (List.length l <= 9)%nat) by lia.
    rewrite (Hrun Hl'), Hl.
    rewrite (countdownTick_takes_off now' r _
               (set_countdown (10 - Z.of_nat 9) g0)); [|exact Hc|reflexivity|cbn; lia].
    eexists. split; [reflexivity|]. cbn. now repeat split.
Qed.

(** *** A bet from the table and back *)

Lemma map_values_set_has {V : Type} (k : string) (v : V) (m : jsmap V) :
  In v (map_values (map_set k v m)).
Proof. apply (map_get_value k). apply map_get_set_same. Qed.

(** X21. [createBet], then the listings, then [updateBetCashOut]: the new
    bet is active and is listed under its player, under its game and among
    the active bets of its game; once it is cashed out the settled record is
    listed under the player and the game, the bet stored under that id is no
    longer among the active ones, and the bets under other ids read as
    before the two calls. *)
Theorem createBet_then_settle (id uid gid : string) (ins : InsertBet) (c win : string)
    (now now' : Z) (st : MemStorage) :
  let nb := fst (createBet id now uid gid ins st) in
  let st1 := snd (createBet id now uid gid ins st) in
  let st2 := updateBetCashOut id c win now' st1 in
  (isActive nb = true /\ bet_id nb = id /\ cashOutAt nb = None /\ winAmount nb = None)
  /\ (In nb (getBetsByUserId uid st1) /\ In nb (getBetsByGameId gid st1)
      /\ In nb (getActiveBetsByGameId gid st1))
  /\ (In (settled nb c win now') (getBetsByUserId uid st2)
      /\ In (settled nb c win now') (getBetsByGameId gid st2))
  /\ (forall g b, In b (getActiveBetsByGameId g st2) ->
                  map_get id (bets st2) <> Some b)
  /\ (forall k, k <> id -> map_get k (bets st2) = map_get k (bets st)).
Proof.
  intros nb st1 st2.
  assert (Hb1 : bets st1 = map_set id nb (bets st)) by reflexivity.
  assert (Hget1 : map_get id (bets st1) = Some nb)
    by (rewrite Hb1; apply map_get_set_same).
  assert (Hb2 : bets st2 = map_set id (settled nb c win now') (bets st1)).
  { unfold st2. now rewrite (updateBetCashOut_bets id c win now' st1 nb Hget1). }
  assert (Hin1 : In nb (map_values (bets st1)))
    by (rewrite Hb1; apply map_values_set_has).
  assert (Hin2 : In (settled nb c win now') (map_values (bets st2)))
    by (rewrite Hb2; apply map_values_set_has).
  split; [now repeat split|]. split; [|split; [|split]].
  - unfold getBetsByUserId, getBetsByGameId, getActiveBetsByGameId.
    repeat split; apply filter_In; (split; [exact Hin1|]); cbn;
      rewrite ?String.eqb_refl; reflexivity.
  - unfold getBetsByUserId, getBetsByGameId.
    split; apply filter_In; (split; [exact Hin2|]); cbn; apply String.eqb_refl.
  - intros g b Hin Hget. unfold getActiveBetsByGameId in Hin. apply filter_In in Hin.
    destruct Hin as [_ Hact]. apply andb_prop in Hact. destruct Hact as [_ Hact].
    rewrite Hb2, map_get_set_same in Hget. injection Hget as Hb. rewrite <- Hb in Hact.
    discriminate.
  - intros k Hk. rewrite Hb2, map_get_set_other by exact Hk.
    rewrite Hb1. now apply map_get_set_other.
Qed.

(** *** The chat *)

Lemma recentChat_sorted (l : list ChatMessage) :
  StronglySorted (fun a b => chatTime b <= chatTime a)
    (sort (fun a b => nsub (num (chatTime b)) (num (chatTime a))) l).
Proof.
  apply (sort_sorted _ (fun _ => True)).
  - intros a b c _ _ _ Hab Hbc. lia.
  - intros a b _ _ H. unfold sortsBefore in H. rewrite later_first_before in H.
    apply Z.ltb_lt in H. lia.
  - intros a b _ _ H. unfold sortsBefore in H. rewrite later_first_before in H.
    apply Z.ltb_ge in H. lia.
  - rewrite Forall_forall. now intros.
Qed.

(** X22. [getRecentChatMessages] lists stored messages only, the latest
    first.  With no limit ([Infinity]) it lists all of them; with any limit
    it lists a front part of that list, so whatever it leaves out is no
    later than whatever it keeps: for a limit [n >= 0] it keeps the [n]
    latest, or all when there are fewer; for a negative limit [-k] it
    leaves out the [k] oldest, which is all of them when there are no more
    than [k]. *)
Theorem getRecentChatMessages_latest_first (limit : number) (m : jsmap ChatMessage) :
  (forall x, In x (getRecentChatMessages limit m) -> In x (map_values m))
  /\ StronglySorted (fun a b => chatTime b <= chatTime a) (getRecentChatMessages limit m)
  /\ (forall n, 0 <= n ->
        List.length (getRecentChatMessages (num n) m)
        = Nat.min (Z.to_nat n) (List.length m))
  /\ (forall n, Z.of_nat (List.length m) <= n ->
        Permutation (getRecentChatMessages (num n) m) (map_values m))
  /\ (forall k, 0 < k ->
        List.length (getRecentChatMessages (num (- k)) m)
        = (List.length m - Z.to_nat k)%nat)
  /\ Permutation (getRecentChatMessages PosInf m) (map_values m)
  /\ (exists older,
        getRecentChatMessages PosInf m = (getRecentChatMessages limit m ++ older)%list
        /\ forall a b, In a (getRecentChatMessages limit m) -> In b older ->
                       chatTime b <= chatTime a).
Proof.
  assert (Hlen : List.length (map_values m) = List.length m)
    by (unfold map_values; apply List.length_map).
  unfold getRecentChatMessages.
  split; [|split; [|split; [|split; [|split; [|split]]]]];
    [| | | | | rewrite slice0_PosInf; apply sort_perm
     | rewrite slice0_PosInf;
       destruct (slice0_prefix limit
                   (sort (fun a b => nsub (num (chatTime b)) (num (chatTime a)))
                      (map_values m))) as [older Hold];
       exists older; split; [exact Hold|];
       apply StronglySorted_app_between; rewrite <- Hold; apply recentChat_sorted ].
  - intros x Hx. apply slice0_In in Hx.
    now apply (Permutation_in _ (sort_perm _ _)) in Hx.
  - apply StronglySorted_firstn, recentChat_sorted.
  - intros n Hn. now rewrite slice0_num_length, sort_length, Hlen.
  - intros n Hn. rewrite slice0_num_all by now rewrite sort_length, Hlen.
    apply sort_perm.
  - intros k Hk. now rewrite slice0_negative_length, sort_length, Hlen.
Qed.

(** X23. A message created later than every message in the chat heads
    the list of recent messages. *)
Theorem createChatMessage_heads_recent (id uid : string) (msg : InsertChatMessage)
    (now n : Z) (m : jsmap ChatMessage) :
  (forall x, In x (map_values m) -> chatTime x < now) ->
  1 <= n ->
  fst (createChatMessage id now uid msg m)
  = mkChatMessage id uid (ins_message msg) (Some now)
  /\ List.hd_error (getRecentChatMessages (num n) (snd (createChatMessage id now uid msg m)))
     = Some (fst (createChatMessage id now uid msg m)).
Proof.
  intros Hlater Hn. split; [reflexivity|]. cbn [createChatMessage fst snd].
  set (x0 := mkChatMessage id uid (ins_message msg) (Some now)).
  unfold getRecentChatMessages.
  set (l0 := map_values (map_set id x0 m)).
  set (cmp := fun a b : ChatMessage => nsub (num (chatTime b)) (num (chatTime a))).
  assert (Hin : In x0 (sort cmp l0)).
  { apply (Permutation_in _ (Permutation_sym (sort_perm cmp l0))).
    apply (map_get_value id). apply map_get_set_same. }
  pose proof (recentChat_sorted l0) as Hsorted. fold cmp in Hsorted.
  assert (Hmem : forall x, In x (sort cmp l0) -> x = x0 \/ chatTime x < now).
  { intros x Hx. apply (Permutation_in _ (sort_perm cmp l0)) in Hx.
    apply map_values_set_In in Hx. destruct Hx as [-> | Hx]; [now left|].
    right. now apply Hlater. }
  destruct (sort cmp l0) as [|x l] eqn:Hl; [contradiction|].
  unfold slice0. rewrite sliceEnd_num.
  destruct (n <? 0) eqn:E; [apply Z.ltb_lt in E; lia|].
  cbn [List.length].
  destruct (Z.to_nat (Z.min n (Z.of_nat (S (List.length l))))) as [|k] eqn:Ek; [lia|].
  cbn [List.firstn hd_error]. f_equal.
  destruct (Hmem x (or_introl eq_refl)) as [-> | Hx]; [reflexivity|].
  exfalso. destruct Hin as [-> | Hin]; [cbn in Hx; lia|].
  inversion Hsorted as [|? ? _ Hall]; subst.
  rewrite Forall_forall in Hall. specialize (Hall x0 Hin). cbn in Hall. lia.
Qed.

Lemma createChatMessage_heads_recent_witness :
  (forall x, In x (map_values demoChat) -> chatTime x < 9000)
  /\ 1 <= 50
  /\ fst (createChatMessage "m3" 9000 "default-user" (mkInsertChatMessage "gg") demoChat)
     = mkChatMessage "m3" "default-user" "gg" (Some 9000)
  /\ List.hd_error
       (getRecentChatMessages (num 50)
          (snd (createChatMessage "m3" 9000 "default-user" (mkInsertChatMessage "gg")
                  demoChat)))
     = Some (fst (createChatMessage "m3" 9000 "default-user" (mkInsertChatMessage "gg")
                    demoChat)).
Proof.
  assert (H1 : forall x, In x (map_values demoChat) -> chatTime x < 9000).
  { intros x [<- | [<- | []]]; cbn; lia. }
  assert (H2 : 1 <= 50) by lia.
  split; [exact H1|]. split; [exact H2|].
  exact (createChatMessage_heads_recent "m3" "default-user" (mkInsertChatMessage "gg")
           9000 50 demoChat H1 H2).
Defined.
